(** * Photo Smith: the image filter engine, its cancellation protocol and
      the undo history, embedded from [ImageFilters.cpp] and
      [photo_smith.cpp].

    Conventions. A member function of [ImageFilters] is a function from
    the objects it reads to a [result] holding the objects it writes. An
    exception raised by a pixel access is the [Err] result; the [catch]
    blocks of the filters only report it. Values of type [int] are
    integers of [Z]: on a well-formed buffer, whose size fits an [int],
    and with the arguments the main window passes, no intermediate value
    of a filter leaves the range of [int]. The conversion to
    [unsigned char] made by every pixel write is written out. [a / b] and
    [a % b] are [Z.quot] and [Z.rem]. Arithmetic in [double] and [float]
    is the module [Ieee]. *)

From Stdlib Require Import ZArith Lia List String Bool DecimalString.
From stdpp Require Import base list.

Open Scope Z_scope.

(** ** Faults and the error monad

    Two run-time faults can interrupt a filter: a coordinate access outside
    the pixel buffer and an integer division by zero. *)

Inductive Fault : Type :=
| OutOfRange
| DivisionByZero.

Inductive result (A : Type) : Type :=
| Ok (a : A)
| Err (f : Fault).

Arguments Ok {A} a.
Arguments Err {A} f.

Definition bind {A B : Type} (r : result A) (k : A -> result B) : result B :=
  match r with
  | Ok a => k a
  | Err f => Err f
  end.

Notation "x <- e ;; k" := (bind e (fun x => k))
  (at level 100, e at next level, right associativity).

(** C++ [a / b] on [int]: truncating division, a fault when [b] is zero. *)
Definition idiv (a b : Z) : result Z :=
  if b =? 0 then Err DivisionByZero else Ok (Z.quot a b).

(** ** Counted loops *)

(** [for (int i = start; ...; i++)] running [n] iterations. *)
Fixpoint for_loop {S : Type} (n : nat) (i : Z) (body : Z -> S -> result S)
    (s : S) : result S :=
  match n with
  | O => Ok s
  | Datatypes.S n' => s' <- body i s ;; for_loop n' (i + 1) body s'
  end.

(** [for (int i = lo; i < hi; i++)]. The bounds used by the filters are
    image dimensions and constants, none of which a loop body changes. *)
Definition for_range {S : Type} (lo hi : Z) (body : Z -> S -> result S)
    (s : S) : result S :=
  for_loop (Z.to_nat (hi - lo)) lo body s.

(** ** The pixel buffer *)

Module Img.

Definition channels : Z := 3.

(** Modelled from the spec: the [Image] class of [image/Image_Class.h],
    which is not among the sources. A buffer has a width, a height, three
    channels and a contiguous row-major sequence of
    [width*height*channels] 8-bit samples; an access outside
    [0 <= x < width], [0 <= y < height], [0 <= c < channels] is a fault;
    assignment copies the whole buffer. *)
Record Image : Type := mkImage {
  width : Z;
  height : Z;
  imageData : list Z
}.

Definition inRange (img : Image) (x y c : Z) : bool :=
  (0 <=? x) && (x <? width img) && (0 <=? y) && (y <? height img)
  && (0 <=? c) && (c <? channels).

Definition offset (img : Image) (x y c : Z) : nat :=
  Z.to_nat ((y * width img + x) * channels + c).

(** [img(x, y, c)] read as an rvalue. *)
Definition getPixel (img : Image) (x y c : Z) : result Z :=
  if inRange img x y c then
    match imageData img !! offset img x y c with
    | Some v => Ok v
    | None => Err OutOfRange
    end
  else Err OutOfRange.

(** Conversion of an [int] to [unsigned char]. *)
Definition to_uchar (v : Z) : Z := v mod 256.

(** [img.setPixel(x, y, c, v)], also [img(x, y, c) = v]. *)
Definition setPixel (img : Image) (x y c v : Z) : result Image :=
  if inRange img x y c then
    if (offset img x y c <? length (imageData img))%nat then
      Ok {| width := width img; height := height img;
            imageData := <[offset img x y c := to_uchar v]> (imageData img) |}
    else Err OutOfRange
  else Err OutOfRange.

(** Modelled from the spec: the constructor [Image(w, h)], whose content
    the spec leaves to the implementer (zero-filled or unspecified but
    deterministic). [junk] gives the sample found at each offset of the
    new buffer; [fun _ => 0] is the zero-filling constructor. *)
Definition newImage (junk : nat -> Z) (w h : Z) : Image :=
  {| width := w; height := h;
     imageData := map (fun i => to_uchar (junk i))
                      (seq 0 (Z.to_nat (w * h * channels))) |}.

(** Total read used in statements: the sample at [(x, y, c)], 0 when the
    offset is outside the buffer. *)
Definition pix (img : Image) (x y c : Z) : Z :=
  default 0 (imageData img !! offset img x y c).

(** Well-formed buffers: the sample sequence has the declared size, every
    sample is an 8-bit value, and the size fits a 32-bit [int], so that
    the index arithmetic of the filters never wraps. *)
Definition wf (img : Image) : Prop :=
  0 <= width img /\ 0 <= height img /\
  width img * height img * channels < 2 ^ 31 /\
  length (imageData img) = Z.to_nat (width img * height img * channels) /\
  Forall (fun v => 0 <= v < 256) (imageData img).

(** [set3 img x y r g b]: the three consecutive [setPixel] calls on
    channels 0, 1 and 2 of one pixel. *)
Definition set3 (img : Image) (x y r g b : Z) : result Image :=
  img1 <- setPixel img x y 0 r ;;
  img2 <- setPixel img1 x y 1 g ;;
  setPixel img2 x y 2 b.

(** Coordinates within the buffer. *)
Definition inside (img : Image) (x y c : Z) : Prop :=
  0 <= x < width img /\ 0 <= y < height img /\ 0 <= c < channels.

(** [img'] is [img] with the samples of pixel [(x, y)] on the channels
    selected by [sel] replaced by [f]. *)
Definition updated (img img' : Image) (x y : Z) (sel : Z -> bool)
    (f : Z -> Z) : Prop :=
  wf img' /\ width img' = width img /\ height img' = height img /\
  forall x' y' c', inside img x' y' c' ->
    pix img' x' y' c' =
      if (x' =? x) && (y' =? y) && sel c' then f c' else pix img x' y' c'.

(** The three channel values of one pixel as a function of the channel. *)
Definition rgb (r g b : Z) (c : Z) : Z :=
  if c =? 0 then r else if c =? 1 then g else b.

(** [img] is [img0] with every pixel of the region [P] set to [F]. *)
Definition painted (img0 img : Image) (P : Z -> Z -> bool)
    (F : Z -> Z -> Z -> Z) : Prop :=
  wf img /\ width img = width img0 /\ height img = height img0 /\
  forall x y c, inside img0 x y c ->
    pix img x y c = if P x y then F x y c else pix img0 x y c.

(** The columns [x0 <= x < x1] of the rows [y0 <= y' < y]. *)
Definition rows_before (x0 x1 y0 y : Z) (x' y' : Z) : bool :=
  (y0 <=? y') && (y' <? y) && (x0 <=? x') && (x' <? x1).

End Img.

Import Img.

(** ** The filter engine's surroundings *)

(** A [QProgressBar] as far as the filters drive it. *)
Record ProgressBar : Type := mkProgressBar {
  pbVisible : bool;
  pbMinimum : Z;
  pbMaximum : Z;
  pbValue : Z
}.

(** The [ImageFilters] object: its two widget pointers, each of which may be
    null. [statusBar] holds the message on display. *)
Record ImageFilters : Type := mkImageFilters {
  progressBar : option ProgressBar;
  statusBar : option string
}.

(** What a cancelable filter works on: the object itself, the two image
    references, the [std::atomic<bool>] token, and the number of calls of
    [QApplication::processEvents] made so far. *)
Record State : Type := mkState {
  self : ImageFilters;
  currentImage : Image;
  preFilterImage : Image;
  cancelRequested : bool;
  eventRound : nat
}.

(** The user: [clicks n] tells whether a click on the Cancel button is
    delivered during the [n]-th call of [processEvents]. Other events are
    not modelled. *)
Definition Clicks : Type := nat -> bool.

(** Which [return] a cancelable filter left through. *)
Inductive Outcome : Type :=
| Completed
| Cancelled.

Definition set_self (st : State) (f : ImageFilters) : State :=
  mkState f (currentImage st) (preFilterImage st) (cancelRequested st)
          (eventRound st).

Definition set_currentImage (st : State) (img : Image) : State :=
  mkState (self st) img (preFilterImage st) (cancelRequested st)
          (eventRound st).

(** [statusBar->showMessage(msg)] behind its null check. *)
Definition showMessage (msg : string) (f : ImageFilters) : ImageFilters :=
  match statusBar f with
  | Some _ => mkImageFilters (progressBar f) (Some msg)
  | None => f
  end.

(** [progressBar->setVisible(true); setRange(0, total); setValue(0)]. *)
Definition startProgress (total : Z) (f : ImageFilters) : ImageFilters :=
  match progressBar f with
  | Some _ => mkImageFilters (Some (mkProgressBar true 0 total 0)) (statusBar f)
  | None => f
  end.

Definition setProgressVisible (v : bool) (f : ImageFilters) : ImageFilters :=
  match progressBar f with
  | Some pb =>
      mkImageFilters
        (Some (mkProgressBar v (pbMinimum pb) (pbMaximum pb) (pbValue pb)))
        (statusBar f)
  | None => f
  end.

Definition setProgressValue (v : Z) (f : ImageFilters) : ImageFilters :=
  match progressBar f with
  | Some pb =>
      mkImageFilters
        (Some (mkProgressBar (pbVisible pb) (pbMinimum pb) (pbMaximum pb) v))
        (statusBar f)
  | None => f
  end.

(** [PhotoSmith::cancelFilter], the slot of the Cancel button. *)
Definition cancelFilter (st : State) : State :=
  mkState (showMessage "Cancelling filter..." (self st)) (currentImage st)
          (preFilterImage st) true (eventRound st).

(** [QApplication::processEvents()]: pending events run; the one that
    matters to a filter is the Cancel click. *)
Definition processEvents (clicks : Clicks) (st : State) : State :=
  let st' := if clicks (eventRound st) then cancelFilter st else st in
  mkState (self st') (currentImage st') (preFilterImage st')
          (cancelRequested st') (Datatypes.S (eventRound st')).

(** [ImageFilters::updateProgress]. *)
Definition updateProgress (clicks : Clicks) (value total updateInterval : Z)
    (st : State) : State :=
  match progressBar (self st) with
  | Some _ =>
      let st1 := set_self st (setProgressValue value (self st)) in
      if Z.rem value updateInterval =? 0 then processEvents clicks st1 else st1
  | None => st
  end.

(** [ImageFilters::checkCancellation]. *)
Definition checkCancellation (filterName : string) (st : State) : State :=
  if cancelRequested st then
    let st1 := set_currentImage st (preFilterImage st) in
    set_self st1
      (setProgressVisible false
         (showMessage (filterName ++ " filter cancelled") (self st1)))
  else st.

(** The row loop shared by the cancelable filters:
    [for (y = ...) { if (cancelRequested) { checkCancellation(...); return; }
                     row; updateProgress(y + 1, total, interval); }].
    [L] is the type of the filter's local variables that the rows update. *)
Fixpoint cancelable_loop {L : Type} (clicks : Clicks) (filterName : string)
    (total updateInterval : Z) (row : Z -> State -> L -> result (State * L))
    (n : nat) (y : Z) (st : State) (l : L) : result (Outcome * State * L) :=
  match n with
  | O => Ok (Completed, st, l)
  | Datatypes.S n' =>
      if cancelRequested st then
        Ok (Cancelled, checkCancellation filterName st, l)
      else
        r <- row y st l ;;
        cancelable_loop clicks filterName total updateInterval row n' (y + 1)
          (updateProgress clicks (y + 1) total updateInterval (fst r)) (snd r)
  end.

(** A row that works on [currentImage] in place. *)
Definition in_place (step : Z -> Image -> result Image)
    (y : Z) (st : State) (l : unit) : result (State * unit) :=
  img <- step y (currentImage st) ;;
  Ok (set_currentImage st img, l).

(** A row that reads [currentImage] and writes a local buffer. *)
Definition into_local (step : Image -> Z -> Image -> result Image)
    (y : Z) (st : State) (out : Image) : result (State * Image) :=
  out' <- step (currentImage st) y out ;;
  Ok (st, out').

(** The lines before the loop: progress bar, status message, one round of
    events. *)
Definition prologue (clicks : Clicks) (total : Z) (msg : string)
    (st : State) : State :=
  processEvents clicks
    (set_self st (showMessage msg (startProgress total (self st)))).

(** The lines after the loop of a filter that ran to its end. *)
Definition epilogue (msg : string) (st : State) : State :=
  set_self st (setProgressVisible false (showMessage msg (self st))).

(** What varies from one cancelable filter to the next: the name given to
    [checkCancellation], the first status message, the range of the
    progress bar, the bound of the outer loop, the interval given to
    [updateProgress], the local variables declared before the loop, the
    body of the outer loop, and the lines after the loop. *)
Record Cancelable (L : Type) : Type := mkCancelable {
  filterName : string;
  startMessage : string;
  progressTotal : Image -> Z;
  rowBound : Image -> Z;
  updateInterval : Z;
  locals : Image -> L;
  rowBody : Z -> State -> L -> result (State * L);
  finish : State -> L -> State
}.

Arguments mkCancelable {L}.
Arguments filterName {L}.
Arguments startMessage {L}.
Arguments progressTotal {L}.
Arguments rowBound {L}.
Arguments updateInterval {L}.
Arguments locals {L}.
Arguments rowBody {L}.
Arguments finish {L}.

(** The outer loop of filter [F] from row [y] on, [n] rows left. *)
Definition run_rows {L : Type} (F : Cancelable L) (clicks : Clicks)
    (n : nat) (y : Z) (st : State) (l : L) : result (Outcome * State * L) :=
  cancelable_loop clicks (filterName F) (progressTotal F (currentImage st))
    (updateInterval F) (rowBody F) n y st l.

(** What a filter does with the result of its outer loop: the cancellation
    branch has returned; otherwise the lines after the loop run. *)
Definition conclude {L : Type} (F : Cancelable L)
    (r : Outcome * State * L) : result (Outcome * State) :=
  match r with
  | (Cancelled, st', _) => Ok (Cancelled, st')
  | (Completed, st', l) => Ok (Completed, finish F st' l)
  end.

(** A cancelable filter, from its first line to its return. *)
Definition run_cancelable {L : Type} (F : Cancelable L) (clicks : Clicks)
    (st : State) : result (Outcome * State) :=
  let st := prologue clicks (progressTotal F (currentImage st))
              (startMessage F) st in
  r <- run_rows F clicks (Z.to_nat (rowBound F (currentImage st))) 0 st
         (locals F (currentImage st)) ;;
  conclude F r.

(** The run up to the head of row [y]: the lines before the loop and the
    rows [0 .. y - 1]. *)
Definition run_until {L : Type} (F : Cancelable L) (clicks : Clicks)
    (y : Z) (st : State) : result (Outcome * State * L) :=
  let st := prologue clicks (progressTotal F (currentImage st))
              (startMessage F) st in
  run_rows F clicks (Z.to_nat y) 0 st (locals F (currentImage st)).

(** ** Cancelable filters working in place *)

Definition grayscale_pixel (y x : Z) (img : Image) : result Image :=
  r <- getPixel img x y 0 ;;
  g <- getPixel img x y 1 ;;
  b <- getPixel img x y 2 ;;
  let gray := Z.quot (r + g + b) 3 in
  set3 img x y gray gray gray.

(** [ImageFilters::applyGrayscale]. A fault inside the [try] block is
    reported by the handler; it is the [Err] result here. *)
Definition grayscale_filter : Cancelable unit :=
  mkCancelable "Grayscale"
    "Applying Grayscale filter... (Click Cancel to stop)"
    height height 50 (fun _ => tt)
    (in_place (fun y img => for_range 0 (width img) (grayscale_pixel y) img))
    (fun st _ => epilogue "Grayscale filter applied" st).

Definition applyGrayscale (clicks : Clicks) (st : State)
    : result (Outcome * State) :=
  run_cancelable grayscale_filter clicks st.

Definition blackAndWhite_pixel (y x : Z) (img : Image) : result Image :=
  r <- getPixel img x y 0 ;;
  g <- getPixel img x y 1 ;;
  b <- getPixel img x y 2 ;;
  let gray := Z.quot (r + g + b) 3 in
  let bw := if 127 <? gray then 255 else 0 in
  set3 img x y bw bw bw.

(** [ImageFilters::applyBlackAndWhite]. *)
Definition blackAndWhite_filter : Cancelable unit :=
  mkCancelable "Black & White"
    "Applying Black & White filter... (Click Cancel to stop)"
    height height 50 (fun _ => tt)
    (in_place
       (fun y img => for_range 0 (width img) (blackAndWhite_pixel y) img))
    (fun st _ => epilogue "Black & White filter applied" st).

Definition applyBlackAndWhite (clicks : Clicks) (st : State)
    : result (Outcome * State) :=
  run_cancelable blackAndWhite_filter clicks st.

Definition invert_pixel (y x : Z) (img : Image) : result Image :=
  r <- getPixel img x y 0 ;;
  img1 <- setPixel img x y 0 (255 - r) ;;
  g <- getPixel img1 x y 1 ;;
  img2 <- setPixel img1 x y 1 (255 - g) ;;
  b <- getPixel img2 x y 2 ;;
  setPixel img2 x y 2 (255 - b).

(** [ImageFilters::applyInvert]. *)
Definition invert_filter : Cancelable unit :=
  mkCancelable "Invert"
    "Applying Invert filter... (Click Cancel to stop)"
    height height 50 (fun _ => tt)
    (in_place (fun y img => for_range 0 (width img) (invert_pixel y) img))
    (fun st _ => epilogue "Invert filter applied" st).

Definition applyInvert (clicks : Clicks) (st : State)
    : result (Outcome * State) :=
  run_cancelable invert_filter clicks st.

(** ** Pixel-level descriptions used in the statements *)

(** The grayscale value of a pixel: [(R + G + B) / 3] on [int]. *)
Definition gray_of (img : Image) (x y : Z) : Z :=
  Z.quot (pix img x y 0 + pix img x y 1 + pix img x y 2) 3.

(** ** Concrete inputs used by the examples *)

(** Nobody clicks Cancel. *)
Definition quiet : Clicks := fun _ => false.

(** A click on Cancel delivered in round [n] of event processing. *)
Definition click_at (n : nat) : Clicks := fun k => Nat.eqb k n.

(** The main window's engine: both widgets present, nothing shown yet. *)
Definition engine : ImageFilters :=
  mkImageFilters (Some (mkProgressBar false 0 100 0)) (Some ""%string).

(** The state in which [runCancelableFilter] calls a filter on [img]. *)
Definition fresh_state (img : Image) : State := mkState engine img img false 0.

(** A [w] x [h] buffer with every pixel equal to [(r, g, b)]. *)
Definition solid (w h r g b : Z) : Image :=
  mkImage w h (concat (replicate (Z.to_nat (w * h)) [r; g; b])).

(** A 2 x 2 buffer with four different pixels. *)
Definition quad : Image :=
  mkImage 2 2 [10; 20; 30;  40; 50; 60;  70; 80; 90;  200; 210; 255].

(** ** Immediate filters

    These take the image alone. Their call of [processEvents] comes while
    the Cancel button is hidden, so no click reaches them; it leaves the
    modelled state as it is. *)

Definition merge_pixel (mergeImage : Image) (y x : Z) (img : Image)
    : result Image :=
  r1 <- getPixel img x y 0 ;;
  r2 <- getPixel mergeImage x y 0 ;;
  g1 <- getPixel img x y 1 ;;
  g2 <- getPixel mergeImage x y 1 ;;
  b1 <- getPixel img x y 2 ;;
  b2 <- getPixel mergeImage x y 2 ;;
  set3 img x y (Z.quot (r1 + r2) 2) (Z.quot (g1 + g2) 2) (Z.quot (b1 + b2) 2).

(** [ImageFilters::applyMerge]. *)
Definition applyMerge (f : ImageFilters) (currentImage mergeImage : Image)
    : result (ImageFilters * Image) :=
  let f := showMessage "Applying Merge filter..." f in
  let w := Z.min (width currentImage) (width mergeImage) in
  let h := Z.min (height currentImage) (height mergeImage) in
  img <- for_range 0 h
           (fun y img => for_range 0 w (merge_pixel mergeImage y) img)
           currentImage ;;
  Ok (showMessage "Merge filter applied" f, img).

(** ** Binary floating point

    The filters compute a few quantities in [double] and [float]. A finite
    floating-point value is an exact fraction; an arithmetic operation is
    the exact operation on fractions followed by rounding to the nearest
    value with [p] significant bits, ties to even ([p = 53] for [double],
    [p = 24] for [float]). The exponent range is not modelled: every
    quantity the filters compute lies far inside it. *)

Module Ieee.

(** The fraction [num / den], with [den > 0]. *)
Record frac : Type := mkFrac { num : Z; den : Z }.

(** [floor (log2 (n / d))] for positive [n] and [d]. *)
Definition floor_log2 (n d : Z) : Z :=
  let s := Z.log2 d + 1 in
  Z.log2 (n * 2 ^ s / d) - s.

(** Rounding of the fraction [n / d >= 0] to [p] significant bits. *)
Definition round_pos (p n d : Z) : frac :=
  if n =? 0 then mkFrac 0 1
  else
    let e := floor_log2 n d - (p - 1) in
    let sn := if 0 <=? e then n else n * 2 ^ (- e) in
    let sd := if 0 <=? e then d * 2 ^ e else d in
    let m0 := sn / sd in
    let r := sn mod sd in
    let m := if 2 * r <? sd then m0
             else if sd <? 2 * r then m0 + 1
             else if Z.even m0 then m0 else m0 + 1 in
    if 0 <=? e then mkFrac (m * 2 ^ e) 1 else mkFrac m (2 ^ (- e)).

Definition round (p : Z) (q : frac) : frac :=
  if num q <? 0 then
    let r := round_pos p (- num q) (den q) in mkFrac (- num r) (den r)
  else round_pos p (num q) (den q).

Definition of_int (p : Z) (n : Z) : frac := round p (mkFrac n 1).

(** A decimal literal [n / d], such as [0.299] for [299 / 1000]. *)
Definition lit (p : Z) (n d : Z) : frac := round p (mkFrac n d).

Definition mul (p : Z) (a b : frac) : frac :=
  round p (mkFrac (num a * num b) (den a * den b)).

Definition add (p : Z) (a b : frac) : frac :=
  round p (mkFrac (num a * den b + num b * den a) (den a * den b)).

Definition sub (p : Z) (a b : frac) : frac :=
  round p (mkFrac (num a * den b - num b * den a) (den a * den b)).

(** Division. A quotient by zero is an infinity or a NaN, which [frac]
    does not have; the filters never use such a quotient, and it is 0 here. *)
Definition div (p : Z) (a b : frac) : frac :=
  if num b =? 0 then mkFrac 0 1
  else if 0 <? num b then round p (mkFrac (num a * den b) (den a * num b))
  else round p (mkFrac (- (num a * den b)) (den a * (- num b))).

Definition ltb (a b : frac) : bool := num a * den b <? num b * den a.

(** Conversion to [int]: truncation toward zero. *)
Definition to_int (a : frac) : Z := Z.quot (num a) (den a).

(** Correctly rounded square root of [a >= 0]. *)
Definition sqrt (p : Z) (a : frac) : frac :=
  if num a <=? 0 then mkFrac 0 1
  else
    let g := floor_log2 (num a) (den a) / 2 in
    let e := g - (p - 1) in
    let sn := if 0 <=? e then num a else num a * 4 ^ (- e) in
    let sd := if 0 <=? e then den a * 4 ^ e else den a in
    let m0 := Z.sqrt (sn / sd) in
    let half := (4 * m0 * m0 + 4 * m0 + 1) * sd in
    let m := if half <? 4 * sn then m0 + 1
             else if half =? 4 * sn then (if Z.even m0 then m0 else m0 + 1)
             else m0 in
    if 0 <=? e then mkFrac (m * 2 ^ e) 1 else mkFrac m (2 ^ (- e)).

(** [std::min] on floating-point values. *)
Definition min (a b : frac) : frac := if ltb b a then b else a.

End Ieee.

(** Decimal text of an [int], as [QString::arg] prints it. *)
Definition show_int (z : Z) : string := NilZero.string_of_int (Z.to_int z).

(** [(int)(x * ratio)] in [double], for an [int] [x]. *)
Definition scale (x : Z) (ratio : Ieee.frac) : Z :=
  Ieee.to_int (Ieee.mul 53 (Ieee.of_int 53 x) ratio).

Definition resize_pixel (src : Image) (xRatio yRatio : Ieee.frac) (y x : Z)
    (out : Image) : result Image :=
  let srcX := scale x xRatio in
  let srcY := scale y yRatio in
  let srcX := Z.min srcX (width src - 1) in
  let srcY := Z.min srcY (height src - 1) in
  r <- getPixel src srcX srcY 0 ;;
  out1 <- setPixel out x y 0 r ;;
  g <- getPixel src srcX srcY 1 ;;
  out2 <- setPixel out1 x y 1 g ;;
  b <- getPixel src srcX srcY 2 ;;
  setPixel out2 x y 2 b.

(** [ImageFilters::applyResize]. [junk] is the content of the buffer that
    [Image result(width, height)] allocates. *)
Definition applyResize (f : ImageFilters) (junk : nat -> Z)
    (currentImage : Image) (width height : Z)
    : result (ImageFilters * Image) :=
  let f := showMessage "Applying Resize filter..." f in
  let out := newImage junk width height in
  let xRatio := Ieee.div 53 (Ieee.of_int 53 (Img.width currentImage))
                         (Ieee.of_int 53 width) in
  let yRatio := Ieee.div 53 (Ieee.of_int 53 (Img.height currentImage))
                         (Ieee.of_int 53 height) in
  out <- for_range 0 height
           (fun y out =>
              for_range 0 width (resize_pixel currentImage xRatio yRatio y) out)
           out ;;
  Ok (showMessage ("Resize filter applied (" ++ show_int width ++ "x"
                   ++ show_int height ++ ")") f,
      out).

(** ** Cancelable filters writing a result buffer *)

(** The running sums [R], [G], [B] and [count] of [applyBlur]. *)
Record BlurAcc : Type := mkBlurAcc {
  sumR : Z;
  sumG : Z;
  sumB : Z;
  count : Z
}.

Definition inBounds (img : Image) (nx ny : Z) : bool :=
  (0 <=? nx) && (nx <? width img) && (0 <=? ny) && (ny <? height img).

Definition blur_sample (src : Image) (x y i j : Z) (acc : BlurAcc)
    : result BlurAcc :=
  let nx := x + j in
  let ny := y + i in
  if inBounds src nx ny then
    r <- getPixel src nx ny 0 ;;
    g <- getPixel src nx ny 1 ;;
    b <- getPixel src nx ny 2 ;;
    Ok (mkBlurAcc (sumR acc + r) (sumG acc + g) (sumB acc + b) (count acc + 1))
  else Ok acc.

Definition blur_window (src : Image) (blurSize x y : Z) : result BlurAcc :=
  for_range (- blurSize) (blurSize + 1)
    (fun i acc =>
       for_range (- blurSize) (blurSize + 1) (blur_sample src x y i) acc)
    (mkBlurAcc 0 0 0 0).

Definition blur_pixel (blurSize : Z) (src : Image) (y x : Z) (out : Image)
    : result Image :=
  acc <- blur_window src blurSize x y ;;
  r <- idiv (sumR acc) (Z.max 1 (count acc)) ;;
  out1 <- setPixel out x y 0 r ;;
  g <- idiv (sumG acc) (Z.max 1 (count acc)) ;;
  out2 <- setPixel out1 x y 1 g ;;
  b <- idiv (sumB acc) (Z.max 1 (count acc)) ;;
  setPixel out2 x y 2 b.

(** The radius [applyBlur] derives from its [strength] argument. *)
Definition blurSize_of (strength : Z) : Z :=
  let strength := Z.max 0 (Z.min 100 strength) in
  Z.max 1 (Z.quot (strength * 24) 100 + 1).

(** [ImageFilters::applyBlur] with a strength. [junk] is the content of
    the buffer that [Image result(width, height)] allocates. *)
Definition blur_filter (junk : nat -> Z) (strength : Z) : Cancelable Image :=
  let blurSize := blurSize_of strength in
  mkCancelable "Blur"
    "Applying Blur filter... (Click Cancel to stop)"
    height height 10
    (fun img => newImage junk (width img) (height img))
    (into_local
       (fun src y out => for_range 0 (width src) (blur_pixel blurSize src y) out))
    (fun st out =>
       epilogue ("Blur filter applied (radius " ++ show_int blurSize ++ ")")
                (set_currentImage st out)).

Definition applyBlur (clicks : Clicks) (junk : nat -> Z) (strength : Z)
    (st : State) : result (Outcome * State) :=
  run_cancelable (blur_filter junk strength) clicks st.

(** [ImageFilters::applyBlur] without a strength. *)
Definition applyBlurDefault (clicks : Clicks) (junk : nat -> Z) (st : State)
    : result (Outcome * State) :=
  applyBlur clicks junk 60 st.

(** The four 256-entry histograms of [applyOilPainting]. *)
Record OilAcc : Type := mkOilAcc {
  colorCount : list Z;
  redSum : list Z;
  greenSum : list Z;
  blueSum : list Z
}.

(** [a[k]] and [a[k] += v] on an [int a[256]]; the filter clamps every
    index it uses to [0 .. 255]. *)
Definition at_index (a : list Z) (k : Z) : Z := default 0 (a !! Z.to_nat k).

Definition add_at (a : list Z) (k v : Z) : list Z :=
  <[Z.to_nat k := at_index a k + v]> a.

Definition oil_zero : OilAcc :=
  let z := replicate 256 0 in mkOilAcc z z z z.

Definition oil_sample (src : Image) (intensity i j dy dx : Z) (acc : OilAcc)
    : result OilAcc :=
  let nx := i + dx in
  let ny := j + dy in
  if inBounds src nx ny then
    r <- getPixel src nx ny 0 ;;
    g <- getPixel src nx ny 1 ;;
    b <- getPixel src nx ny 2 ;;
    let avg := Z.quot (r + g + b) 3 in
    q <- idiv avg (Z.max 1 intensity) ;;
    let level := Z.min 255 (Z.max 0 q) in
    Ok (mkOilAcc (add_at (colorCount acc) level 1)
                 (add_at (redSum acc) level r)
                 (add_at (greenSum acc) level g)
                 (add_at (blueSum acc) level b))
  else Ok acc.

(** The scan for the most frequent level: the first one with the largest
    count. The state is [(maxCount, maxLevel)]. *)
Definition oil_max (cnt : list Z) : result (Z * Z) :=
  for_range 0 256
    (fun k m => if fst m <? at_index cnt k then Ok (at_index cnt k, k) else Ok m)
    (0, 0).

Definition oil_pixel (radius intensity : Z) (src : Image) (j i : Z)
    (out : Image) : result Image :=
  acc <- for_range (- radius) (radius + 1)
           (fun dy acc =>
              for_range (- radius) (radius + 1)
                (oil_sample src intensity i j dy) acc)
           oil_zero ;;
  m <- oil_max (colorCount acc) ;;
  let maxLevel := snd m in
  let denom := Z.max 1 (at_index (colorCount acc) maxLevel) in
  r <- idiv (at_index (redSum acc) maxLevel) denom ;;
  out1 <- setPixel out i j 0 r ;;
  g <- idiv (at_index (greenSum acc) maxLevel) denom ;;
  out2 <- setPixel out1 i j 1 g ;;
  b <- idiv (at_index (blueSum acc) maxLevel) denom ;;
  setPixel out2 i j 2 b.

(** [ImageFilters::applyOilPainting], the immediate overload: columns
    outside, rows inside. *)
Definition applyOilPainting (f : ImageFilters) (junk : nat -> Z)
    (currentImage : Image) (radius intensity : Z)
    : result (ImageFilters * Image) :=
  let f := showMessage "Applying Oil Painting..." f in
  let radius := Z.max 1 radius in
  let intensity := Z.max 1 (Z.min 255 intensity) in
  let out := newImage junk (width currentImage) (height currentImage) in
  out <- for_range 0 (width currentImage)
           (fun i out =>
              for_range 0 (height currentImage)
                (fun j out => oil_pixel radius intensity currentImage j i out)
                out)
           out ;;
  Ok (showMessage "Oil Painting applied" f, out).

(** [ImageFilters::applyOilPainting], the cancelable overload. *)
Definition oilPainting_filter (junk : nat -> Z) (radius intensity : Z)
    : Cancelable Image :=
  let radius := Z.max 1 radius in
  let intensity := Z.max 1 (Z.min 255 intensity) in
  mkCancelable "Oil Painting"
    "Applying Oil Painting... (Click Cancel to stop)"
    height height 5
    (fun img => newImage junk (width img) (height img))
    (into_local
       (fun src j out =>
          for_range 0 (width src) (oil_pixel radius intensity src j) out))
    (fun st out => epilogue "Oil Painting applied" (set_currentImage st out)).

Definition applyOilPaintingCancelable (clicks : Clicks) (junk : nat -> Z)
    (radius intensity : Z) (st : State) : result (Outcome * State) :=
  run_cancelable (oilPainting_filter junk radius intensity) clicks st.

(** ** The box blur, as the specification words it *)

(** [f i + f (i + 1) + ...], [n] terms. *)
Fixpoint sum_from (n : nat) (i : Z) (f : Z -> Z) : Z :=
  match n with
  | O => 0
  | Datatypes.S n' => f i + sum_from n' (i + 1) f
  end.

(** The sum of [g] over the samples of the [(2r+1) x (2r+1)] window
    centred on [(x, y)] that lie inside the buffer. *)
Definition window_total (img : Image) (r x y : Z) (g : Z -> Z -> Z) : Z :=
  sum_from (Z.to_nat (2 * r + 1)) (- r)
    (fun i =>
       sum_from (Z.to_nat (2 * r + 1)) (- r)
         (fun j => if inBounds img (x + j) (y + i) then g (x + j) (y + i) else 0)).

Definition window_sum (img : Image) (r x y c : Z) : Z :=
  window_total img r x y (fun nx ny => pix img nx ny c).

(** The number of in-bounds samples of the window. *)
Definition window_count (img : Image) (r x y : Z) : Z :=
  window_total img r x y (fun _ _ => 1).

(** The radius for a strength: [max(1, floor(strength*24/100) + 1)]. *)
Definition blur_radius (strength : Z) : Z :=
  Z.max 1 (strength * 24 / 100 + 1).

(** A run that does not end in a division by zero. *)
Definition div_safe {A : Type} (r : result A) : Prop := r <> Err DivisionByZero.

(** ** The remaining cancelable filters *)

(** [std::clamp(v, lo, hi)]. *)
Definition clamp (v lo hi : Z) : Z :=
  if v <? lo then lo else if hi <? v then hi else v.

(** [(int)(v * k)] in [float], for an [int] [v] and a literal [k = n / d]. *)
Definition scale_f (v n d : Z) : Z :=
  Ieee.to_int (Ieee.mul 24 (Ieee.of_int 24 v) (Ieee.lit 24 n d)).

(** [(int)(v * k)] in [double], for an [int] [v] and a literal [k = n / d]. *)
Definition scale_d (v n d : Z) : Z :=
  Ieee.to_int (Ieee.mul 53 (Ieee.of_int 53 v) (Ieee.lit 53 n d)).

(** One pixel of the TV/CRT effect. [noise x y] is the number that
    [noise_dist(rng)] draws for pixel [(x, y)]; the generator is seeded
    from the clock. *)
Definition tv_pixel (noise : Z -> Z -> Z) (y x : Z) (img : Image)
    : result Image :=
  r <- getPixel img x y 0 ;;
  g <- getPixel img x y 1 ;;
  b <- getPixel img x y 2 ;;
  let scanlineIntensity :=
    if Z.rem y 3 =? 0 then Ieee.lit 24 7 10 else Ieee.lit 24 1 1 in
  let brightness :=
    Ieee.div 24 (Ieee.div 24 (Ieee.of_int 24 (r + g + b)) (Ieee.lit 24 3 1))
             (Ieee.lit 24 255 1) in
  let dark := Ieee.ltb brightness (Ieee.lit 24 5 10) in
  let r1 := if dark then Z.min 255 (scale_f r 8 10) else r in
  let g1 := if dark then Z.min 255 (scale_f g 7 10) else g in
  let b1 := if dark then Z.min 255 (scale_f b 12 10) else b in
  let bright := Ieee.ltb (Ieee.lit 24 7 10) brightness in
  let r2 := if bright then Z.min 255 (scale_f r1 13 10) else r1 in
  let g2 := if bright then Z.min 255 (scale_f g1 11 10) else g1 in
  let b2 := if bright then Z.max 0 (scale_f b1 9 10) else b1 in
  let shade v :=
    Ieee.to_int (Ieee.mul 24 (Ieee.of_int 24 v) scanlineIntensity) in
  let n := noise x y in
  let r3 := Z.min 255 (Z.max 0 (shade r2 + n)) in
  let g3 := Z.min 255 (Z.max 0 (shade g2 + n)) in
  let b3 := Z.min 255 (Z.max 0 (shade b2 + n)) in
  set3 img x y r3 g3 b3.

(** [ImageFilters::applyTVFilter]. *)
Definition tv_filter (noise : Z -> Z -> Z) : Cancelable unit :=
  mkCancelable "TV/CRT"
    "Applying TV/CRT filter... (Click Cancel to stop)"
    height height 20 (fun _ => tt)
    (in_place (fun y img => for_range 0 (width img) (tv_pixel noise y) img))
    (fun st _ => epilogue "TV/CRT filter applied" st).

Definition applyTVFilter (clicks : Clicks) (noise : Z -> Z -> Z) (st : State)
    : result (Outcome * State) :=
  run_cancelable (tv_filter noise) clicks st.

Definition emboss_pixel (src : Image) (y x : Z) (embossed : Image)
    : result Image :=
  r1 <- getPixel src x y 0 ;;
  g1 <- getPixel src x y 1 ;;
  b1 <- getPixel src x y 2 ;;
  r2 <- getPixel src (x + 1) (y + 1) 0 ;;
  g2 <- getPixel src (x + 1) (y + 1) 1 ;;
  b2 <- getPixel src (x + 1) (y + 1) 2 ;;
  let diffR := clamp (r1 - r2 + 128) 0 255 in
  let diffG := clamp (g1 - g2 + 128) 0 255 in
  let diffB := clamp (b1 - b2 + 128) 0 255 in
  let gray := Z.quot (diffR + diffG + diffB) 3 in
  set3 embossed x y gray gray gray.

(** [ImageFilters::applyEmboss], the cancelable overload. *)
Definition emboss_filter (junk : nat -> Z) : Cancelable Image :=
  mkCancelable "Emboss"
    "Applying Emboss... (Click Cancel to stop)"
    height (fun img => height img - 1) 20
    (fun img => newImage junk (width img) (height img))
    (into_local
       (fun src y out => for_range 0 (width src - 1) (emboss_pixel src y) out))
    (fun st out => epilogue "Emboss applied" (set_currentImage st out)).

Definition applyEmboss (clicks : Clicks) (junk : nat -> Z) (st : State)
    : result (Outcome * State) :=
  run_cancelable (emboss_filter junk) clicks st.

(** [int(a * 0.6 + b * 0.4)] in [double]. *)
Definition mix (a b : Z) : Z :=
  Ieee.to_int
    (Ieee.add 53 (Ieee.mul 53 (Ieee.of_int 53 a) (Ieee.lit 53 6 10))
                 (Ieee.mul 53 (Ieee.of_int 53 b) (Ieee.lit 53 4 10))).

Definition doubleVision_pixel (offset : Z) (src : Image) (y x : Z)
    (out : Image) : result Image :=
  let nx := x + offset in
  let nx := if width src <=? nx then width src - 1 else nx in
  R1 <- getPixel src x y 0 ;;
  G1 <- getPixel src x y 1 ;;
  B1 <- getPixel src x y 2 ;;
  R2 <- getPixel src nx y 0 ;;
  G2 <- getPixel src nx y 1 ;;
  B2 <- getPixel src nx y 2 ;;
  set3 out x y (Z.min 255 (mix R1 R2 + 25)) (mix G1 G2) (mix B1 B2).

(** [ImageFilters::applyDoubleVision], the cancelable overload. *)
Definition doubleVision_filter (junk : nat -> Z) (offset : Z)
    : Cancelable Image :=
  let offset := Z.max 0 offset in
  mkCancelable "Double Vision"
    "Applying Double Vision... (Click Cancel to stop)"
    height height 20
    (fun img => newImage junk (width img) (height img))
    (into_local
       (fun src y out =>
          for_range 0 (width src) (doubleVision_pixel offset src y) out))
    (fun st out => epilogue "Double Vision applied" (set_currentImage st out)).

Definition applyDoubleVision (clicks : Clicks) (junk : nat -> Z) (offset : Z)
    (st : State) : result (Outcome * State) :=
  run_cancelable (doubleVision_filter junk offset) clicks st.

Definition sunlight_pixel (src : Image) (y x : Z) (out : Image)
    : result Image :=
  for_range 0 3
    (fun c out =>
       v <- getPixel src x y c ;;
       let v := if (c =? 0) || (c =? 1) then Z.min 255 (scale_d v 14 10) else v in
       setPixel out x y c v)
    out.

(** [ImageFilters::applyEnhanceSunlight], the cancelable overload. *)
Definition sunlight_filter (junk : nat -> Z) : Cancelable Image :=
  mkCancelable "Enhance Sunlight"
    "Enhancing Sunlight... (Click Cancel to stop)"
    height height 20
    (fun img => newImage junk (width img) (height img))
    (into_local
       (fun src y out => for_range 0 (width src) (sunlight_pixel src y) out))
    (fun st out => epilogue "Sunlight enhanced" (set_currentImage st out)).

Definition applyEnhanceSunlight (clicks : Clicks) (junk : nat -> Z)
    (st : State) : result (Outcome * State) :=
  run_cancelable (sunlight_filter junk) clicks st.

(** One pixel of the fish-eye effect, in [float]. [powf] stands for
    [std::pow] on [float], which the language does not define bit by bit. *)
Definition fishEye_pixel (powf : Ieee.frac -> Ieee.frac -> Ieee.frac)
    (src : Image) (y x : Z) (out : Image) : result Image :=
  let two := Ieee.lit 24 2 1 in
  let centerX := Ieee.div 24 (Ieee.of_int 24 (width src)) two in
  let centerY := Ieee.div 24 (Ieee.of_int 24 (height src)) two in
  let radius := Ieee.min centerX centerY in
  let dx := Ieee.div 24 (Ieee.sub 24 (Ieee.of_int 24 x) centerX) radius in
  let dy := Ieee.div 24 (Ieee.sub 24 (Ieee.of_int 24 y) centerY) radius in
  let dist := Ieee.sqrt 24 (Ieee.add 24 (Ieee.mul 24 dx dx) (Ieee.mul 24 dy dy)) in
  let one := Ieee.lit 24 1 1 in
  let zero := Ieee.lit 24 0 1 in
  if Ieee.ltb dist one && Ieee.ltb zero dist then
    let factor := one in
    let newDist := powf dist (Ieee.mul 24 factor (Ieee.lit 24 75 100)) in
    let along d :=
      Ieee.mul 24 (Ieee.mul 24 (Ieee.div 24 d dist) newDist) radius in
    let nx := Ieee.add 24 centerX (along dx) in
    let ny := Ieee.add 24 centerY (along dy) in
    let ix := clamp (Ieee.to_int nx) 0 (width src - 1) in
    let iy := clamp (Ieee.to_int ny) 0 (height src - 1) in
    for_range 0 3
      (fun c out => v <- getPixel src ix iy c ;; setPixel out x y c v) out
  else
    for_range 0 3
      (fun c out => v <- getPixel src x y c ;; setPixel out x y c v) out.

(** [ImageFilters::applyFishEye], the cancelable overload. *)
Definition fishEye_filter (powf : Ieee.frac -> Ieee.frac -> Ieee.frac)
    (junk : nat -> Z) : Cancelable Image :=
  mkCancelable "Fish-Eye"
    "Applying Fish-Eye... (Click Cancel to stop)"
    height height 10
    (fun img => newImage junk (width img) (height img))
    (into_local
       (fun src y out =>
          for_range 0 (width src) (fishEye_pixel powf src y) out))
    (fun st out => epilogue "Fish-Eye applied" (set_currentImage st out)).

Definition applyFishEye (clicks : Clicks)
    (powf : Ieee.frac -> Ieee.frac -> Ieee.frac) (junk : nat -> Z)
    (st : State) : result (Outcome * State) :=
  run_cancelable (fishEye_filter powf junk) clicks st.

Definition infrared_pixel (x y : Z) (img : Image) : result Image :=
  red <- getPixel img x y 0 ;;
  green <- getPixel img x y 1 ;;
  blue <- getPixel img x y 2 ;;
  let brightness :=
    Ieee.div 24 (Ieee.of_int 24 (red + green + blue)) (Ieee.lit 24 3 1) in
  let inverted := Ieee.sub 24 (Ieee.of_int 24 255) brightness in
  set3 img x y 255 (Ieee.to_int inverted) (Ieee.to_int inverted).

(** [ImageFilters::applyInfrared]: the outer loop runs over the columns. *)
Definition infrared_filter : Cancelable unit :=
  mkCancelable "Infrared"
    "Applying Infrared filter... (Click Cancel to stop)"
    width width 50 (fun _ => tt)
    (in_place (fun x img => for_range 0 (height img) (infrared_pixel x) img))
    (fun st _ => epilogue "Infrared filter applied" st).

Definition applyInfrared (clicks : Clicks) (st : State)
    : result (Outcome * State) :=
  run_cancelable infrared_filter clicks st.

Definition purple_pixel (y x : Z) (img : Image) : result Image :=
  r <- getPixel img x y 0 ;;
  g <- getPixel img x y 1 ;;
  b <- getPixel img x y 2 ;;
  set3 img x y (Z.min 255 (scale_d r 13 10)) (Z.max 0 (scale_d g 5 10))
       (Z.min 255 (scale_d b 13 10)).

(** [ImageFilters::applyPurpleFilter]. *)
Definition purple_filter : Cancelable unit :=
  mkCancelable "Purple"
    "Applying Purple filter... (Click Cancel to stop)"
    height height 50 (fun _ => tt)
    (in_place (fun y img => for_range 0 (width img) (purple_pixel y) img))
    (fun st _ => epilogue "Purple filter applied" st).

Definition applyPurpleFilter (clicks : Clicks) (st : State)
    : result (Outcome * State) :=
  run_cancelable purple_filter clicks st.

(** ** The cancelable filters, one by one *)

Inductive CancelableFilter : Type :=
| Grayscale
| TVFilter (noise : Z -> Z -> Z)
| BlackAndWhite
| Invert
| Blur (junk : nat -> Z) (strength : Z)
| Emboss (junk : nat -> Z)
| DoubleVision (junk : nat -> Z) (offset : Z)
| OilPainting (junk : nat -> Z) (radius intensity : Z)
| EnhanceSunlight (junk : nat -> Z)
| FishEye (powf : Ieee.frac -> Ieee.frac -> Ieee.frac) (junk : nat -> Z)
| Infrared
| Purple.

(** The type of the local variables the rows of a filter update. *)
Definition locals_of (flt : CancelableFilter) : Type :=
  match flt with
  | Grayscale | TVFilter _ | BlackAndWhite | Invert | Infrared | Purple => unit
  | Blur _ _ | Emboss _ | DoubleVision _ _ | OilPainting _ _ _
  | EnhanceSunlight _ | FishEye _ _ => Image
  end.

Definition filter_of (flt : CancelableFilter) : Cancelable (locals_of flt) :=
  match flt with
  | Grayscale => grayscale_filter
  | TVFilter noise => tv_filter noise
  | BlackAndWhite => blackAndWhite_filter
  | Invert => invert_filter
  | Blur junk strength => blur_filter junk strength
  | Emboss junk => emboss_filter junk
  | DoubleVision junk offset => doubleVision_filter junk offset
  | OilPainting junk radius intensity => oilPainting_filter junk radius intensity
  | EnhanceSunlight junk => sunlight_filter junk
  | FishEye powf junk => fishEye_filter powf junk
  | Infrared => infrared_filter
  | Purple => purple_filter
  end.

(** The call of the member function that [flt] names. *)
Definition apply_filter (flt : CancelableFilter) (clicks : Clicks) (st : State)
    : result (Outcome * State) :=
  match flt with
  | Grayscale => applyGrayscale clicks st
  | TVFilter noise => applyTVFilter clicks noise st
  | BlackAndWhite => applyBlackAndWhite clicks st
  | Invert => applyInvert clicks st
  | Blur junk strength => applyBlur clicks junk strength st
  | Emboss junk => applyEmboss clicks junk st
  | DoubleVision junk offset => applyDoubleVision clicks junk offset st
  | OilPainting junk radius intensity =>
      applyOilPaintingCancelable clicks junk radius intensity st
  | EnhanceSunlight junk => applyEnhanceSunlight clicks junk st
  | FishEye powf junk => applyFishEye clicks powf junk st
  | Infrared => applyInfrared clicks st
  | Purple => applyPurpleFilter clicks st
  end.

(** ** Edge detection *)

(** [(int)(0.299 * r + 0.587 * g + 0.114 * b)] in [double]. *)
Definition luma (r g b : Z) : Z :=
  Ieee.to_int
    (Ieee.add 53
       (Ieee.add 53 (Ieee.mul 53 (Ieee.lit 53 299 1000) (Ieee.of_int 53 r))
                    (Ieee.mul 53 (Ieee.lit 53 587 1000) (Ieee.of_int 53 g)))
       (Ieee.mul 53 (Ieee.lit 53 114 1000) (Ieee.of_int 53 b))).

(** [int kernel[5][5]], [int sobelX[3][3]] and [int sobelY[3][3]]. *)
Definition kernel : list (list Z) :=
  [ [1; 4; 6; 4; 1];
    [4; 16; 24; 16; 4];
    [6; 24; 36; 24; 6];
    [4; 16; 24; 16; 4];
    [1; 4; 6; 4; 1] ].

Definition kernelSum : Z := 256.

Definition sobelX : list (list Z) := [ [-1; 0; 1]; [-2; 0; 2]; [-1; 0; 1] ].

Definition sobelY : list (list Z) := [ [-1; -2; -1]; [0; 0; 0]; [1; 2; 1] ].

(** [t[i][j]] on a constant table. *)
Definition table_at (t : list (list Z)) (i j : Z) : Z :=
  at_index (default [] (t !! Z.to_nat i)) j.

Definition edges_gray_pixel (src : Image) (y x : Z) (gray : Image)
    : result Image :=
  r <- getPixel src x y 0 ;;
  g <- getPixel src x y 1 ;;
  b <- getPixel src x y 2 ;;
  let grayVal := luma r g b in
  set3 gray x y grayVal grayVal grayVal.

Definition edges_blur_pixel (gray : Image) (y x : Z) (blurred : Image)
    : result Image :=
  sum <- for_range (-2) 3
           (fun ky sum =>
              for_range (-2) 3
                (fun kx sum =>
                   v <- getPixel gray (x + kx) (y + ky) 0 ;;
                   Ok (sum + v * table_at kernel (ky + 2) (kx + 2)))
                sum)
           0 ;;
  let blurredVal := Z.quot sum kernelSum in
  set3 blurred x y blurredVal blurredVal blurredVal.

(** [(int)std::sqrt(gx * gx + gy * gy)]. *)
Definition magnitude (gx gy : Z) : Z :=
  Ieee.to_int (Ieee.sqrt 53 (Ieee.of_int 53 (gx * gx + gy * gy))).

(** The threshold on the clamped magnitude. *)
Definition edge_of (gx gy : Z) : Z :=
  let m := Z.min 255 (Z.max 0 (magnitude gx gy)) in
  if 50 <? m then 0 else 255.

Definition edges_sobel_pixel (blurred : Image) (y x : Z) (edge : Image)
    : result Image :=
  g <- for_range (-1) 2
         (fun ky g =>
            for_range (-1) 2
              (fun kx g =>
                 pixelVal <- getPixel blurred (x + kx) (y + ky) 0 ;;
                 Ok (fst g + pixelVal * table_at sobelX (ky + 1) (kx + 1),
                     snd g + pixelVal * table_at sobelY (ky + 1) (kx + 1)))
              g)
         (0, 0) ;;
  let edgeVal := edge_of (fst g) (snd g) in
  set3 edge x y edgeVal edgeVal edgeVal.

(** The three loop nests of [applyEdges]. [junk] is the content of the
    buffer each one allocates. *)
Definition edges_gray_pass (junk : nat -> Z) (src : Image) : result Image :=
  for_range 0 (height src)
    (fun y gray => for_range 0 (width src) (edges_gray_pixel src y) gray)
    (newImage junk (width src) (height src)).

Definition edges_blur_pass (junk : nat -> Z) (gray : Image) : result Image :=
  for_range 2 (height gray - 2)
    (fun y blurred =>
       for_range 2 (width gray - 2) (edges_blur_pixel gray y) blurred)
    (newImage junk (width gray) (height gray)).

Definition edges_sobel_pass (junk : nat -> Z) (blurred : Image)
    : result Image :=
  for_range 1 (height blurred - 1)
    (fun y edge =>
       for_range 1 (width blurred - 1) (edges_sobel_pixel blurred y) edge)
    (newImage junk (width blurred) (height blurred)).

(** [ImageFilters::applyEdges]. [junk 0], [junk 1] and [junk 2] are the
    contents of the buffers [gray], [blurred] and [edge] when allocated. *)
Definition applyEdges (f : ImageFilters) (junk : nat -> nat -> Z)
    (currentImage : Image) : result (ImageFilters * Image) :=
  let f := showMessage "Applying Edge Detection filter..." f in
  gray <- edges_gray_pass (junk 0%nat) currentImage ;;
  blurred <- edges_blur_pass (junk 1%nat) gray ;;
  edge <- edges_sobel_pass (junk 2%nat) blurred ;;
  Ok (showMessage "Edge Detection filter applied" f, edge).

(** ** Edge detection, as the specification words it *)


(** The binomial weights 1 4 6 4 1 and the Sobel weights 1 2 1. *)
Definition binomial (k : Z) : Z :=
  if Z.abs k =? 0 then 6 else if Z.abs k =? 1 then 4 else 1.

Definition smooth (k : Z) : Z := 2 - Z.abs k.

Definition gauss_weight (ky kx : Z) : Z := binomial ky * binomial kx.
Definition sobelX_weight (ky kx : Z) : Z := smooth ky * kx.
Definition sobelY_weight (ky kx : Z) : Z := ky * smooth kx.






(** ** Flip, brightness and frames *)

(** [for (c < 3)] swapping the samples of two pixels. *)
Definition swap_pixels (x y x2 y2 : Z) (img : Image) : result Image :=
  for_range 0 3
    (fun c img =>
       temp <- getPixel img x y c ;;
       v <- getPixel img x2 y2 c ;;
       img1 <- setPixel img x y c v ;;
       setPixel img1 x2 y2 c temp)
    img.

(** [ImageFilters::applyFlip]. Every direction other than ["Horizontal"]
    takes the [else] branch. *)
Definition applyFlip (f : ImageFilters) (currentImage : Image)
    (direction : string) : result (ImageFilters * Image) :=
  let f := showMessage "Applying Flip filter..." f in
  let w := width currentImage in
  let h := height currentImage in
  img <- (if String.eqb direction "Horizontal" then
            for_range 0 h
              (fun y img =>
                 for_range 0 (Z.quot w 2)
                   (fun x img => swap_pixels x y (w - 1 - x) y img) img)
              currentImage
          else
            for_range 0 (Z.quot h 2)
              (fun y img =>
                 for_range 0 w
                   (fun x img => swap_pixels x y x (h - 1 - y) img) img)
              currentImage) ;;
  Ok (showMessage "Flip filter applied" f, img).

(** The column-major loop nest of the brightness filters: every sample
    [p] becomes [g p]. *)
Definition map_samples (g : Z -> Z) (src out : Image) : result Image :=
  for_range 0 (width src)
    (fun i out =>
       for_range 0 (height src)
         (fun j out =>
            for_range 0 3
              (fun k out => p <- getPixel src i j k ;; setPixel out i j k (g p))
              out)
         out)
    out.

(** [ImageFilters::applyDarkAndLight(image, choice)]. Every choice other
    than ["dark"] takes the [else] branch. *)
Definition applyDarkAndLight (f : ImageFilters) (junk : nat -> Z)
    (currentImage : Image) (choice : string) : result (ImageFilters * Image) :=
  let f := showMessage "Applying Dark & Light filter..." f in
  let out := newImage junk (width currentImage) (height currentImage) in
  out <- map_samples
           (fun p =>
              if String.eqb choice "dark" then Z.quot p 3
              else let p := p * 2 in if 255 <? p then 255 else p)
           currentImage out ;;
  Ok (showMessage "Dark & Light filter applied" f, out).

(** [ImageFilters::applyDarkAndLight(image, choice, percent)]. *)
Definition applyDarkAndLightPercent (f : ImageFilters) (junk : nat -> Z)
    (currentImage : Image) (choice : string) (percent : Z)
    : result (ImageFilters * Image) :=
  let f := showMessage "Applying Dark & Light (custom %) filter..." f in
  let percent := Z.max 0 (Z.min 100 percent) in
  let ratio := Ieee.div 53 (Ieee.of_int 53 percent) (Ieee.lit 53 100 1) in
  let one := Ieee.lit 53 1 1 in
  let zero := Ieee.lit 53 0 1 in
  let factor :=
    if String.eqb choice "dark" then
      let d := Ieee.sub 53 one ratio in
      if Ieee.ltb zero d then d else zero
    else Ieee.add 53 one ratio in
  let out := newImage junk (width currentImage) (height currentImage) in
  out <- map_samples
           (fun p =>
              let v := Ieee.mul 53 (Ieee.of_int 53 p) factor in
              let v := if Ieee.ltb v zero then zero else v in
              let v := if Ieee.ltb (Ieee.lit 53 255 1) v
                       then Ieee.lit 53 255 1 else v in
              Ieee.to_int v)
           currentImage out ;;
  Ok (showMessage ("Dark & Light (" ++ show_int percent ++ "%, " ++ choice
                   ++ ") applied") f,
      out).

(** [for (c < 3) img.setPixel(x, y, c, color[c])]. *)
Definition paint (color : list Z) (x y : Z) (img : Image) : result Image :=
  for_range 0 3 (fun c img => setPixel img x y c (at_index color c)) img.

(** [for (c < 3) dst.setPixel(x + dx, y + dy, c, src(x, y, c))]. *)
Definition copy_pixel (src : Image) (dx dy x y : Z) (dst : Image)
    : result Image :=
  for_range 0 3
    (fun c dst => v <- getPixel src x y c ;; setPixel dst (x + dx) (y + dy) c v)
    dst.

(** A loop nest over the rectangle [x0 <= x < x1], [y0 <= y < y1], rows
    outside. *)
Definition for_rect (x0 x1 y0 y1 : Z) (body : Z -> Z -> Image -> result Image)
    (img : Image) : result Image :=
  for_range y0 y1 (fun y img => for_range x0 x1 (fun x img => body x y img) img)
    img.

(** Pasting the whole of [src] into [dst] at offset [(dx, dy)]. *)
Definition paste (src : Image) (dx dy : Z) (dst : Image) : result Image :=
  for_rect 0 (width src) 0 (height src) (copy_pixel src dx dy) dst.

(** [QString::endsWith]. *)
Definition endsWith (s suffix : string) : bool :=
  let n := String.length s in
  let k := String.length suffix in
  (k <=? n)%nat && String.eqb (String.substring (n - k) k s) suffix.

(** The branches of [applyFrame], each returning the framed buffer. *)

Definition white : list Z := [255; 255; 255].

Definition simple_frame (junk : nat -> Z) (src : Image) : result Image :=
  let frameSize := 10 in
  let innerFrame := 5 in
  let w := width src in
  let h := height src in
  let out := newImage junk (w + 2 * frameSize) (h + 2 * frameSize) in
  out <- for_rect 0 (width out) 0 (height out) (paint [0; 0; 255]) out ;;
  out <- paste src frameSize frameSize out ;;
  let gap := 5 in
  for_rect (frameSize + gap) (frameSize + w - gap)
           (frameSize + gap) (frameSize + h - gap)
    (fun x y out =>
       let isWhiteBorder :=
         (x <? frameSize + gap + innerFrame)
         || (frameSize + w - gap - innerFrame <=? x)
         || (y <? frameSize + gap + innerFrame)
         || (frameSize + h - gap - innerFrame <=? y) in
       if isWhiteBorder then paint white x y out else Ok out)
    out.

Definition double_border_frame (junk : nat -> Z) (src : Image)
    : result Image :=
  let outer := 14 in
  let inner := 6 in
  let gap := 4 in
  let newWidth := width src + 2 * (outer + inner + gap) in
  let newHeight := height src + 2 * (outer + inner + gap) in
  let out := newImage junk newWidth newHeight in
  out <- for_rect 0 newWidth 0 newHeight (paint [20; 20; 20]) out ;;
  out <- for_rect 0 newWidth 0 newHeight
           (fun x y out =>
              let border :=
                (x <? outer) || (newWidth - outer <=? x)
                || (y <? outer) || (newHeight - outer <=? y) in
              if border then paint white x y out else Ok out)
           out ;;
  out <- for_rect (outer + gap) (newWidth - (outer + gap))
                  (outer + gap) (newHeight - (outer + gap))
           (fun x y out =>
              let border :=
                (x <? outer + gap + inner)
                || (newWidth - (outer + gap + inner) <=? x)
                || (y <? outer + gap + inner)
                || (newHeight - (outer + gap + inner) <=? y) in
              if border then paint white x y out else Ok out)
           out ;;
  paste src (outer + gap + inner) (outer + gap + inner) out.

Definition solid_frame (junk : nat -> Z) (src : Image) (frameType : string)
    : result Image :=
  let frame := 20 in
  let color :=
    if endsWith frameType "Blue" then [0; 0; 255]
    else if endsWith frameType "Red" then [255; 0; 0]
    else if endsWith frameType "Green" then [0; 255; 0]
    else if endsWith frameType "White" then [255; 255; 255]
    else [0; 0; 0] in
  let out := newImage junk (width src + 2 * frame) (height src + 2 * frame) in
  out <- for_rect 0 (width out) 0 (height out) (paint color) out ;;
  paste src frame frame out.

Definition shadow_frame (junk : nat -> Z) (src : Image) : result Image :=
  let pad := 15 in
  let shadow := 18 in
  let newW := width src + pad + shadow in
  let newH := height src + pad + shadow in
  let out := newImage junk newW newH in
  out <- for_rect 0 newW 0 newH (paint [20; 20; 20]) out ;;
  out <- for_rect 0 newW 0 newH
           (fun x y out =>
              let dx := Z.max 0 (x - (pad + width src)) in
              let dy := Z.max 0 (y - (pad + height src)) in
              let dist := Z.max dx dy in
              let shade := Z.min 60 (dist * 6) in
              paint [20 + shade; 20 + shade; 20 + shade] x y out)
           out ;;
  paste src pad pad out.

Definition gold_frame (junk : nat -> Z) (src : Image) : result Image :=
  let fw := 45 in
  let outer := [180; 140; 40] in
  let inner := [240; 210; 120] in
  let accent := [200; 160; 60] in
  let newW := width src + 2 * fw in
  let newH := height src + 2 * fw in
  let out := newImage junk newW newH in
  out <- for_rect 0 newW 0 newH (paint outer) out ;;
  out <- for_rect 3 (newW - 3) 3 (newH - 3)
           (fun x y out =>
              let stripe :=
                (Z.rem (x + y) 11 =? 0) || (Z.rem (x - y + 1000) 13 =? 0) in
              if stripe then paint accent x y out else Ok out)
           out ;;
  out <- for_rect (fw - 6) (newW - (fw - 6)) (fw - 6) (newH - (fw - 6))
           (paint inner) out ;;
  paste src fw fw out.

Definition decorated_frame (junk : nat -> Z) (src : Image) : result Image :=
  let frameWidth := 25 in
  let outerColor := [100; 70; 50] in
  let innerColor := [235; 225; 210] in
  let accentColor := [180; 140; 80] in
  let newWidth := width src + 2 * frameWidth in
  let newHeight := height src + 2 * frameWidth in
  let out := newImage junk newWidth newHeight in
  out <- paste src frameWidth frameWidth out ;;
  for_rect 0 newWidth 0 newHeight
    (fun x y out =>
       if (x <? frameWidth) || (newWidth - frameWidth <=? x)
          || (y <? frameWidth) || (newHeight - frameWidth <=? y)
       then
         let distFromEdge :=
           Z.min (Z.min x y) (Z.min (newWidth - 1 - x) (newHeight - 1 - y)) in
         if distFromEdge <? 3 then paint outerColor x y out
         else if (distFromEdge =? 12) || (distFromEdge =? 15)
                 || (distFromEdge =? 9)
         then paint accentColor x y out
         else if distFromEdge <? frameWidth - 4 then
           out <- paint innerColor x y out ;;
           let cornerDist :=
             Z.min (Z.min x (newWidth - 1 - x)) (Z.min y (newHeight - 1 - y)) in
           if (cornerDist <? frameWidth) && (Z.rem (x + y) 12 =? 0)
           then paint accentColor x y out else Ok out
         else if (frameWidth - 4 <=? distFromEdge)
                 && (distFromEdge <? frameWidth - 1)
         then paint accentColor x y out
         else paint outerColor x y out
       else Ok out)
    out.

(** [ImageFilters::applyFrame(image, frameType)]. Every frame type that no
    earlier comparison recognizes takes the last [else] branch. *)
Definition applyFrame (f : ImageFilters) (junk : nat -> Z)
    (currentImage : Image) (frameType : string)
    : result (ImageFilters * Image) :=
  let f := showMessage "Applying Frame filter..." f in
  out <- (if String.eqb frameType "Simple Frame" then
            simple_frame junk currentImage
          else if String.eqb frameType "Double Border - White" then
            double_border_frame junk currentImage
          else if String.eqb frameType "Solid Frame - Blue"
                  || String.eqb frameType "Solid Frame - Red"
                  || String.eqb frameType "Solid Frame - Green"
                  || String.eqb frameType "Solid Frame - Black"
                  || String.eqb frameType "Solid Frame - White" then
            solid_frame junk currentImage frameType
          else if String.eqb frameType "Shadow Frame" then
            shadow_frame junk currentImage
          else if String.eqb frameType "Gold Decorated Frame" then
            gold_frame junk currentImage
          else decorated_frame junk currentImage) ;;
  Ok (showMessage "Frame filter applied" f, out).

(** The frame types the main window offers. *)
Definition offered_frame (frameType : string) : bool :=
  String.eqb frameType "Simple Frame"
  || String.eqb frameType "Double Border - White"
  || String.eqb frameType "Solid Frame - Blue"
  || String.eqb frameType "Solid Frame - Red"
  || String.eqb frameType "Solid Frame - Green"
  || String.eqb frameType "Solid Frame - Black"
  || String.eqb frameType "Solid Frame - White"
  || String.eqb frameType "Shadow Frame"
  || String.eqb frameType "Gold Decorated Frame".

(** ** The undo history *)

Module History.

(** Modelled from the spec: the [HistoryManager] class of
    [core/history/HistoryManager.h], which is not among the sources. It
    holds a capacity and two stacks of snapshots, most recent first. *)
Record HistoryManager : Type := mkHistory {
  capacity : nat;
  undoStack : list Image;
  redoStack : list Image
}.

(** Modelled from the spec: [HistoryManager history{n}], both stacks
    empty. *)
Definition create (n : nat) : HistoryManager := mkHistory n [] [].

(** Modelled from the spec: [pushUndo] stores a copy of the buffer on the
    undo stack, evicts the oldest entry if the capacity is exceeded, and
    clears the redo stack. *)
Definition pushUndo (snapshot : Image) (h : HistoryManager) : HistoryManager :=
  let u := snapshot :: undoStack h in
  mkHistory (capacity h)
            (if (capacity h <? length u)%nat then removelast u else u)
            [].

(** Modelled from the spec: [undo] pops the most recent undo entry, pushes
    the current buffer on the redo stack and writes the popped snapshot
    into the caller's buffer; on an empty undo stack it returns [false] and
    changes nothing. The result is the flag, the caller's buffer and the
    history. *)
Definition undo (current : Image) (h : HistoryManager)
    : bool * Image * HistoryManager :=
  match undoStack h with
  | [] => (false, current, h)
  | s :: rest => (true, s, mkHistory (capacity h) rest (current :: redoStack h))
  end.

(** Modelled from the spec: [redo], the mirror of [undo]. *)
Definition redo (current : Image) (h : HistoryManager)
    : bool * Image * HistoryManager :=
  match redoStack h with
  | [] => (false, current, h)
  | s :: rest => (true, s, mkHistory (capacity h) (current :: undoStack h) rest)
  end.

(** Modelled from the spec: [canUndo] and [canRedo] tell whether the
    stack has an entry. *)
Definition canUndo (h : HistoryManager) : bool :=
  match undoStack h with [] => false | _ :: _ => true end.

Definition canRedo (h : HistoryManager) : bool :=
  match redoStack h with [] => false | _ :: _ => true end.

(** Modelled from the spec: [clear] empties both stacks. *)
Definition clear (h : HistoryManager) : HistoryManager :=
  mkHistory (capacity h) [] [].

(** One call on the history, for statements over call sequences. The
    buffer of [Undo] and [Redo] is the caller's current one. *)
Inductive Call : Type :=
| PushUndo (snapshot : Image)
| Undo (current : Image)
| Redo (current : Image)
| Clear.

Definition call (h : HistoryManager) (c : Call) : HistoryManager :=
  match c with
  | PushUndo s => pushUndo s h
  | Undo cur => snd (undo cur h)
  | Redo cur => snd (redo cur h)
  | Clear => clear h
  end.

End History.

(** ** The main window's use of the history *)

(** The members of [PhotoSmith] that undo and redo touch. *)
Record PhotoSmith : Type := mkPhotoSmith {
  psImage : Image;
  hasImage : bool;
  history : History.HistoryManager;
  undoFilterNames : list string;
  redoFilterNames : list string;
  activeFilterValue : string;
  hasUnsavedChanges : bool;
  undoEnabled : bool;
  redoEnabled : bool
}.

(** [HistoryManager history{20}]. *)
Definition initial_history : History.HistoryManager := History.create 20.

(** [PhotoSmith::updateUndoRedoButtons]. *)
Definition updateUndoRedoButtons (ps : PhotoSmith) : PhotoSmith :=
  mkPhotoSmith (psImage ps) (hasImage ps) (history ps) (undoFilterNames ps)
    (redoFilterNames ps) (activeFilterValue ps) (hasUnsavedChanges ps)
    (History.canUndo (history ps)) (History.canRedo (history ps)).

(** [PhotoSmith::saveStateForUndo]. *)
Definition saveStateForUndo (ps : PhotoSmith) : PhotoSmith :=
  if negb (hasImage ps) then ps
  else
    updateUndoRedoButtons
      (mkPhotoSmith (psImage ps) (hasImage ps)
         (History.pushUndo (psImage ps) (history ps))
         (activeFilterValue ps :: undoFilterNames ps) []
         (activeFilterValue ps) true (undoEnabled ps) (redoEnabled ps)).

(** A mutation of the image as the main window runs it:
    [saveStateForUndo] first, then the new buffer. *)
Definition mutate (ps : PhotoSmith) (img : Image) : PhotoSmith :=
  let ps := saveStateForUndo ps in
  mkPhotoSmith img (hasImage ps) (history ps) (undoFilterNames ps)
    (redoFilterNames ps) (activeFilterValue ps) (hasUnsavedChanges ps)
    (undoEnabled ps) (redoEnabled ps).

(** ** Further pixel-level descriptions *)

(** The black-and-white value of a pixel: 255 above the threshold 127. *)
Definition bw_of (img : Image) (x y : Z) : Z :=
  if 127 <? gray_of img x y then 255 else 0.

(** An engine constructed with both widget pointers null, which the
    constructor allows. *)
Definition headless : ImageFilters := mkImageFilters None None.

(** Whether the engine was given a progress bar. *)
Definition has_bar (f : ImageFilters) : bool :=
  match progressBar f with Some _ => true | None => false end.

(** ** Rotation *)

(** A string given by its bytes. *)
Definition bytes (codes : list nat) : string :=
  string_of_list_ascii (map Ascii.ascii_of_nat codes).

(** The two angle literals of [ImageFilters::applyRotate] as the source
    file holds them: the digits followed by the three bytes EC A7 B8. *)
Definition literal_90 : string := "90" ++ bytes [236; 167; 184]%nat.
Definition literal_180 : string := "180" ++ bytes [236; 167; 184]%nat.

(** The strings of [PhotoSmith::applyRotate]: the digits followed by the
    degree sign, the two bytes C2 B0. *)
Definition degrees (digits : string) : string :=
  digits ++ bytes [194; 176]%nat.

(** The options of the main window's rotation dialog; the chosen one is
    the argument of [ImageFilters::applyRotate]. *)
Definition rotate_options : list string :=
  [degrees "90"; degrees "180"; degrees "270"].

(** [for (c < 3) dst.setPixel(X, Y, c, src(x, y, c))]. *)
Definition copy_to (src : Image) (x y X Y : Z) (dst : Image) : result Image :=
  for_range 0 3
    (fun c dst => v <- getPixel src x y c ;; setPixel dst X Y c v) dst.

(** [ImageFilters::applyRotate]. The comparison of [QString]s is the
    comparison of their UTF-8 bytes. Every angle other than the two
    literals takes the last branch. *)
Definition applyRotate (f : ImageFilters) (junk : nat -> Z)
    (currentImage : Image) (angle : string) : result (ImageFilters * Image) :=
  let f := showMessage "Applying Rotate filter..." f in
  let tempImage := currentImage in
  img <- (if String.eqb angle literal_90 then
            for_rect 0 (width tempImage) 0 (height tempImage)
              (fun x y img =>
                 copy_to tempImage x y (height tempImage - 1 - y) x img)
              (newImage junk (height tempImage) (width tempImage))
          else if String.eqb angle literal_180 then
            for_rect 0 (width currentImage) 0 (Z.quot (height currentImage) 2)
              (fun x y img =>
                 swap_pixels x y (width currentImage - 1 - x)
                             (height currentImage - 1 - y) img)
              currentImage
          else
            for_rect 0 (width tempImage) 0 (height tempImage)
              (fun x y img =>
                 copy_to tempImage x y y (width tempImage - 1 - x) img)
              (newImage junk (height tempImage) (width tempImage))) ;;
  Ok (showMessage "Rotate filter applied" f, img).

(** ** Loop nests *)

(** The index pairs of a loop nest: [a0 <= a < a1] outside,
    [b0 <= b < b1] inside. *)
Definition in_rect (a0 a1 b0 b1 : Z) (a b : Z) : bool :=
  (a0 <=? a) && (a <? a1) && (b0 <=? b) && (b <? b1).

(** The index pairs a nest has been through when it is about to run the
    body at [(a, b)]. *)
Definition visited (a0 b0 b1 : Z) (a b : Z) (a' b' : Z) : bool :=
  in_rect a0 a b0 b1 a' b' || ((a' =? a) && (b0 <=? b') && (b' <? b)).

(** A 2 x 1 buffer with two different pixels. *)
Definition strip : Image := mkImage 2 1 [10; 20; 30; 40; 50; 60].

(** The emboss value of a pixel: the average of the three clamped
    differences with the pixel below and to the right. *)
Definition emboss_of (img : Image) (x y : Z) : Z :=
  Z.quot (clamp (pix img x y 0 - pix img (x + 1) (y + 1) 0 + 128) 0 255
          + clamp (pix img x y 1 - pix img (x + 1) (y + 1) 1 + 128) 0 255
          + clamp (pix img x y 2 - pix img (x + 1) (y + 1) 2 + 128) 0 255) 3.

(** ** Frames *)

(** [im'] differs from [im] at most in the pixel [(x, y)]. *)
Definition writes_at (im im' : Image) (x y : Z) : Prop :=
  wf im' /\ width im' = width im /\ height im' = height im /\
  forall x' y' c', inside im x' y' c' -> x' <> x \/ y' <> y ->
    pix im' x' y' c' = pix im x' y' c'.

(** [im'] has the size of [im] and the same pixels wherever [keep] holds. *)
Definition keeps (im im' : Image) (keep : Z -> Z -> bool) : Prop :=
  wf im' /\ width im' = width im /\ height im' = height im /\
  forall x y c, inside im x y c -> keep x y = true ->
    pix im' x y c = pix im x y c.

(** The offset at which a frame of [applyFrame] other than the simple one
    holds the picture, and the number of pixels the frame adds to each
    dimension. *)
Definition solid_name (frameType : string) : bool :=
  String.eqb frameType "Solid Frame - Blue"
  || String.eqb frameType "Solid Frame - Red"
  || String.eqb frameType "Solid Frame - Green"
  || String.eqb frameType "Solid Frame - Black"
  || String.eqb frameType "Solid Frame - White".

Definition frame_margin (frameType : string) : Z :=
  if String.eqb frameType "Double Border - White" then 24
  else if solid_name frameType then 20
  else if String.eqb frameType "Shadow Frame" then 15
  else if String.eqb frameType "Gold Decorated Frame" then 45
  else 25.

Definition frame_grow (frameType : string) : Z :=
  if String.eqb frameType "Double Border - White" then 48
  else if solid_name frameType then 40
  else if String.eqb frameType "Shadow Frame" then 33
  else if String.eqb frameType "Gold Decorated Frame" then 90
  else 50.

(** The band of the picture that the simple frame paints white, in the
    picture's own coordinates. *)
Definition simple_band (img : Image) (x y : Z) : bool :=
  (5 <=? x) && (x <? width img - 5) && (5 <=? y) && (y <? height img - 5)
  && ((x <? 10) || (width img - 10 <=? x) || (y <? 10) || (height img - 10 <=? y)).

(** ** The immediate overloads *)

(** [ImageFilters::applyEmboss(image)]. *)
Definition applyEmbossImmediate (f : ImageFilters) (junk : nat -> Z)
    (currentImage : Image) : result (ImageFilters * Image) :=
  let f := showMessage "Applying Emboss..." f in
  let embossed := newImage junk (width currentImage) (height currentImage) in
  embossed <- for_rect 0 (width currentImage - 1) 0 (height currentImage - 1)
                (fun x y out => emboss_pixel currentImage y x out) embossed ;;
  Ok (showMessage "Emboss applied" f, embossed).

(** [ImageFilters::applyDoubleVision(image, offset)]. *)
Definition applyDoubleVisionImmediate (f : ImageFilters) (junk : nat -> Z)
    (currentImage : Image) (offset : Z) : result (ImageFilters * Image) :=
  let f := showMessage "Applying Double Vision..." f in
  let offset := Z.max 0 offset in
  let out := newImage junk (width currentImage) (height currentImage) in
  out <- for_rect 0 (width currentImage) 0 (height currentImage)
           (fun x y out => doubleVision_pixel offset currentImage y x out) out ;;
  Ok (showMessage "Double Vision applied" f, out).

(** [ImageFilters::applyEnhanceSunlight(image)]: columns outside, rows
    inside. *)
Definition applyEnhanceSunlightImmediate (f : ImageFilters) (junk : nat -> Z)
    (currentImage : Image) : result (ImageFilters * Image) :=
  let f := showMessage "Enhancing Sunlight..." f in
  let out := newImage junk (width currentImage) (height currentImage) in
  out <- for_range 0 (width currentImage)
           (fun x out =>
              for_range 0 (height currentImage)
                (fun y out => sunlight_pixel currentImage y x out) out)
           out ;;
  Ok (showMessage "Sunlight enhanced" f, out).

(** [ImageFilters::applyFishEye(image)]. *)
Definition applyFishEyeImmediate (f : ImageFilters)
    (powf : Ieee.frac -> Ieee.frac -> Ieee.frac) (junk : nat -> Z)
    (currentImage : Image) : result (ImageFilters * Image) :=
  let f := showMessage "Applying Fish-Eye..." f in
  let out := newImage junk (width currentImage) (height currentImage) in
  out <- for_rect 0 (width currentImage) 0 (height currentImage)
           (fun x y out => fishEye_pixel powf currentImage y x out) out ;;
  Ok (showMessage "Fish-Eye applied" f, out).

(** The immediate overload of a cancelable filter, for the five filters
    that have one. *)
Definition immediate_of (flt : CancelableFilter)
    : option (ImageFilters -> Image -> result (ImageFilters * Image)) :=
  match flt with
  | Emboss junk => Some (fun f img => applyEmbossImmediate f junk img)
  | DoubleVision junk offset =>
      Some (fun f img => applyDoubleVisionImmediate f junk img offset)
  | OilPainting junk radius intensity =>
      Some (fun f img => applyOilPainting f junk img radius intensity)
  | EnhanceSunlight junk =>
      Some (fun f img => applyEnhanceSunlightImmediate f junk img)
  | FishEye powf junk =>
      Some (fun f img => applyFishEyeImmediate f powf junk img)
  | _ => None
  end.

(** ** The main window's filter actions *)

Module Window.

(** The main window: the members of [PhotoSmith] that the history
    touches, and the members it hands to the filter engine by reference
    with the engine itself. The buffer [currentImage] is the one of
    [filters]; [psImage] is the same member as [saveStateForUndo], [undo]
    and [redo] see it. *)
Record MainWindow : Type := mkMainWindow {
  members : PhotoSmith;
  filters : State
}.

Definition with_image (ps : PhotoSmith) (img : Image) : PhotoSmith :=
  mkPhotoSmith img (hasImage ps) (history ps) (undoFilterNames ps)
    (redoFilterNames ps) (activeFilterValue ps) (hasUnsavedChanges ps)
    (undoEnabled ps) (redoEnabled ps).

(** [PhotoSmith::runCancelableFilter] around the call of a cancelable
    filter: [cancelRequested = false; preFilterImage = currentImage;
    saveStateForUndo(); filterCall();]. A fault in the call is the [Err]
    result. The rounds of events inside the call are those of
    [processEvents]: they deliver clicks on Cancel only, so no other
    action of the window starts during the run. *)
Definition runCancelableFilter (flt : CancelableFilter) (clicks : Clicks)
    (w : MainWindow) : result (Outcome * MainWindow) :=
  let st := filters w in
  let st := mkState (self st) (currentImage st) (currentImage st) false
                    (eventRound st) in
  let ps := saveStateForUndo (with_image (members w) (currentImage st)) in
  r <- apply_filter flt clicks st ;;
  Ok (fst r, mkMainWindow (with_image ps (currentImage (snd r))) (snd r)).

(** [PhotoSmith::undo]. *)
Definition undo (ps : PhotoSmith) : PhotoSmith :=
  if negb (hasImage ps) then ps
  else
    let r := History.undo (psImage ps) (history ps) in
    if negb (fst (fst r)) then ps
    else
      updateUndoRedoButtons
        (mkPhotoSmith (snd (fst r)) (hasImage ps) (snd r)
           (tail (undoFilterNames ps))
           (activeFilterValue ps :: redoFilterNames ps)
           (match undoFilterNames ps with
            | top :: _ => top
            | [] => activeFilterValue ps
            end)
           (hasUnsavedChanges ps) (undoEnabled ps) (redoEnabled ps)).

(** [PhotoSmith::redo]. *)
Definition redo (ps : PhotoSmith) : PhotoSmith :=
  if negb (hasImage ps) then ps
  else
    let r := History.redo (psImage ps) (history ps) in
    if negb (fst (fst r)) then ps
    else
      updateUndoRedoButtons
        (mkPhotoSmith (snd (fst r)) (hasImage ps) (snd r)
           (activeFilterValue ps :: undoFilterNames ps)
           (tail (redoFilterNames ps))
           (match redoFilterNames ps with
            | top :: _ => top
            | [] => activeFilterValue ps
            end)
           (hasUnsavedChanges ps) (undoEnabled ps) (redoEnabled ps)).

End Window.

(** The samples at which [int(v * 1.4)] in [double] is one less than the
    integer quotient [14 v / 10]. *)
Definition short_by_one (v : Z) : bool :=
  existsb (Z.eqb v) [45; 85; 90; 165; 170; 175; 180].

(** The boosted value of a red or green sample in the sunlight filter. *)
Definition sunlight_boost (v : Z) : Z :=
  Z.min 255 (14 * v / 10 - (if short_by_one v then 1 else 0)).

(** A 4 x 1 buffer of four gray levels, on which the mean of a window
    depends on the radius. *)
Definition row4 : Image :=
  mkImage 4 1 [0; 0; 0;  90; 90; 90;  180; 180; 180;  240; 240; 240].

(* ===================================================================== *)
(** * Proofs *)
(* ===================================================================== *)

(** ** The error monad and the loops *)

Lemma bind_Ok {A B : Type} (r : result A) (k : A -> result B) (b : B) :
  bind r k = Ok b -> exists a, r = Ok a /\ k a = Ok b.
Proof. destruct r as [a|f]; simpl; intros H; [eauto | discriminate]. Qed.

Lemma for_loop_inv {S : Type} (Inv : Z -> S -> Prop)
    (body : Z -> S -> result S) (n : nat) :
  forall (i : Z) (s : S),
    Inv i s ->
    (forall j t, i <= j < i + Z.of_nat n -> Inv j t ->
                 exists t', body j t = Ok t' /\ Inv (j + 1) t') ->
    exists s', for_loop n i body s = Ok s' /\ Inv (i + Z.of_nat n) s'.
Proof.
  induction n as [|n IH]; intros i s Hi Hstep.
  - exists s. simpl. rewrite Z.add_0_r. auto.
  - destruct (Hstep i s ltac:(lia) Hi) as (t & Hb & Ht).
    destruct (IH (i + 1) t Ht) as (s' & Hl & Hs').
    + intros j u Hj Hu. apply Hstep; [lia | exact Hu].
    + exists s'. simpl. rewrite Hb. simpl. split; [exact Hl|].
      replace (i + Z.of_nat (Datatypes.S n)) with (i + 1 + Z.of_nat n) by lia.
      exact Hs'.
Qed.

Lemma for_range_inv {S : Type} (Inv : Z -> S -> Prop)
    (body : Z -> S -> result S) (lo hi : Z) (s : S) :
  lo <= hi ->
  Inv lo s ->
  (forall j t, lo <= j < hi -> Inv j t ->
               exists t', body j t = Ok t' /\ Inv (j + 1) t') ->
  exists s', for_range lo hi body s = Ok s' /\ Inv hi s'.
Proof.
  intros Hle Hi Hstep. unfold for_range.
  destruct (for_loop_inv Inv body (Z.to_nat (hi - lo)) lo s Hi) as (s' & H1 & H2).
  - intros j t Hj. apply Hstep. lia.
  - exists s'. split; [exact H1|].
    replace (lo + Z.of_nat (Z.to_nat (hi - lo))) with hi in H2 by lia.
    exact H2.
Qed.

Lemma for_range_empty {S : Type} (body : Z -> S -> result S) (lo hi : Z) (s : S) :
  hi <= lo -> for_range lo hi body s = Ok s.
Proof.
  intros H. unfold for_range. replace (Z.to_nat (hi - lo)) with O by lia.
  reflexivity.
Qed.

(** ** Pixel buffers *)

Ltac zbool :=
  repeat match goal with
    | |- context [?a <=? ?b] => destruct (Z.leb_spec a b)
    | |- context [?a <? ?b] => destruct (Z.ltb_spec a b)
    | |- context [?a =? ?b] => destruct (Z.eqb_spec a b)
    | H : context [?a <=? ?b] |- _ => destruct (Z.leb_spec a b)
    | H : context [?a <? ?b] |- _ => destruct (Z.ltb_spec a b)
    | H : context [?a =? ?b] |- _ => destruct (Z.eqb_spec a b)
    end; simpl in *.

Lemma inRange_inside img x y c : inRange img x y c = true <-> inside img x y c.
Proof.
  unfold inRange, inside, channels. split.
  - intros H. zbool; try discriminate; lia.
  - intros H. zbool; try lia; reflexivity.
Qed.

Lemma offset_bound img x y c :
  wf img -> inside img x y c ->
  (offset img x y c < length (imageData img))%nat.
Proof.
  intros (Hw & Hh & _ & Hlen & _) (Hx & Hy & Hc). rewrite Hlen.
  unfold offset, channels in *. apply Z2Nat.inj_lt; nia.
Qed.

Lemma offset_inj (a b : Image) x y c x' y' c' :
  width a = width b ->
  inside a x y c -> inside b x' y' c' ->
  offset a x y c = offset b x' y' c' -> x = x' /\ y = y' /\ c = c'.
Proof.
  intros Hw (Hx & Hy & Hc) (Hx' & Hy' & Hc') Ho.
  unfold offset, channels in *. rewrite <- Hw in *.
  apply Z2Nat.inj in Ho; [| nia | nia].
  assert (c = c') by lia. subst c'.
  assert (y * width a + x = y' * width a + x') as E by lia.
  assert (y = y') by nia. subst y'. lia.
Qed.

Lemma getPixel_pix img x y c :
  wf img -> inside img x y c ->
  getPixel img x y c = Ok (pix img x y c) /\ 0 <= pix img x y c < 256.
Proof.
  intros Hwf Hin. pose proof (offset_bound _ _ _ _ Hwf Hin) as Hb.
  unfold getPixel, pix. rewrite (proj2 (inRange_inside _ _ _ _) Hin).
  destruct (imageData img !! offset img x y c) as [v|] eqn:E.
  - simpl. split; [reflexivity|].
    destruct Hwf as (_ & _ & _ & _ & Hall).
    exact (Forall_lookup_1 _ _ _ _ Hall E).
  - apply lookup_ge_None in E. lia.
Qed.

Lemma getPixel_Ok_inside img x y c v :
  getPixel img x y c = Ok v -> inside img x y c /\ pix img x y c = v.
Proof.
  unfold getPixel, pix. destruct (inRange img x y c) eqn:E; [|discriminate].
  apply inRange_inside in E.
  destruct (imageData img !! offset img x y c); [|discriminate].
  intros [= ->]. auto.
Qed.

Lemma setPixel_updated img x y c v :
  wf img -> inside img x y c ->
  exists img', setPixel img x y c v = Ok img' /\
               updated img img' x y (fun k => k =? c) (fun _ => v mod 256).
Proof.
  intros Hwf Hin. pose proof (offset_bound _ _ _ _ Hwf Hin) as Hb.
  unfold setPixel. rewrite (proj2 (inRange_inside _ _ _ _) Hin).
  destruct (Nat.ltb_spec (offset img x y c) (length (imageData img))); [|lia].
  eexists. split; [reflexivity|].
  destruct Hwf as (Hw & Hh & Hsz & Hlen & Hall).
  unfold updated, wf. simpl. rewrite length_insert.
  repeat split; try assumption.
  - apply Forall_insert; [exact Hall|].
    unfold to_uchar. apply Z.mod_pos_bound. lia.
  - intros x' y' c' Hin'. unfold pix, offset at 1. simpl.
    fold (offset img x' y' c').
    destruct ((x' =? x) && (y' =? y) && (c' =? c)) eqn:E.
    + zbool; try discriminate. subst.
      rewrite list_lookup_insert_eq by lia. reflexivity.
    + rewrite list_lookup_insert_ne; [reflexivity|].
      intros Ho. apply (offset_inj img img) in Ho; auto.
      destruct Ho as (-> & -> & ->). rewrite !Z.eqb_refl in E. discriminate.
Qed.
Lemma updated_trans img1 img2 img3 x y s1 s2 f1 f2 :
  updated img1 img2 x y s1 f1 -> updated img2 img3 x y s2 f2 ->
  updated img1 img3 x y (fun c => s1 c || s2 c)
          (fun c => if s2 c then f2 c else f1 c).
Proof.
  intros (Hwf2 & Hw2 & Hh2 & Hp2) (Hwf3 & Hw3 & Hh3 & Hp3).
  unfold updated. split; [exact Hwf3|]. split; [congruence|].
  split; [congruence|].
  intros x' y' c' Hin. rewrite Hp3 by (unfold inside in *; rewrite Hw2, Hh2; exact Hin).
  rewrite Hp2 by exact Hin.
  destruct ((x' =? x) && (y' =? y)); simpl; [|reflexivity].
  destruct (s1 c'), (s2 c'); reflexivity.
Qed.

Lemma updated_ext img img' x y s f s' f' :
  updated img img' x y s f ->
  (forall c, 0 <= c < channels -> s c = s' c) ->
  (forall c, 0 <= c < channels -> s c = true -> f c = f' c) ->
  updated img img' x y s' f'.
Proof.
  intros (Hwf & Hw & Hh & Hp) Hs Hf. unfold updated.
  split; [exact Hwf|]. split; [exact Hw|]. split; [exact Hh|].
  intros x' y' c' Hin. rewrite (Hp _ _ _ Hin).
  destruct Hin as (_ & _ & Hc). rewrite <- (Hs c' Hc).
  destruct ((x' =? x) && (y' =? y) && s c') eqn:E; [|reflexivity].
  apply Hf; [exact Hc|]. destruct (s c'); [reflexivity|].
  rewrite andb_false_r in E. discriminate.
Qed.

Lemma updated_inside img img' x y s f x' y' c' :
  updated img img' x y s f -> inside img x' y' c' -> inside img' x' y' c'.
Proof. intros (_ & Hw & Hh & _). unfold inside. rewrite Hw, Hh. auto. Qed.

Lemma set3_updated img x y r g b :
  wf img -> 0 <= x < width img -> 0 <= y < height img ->
  exists img', set3 img x y r g b = Ok img' /\
    updated img img' x y (fun _ => true) (rgb (r mod 256) (g mod 256) (b mod 256)).
Proof.
  intros Hwf Hx Hy. unfold set3.
  destruct (setPixel_updated img x y 0 r Hwf) as (i1 & E1 & U1).
  { unfold inside, channels; lia. }
  rewrite E1. simpl.
  destruct (setPixel_updated i1 x y 1 g) as (i2 & E2 & U2).
  { apply U1. }
  { eapply updated_inside; [exact U1|]. unfold inside, channels; lia. }
  rewrite E2. simpl.
  destruct (setPixel_updated i2 x y 2 b) as (i3 & E3 & U3).
  { apply U2. }
  { eapply updated_inside; [exact U2|]. eapply updated_inside; [exact U1|].
    unfold inside, channels; lia. }
  exists i3. split; [exact E3|].
  pose proof (updated_trans _ _ _ _ _ _ _ _ _ (updated_trans _ _ _ _ _ _ _ _ _ U1 U2) U3) as U.
  eapply updated_ext; [exact U| |].
  - intros c Hc. unfold channels in Hc.
    assert (c = 0 \/ c = 1 \/ c = 2) as [-> | [-> | ->]] by lia; reflexivity.
  - intros c Hc _. unfold channels in Hc.
    assert (c = 0 \/ c = 1 \/ c = 2) as [-> | [-> | ->]] by lia; reflexivity.
Qed.

Lemma painted_ext img0 img P P' F :
  painted img0 img P F ->
  (forall x y, 0 <= x < width img0 -> 0 <= y < height img0 -> P x y = P' x y) ->
  painted img0 img P' F.
Proof.
  intros (Hwf & Hw & Hh & Hp) HP. unfold painted.
  split; [exact Hwf|]. split; [exact Hw|]. split; [exact Hh|].
  intros x y c Hin. rewrite (Hp _ _ _ Hin).
  destruct Hin as (Hx & Hy & _). rewrite (HP x y Hx Hy). reflexivity.
Qed.

Lemma painted_refl img P F :
  wf img -> (forall x y, 0 <= x < width img -> 0 <= y < height img -> P x y = false) ->
  painted img img P F.
Proof.
  intros Hwf HP. unfold painted. split; [exact Hwf|]. split; [reflexivity|].
  split; [reflexivity|]. intros x y c (Hx & Hy & _). rewrite (HP x y Hx Hy).
  reflexivity.
Qed.

(** One row of a pixel loop: columns [x0 <= x < x1] of row [y]. *)
Lemma row_painted (step : Z -> Image -> result Image) img0 F x0 x1 y0 y img :
  0 <= x0 -> x1 <= width img0 -> y0 <= y -> 0 <= y < height img0 ->
  (forall x im, x0 <= x < x1 -> wf im ->
     width im = width img0 -> height im = height img0 ->
     (forall c, 0 <= c < channels -> pix im x y c = pix img0 x y c) ->
     exists im', step x im = Ok im' /\
                 updated im im' x y (fun _ => true) (F x y)) ->
  painted img0 img (rows_before x0 x1 y0 y) F ->
  exists img', for_range x0 x1 step img = Ok img' /\
               painted img0 img' (rows_before x0 x1 y0 (y + 1)) F.
Proof.
  intros Hx0 Hx1 Hy0 Hy Hstep Hp.
  destruct (Z_le_gt_dec x0 x1) as [Hle|Hgt].
  - destruct (for_range_inv
      (fun x im => painted img0 im
         (fun x' y' => rows_before x0 x1 y0 y x' y'
                       || ((y' =? y) && (x0 <=? x') && (x' <? x))) F)
      step x0 x1 img Hle) as (img' & E & Hp').
    + eapply painted_ext; [exact Hp|]. intros x' y' _ _.
      unfold rows_before. zbool; try lia; reflexivity.
    + intros x im Hx (Hwf & Hw & Hh & Hpix).
      destruct (Hstep x im Hx Hwf Hw Hh) as (im' & E & Hwf' & Hw' & Hh' & Hpix').
      { intros c Hc. rewrite Hpix by (unfold inside; lia).
        unfold rows_before. zbool; try lia; reflexivity. }
      exists im'. split; [exact E|]. unfold painted.
      split; [exact Hwf'|]. split; [congruence|]. split; [congruence|].
      intros x' y' c' Hin.
      rewrite Hpix' by (unfold inside in *; rewrite Hw, Hh; exact Hin).
      rewrite (Hpix _ _ _ Hin). unfold rows_before.
      zbool; subst; try lia; reflexivity.
    + exists img'. split; [exact E|]. eapply painted_ext; [exact Hp'|].
      intros x' y' _ _. unfold rows_before. zbool; try lia; reflexivity.
  - exists img. split; [apply for_range_empty; lia|].
    eapply painted_ext; [exact Hp|]. intros x' y' _ _.
    unfold rows_before. zbool; try lia; reflexivity.
Qed.

(** A whole pixel loop nest, rows outside and columns inside. *)
Lemma rect_painted (step : Z -> Z -> Image -> result Image) img0 F x0 x1 y0 y1 :
  wf img0 ->
  0 <= x0 -> x1 <= width img0 -> 0 <= y0 -> y1 <= height img0 ->
  (forall x y im, x0 <= x < x1 -> y0 <= y < y1 -> wf im ->
     width im = width img0 -> height im = height img0 ->
     (forall c, 0 <= c < channels -> pix im x y c = pix img0 x y c) ->
     exists im', step y x im = Ok im' /\
                 updated im im' x y (fun _ => true) (F x y)) ->
  exists img', for_range y0 y1 (fun y im => for_range x0 x1 (step y) im) img0
                 = Ok img' /\
               painted img0 img' (rows_before x0 x1 y0 y1) F.
Proof.
  intros Hwf Hx0 Hx1 Hy0 Hy1 Hstep.
  destruct (Z_le_gt_dec y0 y1) as [Hle|Hgt].
  - apply (for_range_inv
      (fun y im => painted img0 im (rows_before x0 x1 y0 y) F)); [exact Hle| |].
    + apply painted_refl; [exact Hwf|]. intros x y _ _.
      unfold rows_before. zbool; try lia; reflexivity.
    + intros y im Hy Hp. apply (row_painted (step y) img0 F x0 x1 y0 y im);
        try lia; [|exact Hp].
      intros x im' Hx. apply Hstep; lia.
  - exists img0. split; [apply for_range_empty; lia|].
    apply painted_refl; [exact Hwf|]. intros x y _ _.
    unfold rows_before. zbool; try lia; reflexivity.
Qed.

(** ** The cancellation protocol *)

Lemma showMessage_progressBar msg f :
  progressBar (showMessage msg f) = progressBar f.
Proof. unfold showMessage. destruct (statusBar f); reflexivity. Qed.

Lemma updateProgress_images clicks v t i st :
  currentImage (updateProgress clicks v t i st) = currentImage st /\
  preFilterImage (updateProgress clicks v t i st) = preFilterImage st.
Proof.
  unfold updateProgress, processEvents, cancelFilter, set_self.
  destruct (progressBar (self st)); simpl; [|auto].
  destruct (Z.rem v i =? 0); simpl; [|auto].
  destruct (clicks (eventRound st)); simpl; auto.
Qed.

Lemma prologue_images clicks t msg st :
  currentImage (prologue clicks t msg st) = currentImage st /\
  preFilterImage (prologue clicks t msg st) = preFilterImage st.
Proof.
  unfold prologue, processEvents, cancelFilter, set_self. simpl.
  destruct (clicks (eventRound st)); simpl; auto.
Qed.

Lemma checkCancellation_restores name st :
  cancelRequested st = true ->
  currentImage (checkCancellation name st) = preFilterImage st.
Proof. intros H. unfold checkCancellation. rewrite H. reflexivity. Qed.

(** The row loop returns: either every row ran, or it left through the
    cancellation branch at the head of some row. *)
Lemma cancelable_loop_inv {L : Type} (Inv : Z -> State -> L -> Prop)
    clicks name total interval (row : Z -> State -> L -> result (State * L))
    (n : nat) :
  forall y st l,
    Inv y st l ->
    (forall j s k, y <= j < y + Z.of_nat n -> Inv j s k ->
       cancelRequested s = false ->
       exists s' k', row j s k = Ok (s', k') /\
                     Inv (j + 1) (updateProgress clicks (j + 1) total interval s') k') ->
    exists o st' l',
      cancelable_loop clicks name total interval row n y st l = Ok (o, st', l') /\
      (o = Completed -> Inv (y + Z.of_nat n) st' l').
Proof.
  induction n as [|n IH]; intros y st l Hi Hstep.
  - exists Completed, st, l. simpl. rewrite Z.add_0_r. auto.
  - simpl. destruct (cancelRequested st) eqn:Hc.
    + eexists Cancelled, _, _. split; [reflexivity | discriminate].
    + destruct (Hstep y st l ltac:(lia) Hi Hc) as (s' & k' & Hr & Hi').
      rewrite Hr. simpl.
      destruct (IH (y + 1) (updateProgress clicks (y + 1) total interval s') k' Hi')
        as (o & st' & l' & E & Ho).
      { intros j s k Hj. apply Hstep. lia. }
      exists o, st', l'. split; [exact E|]. intros ->.
      replace (y + Z.of_nat (Datatypes.S n)) with (y + 1 + Z.of_nat n) by lia.
      auto.
Qed.

(** ** Grayscale *)

Lemma grayscale_pixel_updated img0 im x y :
  wf im -> width im = width img0 -> height im = height img0 ->
  0 <= x < width img0 -> 0 <= y < height img0 ->
  (forall c, 0 <= c < channels -> pix im x y c = pix img0 x y c) ->
  exists im', grayscale_pixel y x im = Ok im' /\
    updated im im' x y (fun _ => true)
      (fun _ => gray_of img0 x y).
Proof.
  intros Hwf Hw Hh Hx Hy Hsame. unfold grayscale_pixel.
  assert (forall c, 0 <= c < channels -> inside im x y c) as Hin.
  { intros c Hc. unfold inside. rewrite Hw, Hh. auto. }
  destruct (getPixel_pix im x y 0 Hwf) as (-> & B0); [apply Hin; unfold channels; lia|].
  destruct (getPixel_pix im x y 1 Hwf) as (-> & B1); [apply Hin; unfold channels; lia|].
  destruct (getPixel_pix im x y 2 Hwf) as (-> & B2); [apply Hin; unfold channels; lia|].
  simpl.
  rewrite !Hsame in * by (unfold channels; lia).
  fold (gray_of img0 x y).
  destruct (set3_updated im x y (gray_of img0 x y) (gray_of img0 x y) (gray_of img0 x y) Hwf)
    as (im' & E & U); [lia | lia |].
  exists im'. split; [exact E|].
  eapply updated_ext; [exact U | reflexivity |].
  intros c _ _. unfold rgb.
  assert (0 <= gray_of img0 x y < 256) as Hg.
  { unfold gray_of. rewrite Z.quot_div_nonneg by lia.
    split; [apply Z.div_pos; lia | apply Z.div_lt_upper_bound; lia]. }
  rewrite Z.mod_small by exact Hg. destruct (c =? 0), (c =? 1); reflexivity.
Qed.

(** The row loop of a filter that rewrites [currentImage] pixel by pixel. *)
Lemma in_place_rows clicks name total interval
    (pixel : Z -> Z -> Image -> result Image) F img0 st :
  wf img0 -> currentImage st = img0 ->
  (forall x y im, 0 <= x < width img0 -> 0 <= y < height img0 -> wf im ->
     width im = width img0 -> height im = height img0 ->
     (forall c, 0 <= c < channels -> pix im x y c = pix img0 x y c) ->
     exists im', pixel y x im = Ok im' /\
                 updated im im' x y (fun _ => true) (F x y)) ->
  exists o st',
    cancelable_loop clicks name total interval
      (in_place (fun y img => for_range 0 (width img) (pixel y) img))
      (Z.to_nat (height img0)) 0 st tt = Ok (o, st', tt) /\
    (o = Completed -> painted img0 (currentImage st') (fun _ _ => true) F).
Proof.
  intros Hwf Hcur Hpix.
  destruct (cancelable_loop_inv
    (fun y s (_ : unit) =>
       painted img0 (currentImage s) (rows_before 0 (width img0) 0 y) F)
    clicks name total interval
    (in_place (fun y img => for_range 0 (width img) (pixel y) img))
    (Z.to_nat (height img0)) 0 st tt) as (o & st' & [] & E & Ho).
  - rewrite Hcur. apply painted_refl; [exact Hwf|]. intros x y _ _.
    unfold rows_before. zbool; try lia; reflexivity.
  - intros y s [] Hy Hp _. unfold in_place.
    destruct Hwf as (Hw0 & Hh0 & Hrest).
    destruct (row_painted (pixel y) img0 F 0 (width img0) 0 y (currentImage s))
      as (img' & E & Hp'); try lia; [|exact Hp|].
    { intros x im Hx. apply Hpix; lia. }
    destruct Hp as (_ & -> & _). rewrite E. simpl.
    eexists _, tt. split; [reflexivity|].
    rewrite (proj1 (updateProgress_images _ _ _ _ _)). simpl. exact Hp'.
  - exists o, st'. split; [exact E|]. intros Hc. specialize (Ho Hc).
    eapply painted_ext; [exact Ho|]. intros x y Hx Hy.
    destruct Hwf as (Hw0 & Hh0 & _).
    unfold rows_before. zbool; try lia; reflexivity.
Qed.


Example grayscale_solid_4x4 :
  applyGrayscale quiet (fresh_state (solid 4 4 100 150 200)) =
  Ok (Completed,
      mkState (mkImageFilters (Some (mkProgressBar false 0 4 4))
                              (Some "Grayscale filter applied"%string))
              (solid 4 4 150 150 150) (solid 4 4 100 150 200) false 1).
Proof. vm_compute. reflexivity. Qed.


(** Two well-formed buffers of the same size with the same samples are the
    same buffer. *)
Lemma image_ext (a b : Image) :
  wf a -> wf b -> width a = width b -> height a = height b ->
  (forall x y c, inside a x y c -> pix a x y c = pix b x y c) ->
  a = b.
Proof.
  intros (Hwa & Hha & _ & Hla & _) (Hwb & Hhb & _ & Hlb & _) Hw Hh Hp.
  destruct a as [wa ha da], b as [wb hb db]. simpl in *. subst wb hb.
  f_equal. apply list_eq. intros i.
  destruct (Nat.lt_ge_cases i (length da)) as [Hlt|Hge].
  - set (z := Z.of_nat i).
    assert (0 <= z < wa * ha * 3) as Hz by (unfold channels in *; lia).
    assert (0 < wa) as Hwpos by nia.
    specialize (Hp ((z / 3) mod wa) ((z / 3) / wa) (z mod 3)).
    unfold pix, offset, inside, channels in Hp. simpl in Hp.
    assert (0 <= z / 3 < wa * ha) as Hq.
    { split; [apply Z.div_pos; lia | apply Z.div_lt_upper_bound; lia]. }
    replace (Z.to_nat ((z / 3 / wa * wa + (z / 3) mod wa) * 3 + z mod 3)) with i in Hp.
    2:{ pose proof (Z.div_mod (z / 3) wa ltac:(lia)).
        pose proof (Z.div_mod z 3 ltac:(lia)). unfold z in *. lia. }
    destruct (lookup_lt_is_Some_2 da i Hlt) as (u & Hu).
    destruct (lookup_lt_is_Some_2 db i ltac:(lia)) as (v & Hv).
    rewrite Hu, Hv in *. simpl in Hp. f_equal. apply Hp.
    split; [apply Z.mod_pos_bound; lia|].
    split; [|apply Z.mod_pos_bound; lia].
    split; [apply Z.div_pos; lia | apply Z.div_lt_upper_bound; lia].
  - rewrite !(proj2 (lookup_ge_None _ _)) by lia. reflexivity.
Qed.

(** ** Invert *)

Lemma invert_pixel_updated img0 im x y :
  wf im -> width im = width img0 -> height im = height img0 ->
  0 <= x < width img0 -> 0 <= y < height img0 ->
  (forall c, 0 <= c < channels -> pix im x y c = pix img0 x y c) ->
  exists im', invert_pixel y x im = Ok im' /\
    updated im im' x y (fun _ => true) (fun c => 255 - pix img0 x y c).
Proof.
  intros Hwf Hw Hh Hx Hy Hsame. unfold invert_pixel.
  assert (forall c, 0 <= c < channels -> inside im x y c) as Hin.
  { intros c Hc. unfold inside. rewrite Hw, Hh. auto. }
  assert (0 <= 0 < channels /\ 0 <= 1 < channels /\ 0 <= 2 < channels)
    as (C0 & C1 & C2) by (unfold channels; lia).
  destruct (getPixel_pix im x y 0 Hwf (Hin 0 C0)) as (-> & B0). simpl.
  destruct (setPixel_updated im x y 0 (255 - pix im x y 0) Hwf (Hin 0 C0))
    as (i1 & -> & U1). simpl.
  pose proof (updated_inside _ _ _ _ _ _ _ _ _ U1 (Hin 1 C1)) as In1.
  destruct (getPixel_pix i1 x y 1 (proj1 U1) In1) as (-> & B1). simpl.
  destruct (setPixel_updated i1 x y 1 (255 - pix i1 x y 1) (proj1 U1) In1)
    as (i2 & -> & U2). simpl.
  pose proof (updated_inside _ _ _ _ _ _ _ _ _ U2
                (updated_inside _ _ _ _ _ _ _ _ _ U1 (Hin 2 C2))) as In2.
  destruct (getPixel_pix i2 x y 2 (proj1 U2) In2) as (-> & B2). simpl.
  destruct (setPixel_updated i2 x y 2 (255 - pix i2 x y 2) (proj1 U2) In2)
    as (i3 & -> & U3).
  exists i3. split; [reflexivity|].
  pose proof (updated_trans _ _ _ _ _ _ _ _ _
                (updated_trans _ _ _ _ _ _ _ _ _ U1 U2) U3) as U.
  assert (pix i1 x y 1 = pix im x y 1) as E1.
  { destruct U1 as (_ & _ & _ & P1). rewrite (P1 x y 1 (Hin 1 C1)).
    rewrite !Z.eqb_refl. reflexivity. }
  assert (pix i2 x y 2 = pix im x y 2) as E2.
  { pose proof (updated_inside _ _ _ _ _ _ _ _ _ U1 (Hin 2 C2)) as In12.
    destruct U2 as (_ & _ & _ & P2), U1 as (_ & _ & _ & P1).
    rewrite (P2 x y 2 In12).
    rewrite (P1 x y 2 (Hin 2 C2)). rewrite !Z.eqb_refl. reflexivity. }
  rewrite E1 in *. rewrite E2 in *.
  eapply updated_ext; [exact U| |].
  - intros c Hc. unfold channels in Hc.
    assert (c = 0 \/ c = 1 \/ c = 2) as [-> | [-> | ->]] by lia; reflexivity.
  - intros c Hc _. unfold channels in Hc.
    assert (c = 0 \/ c = 1 \/ c = 2) as [-> | [-> | ->]] by lia; simpl;
      rewrite <- Hsame by (unfold channels; lia); apply Z.mod_small; lia.
Qed.

Lemma applyInvert_painted clicks st :
  wf (currentImage st) ->
  exists o st',
    applyInvert clicks st = Ok (o, st') /\
    (o = Completed ->
     painted (currentImage st) (currentImage st') (fun _ _ => true)
             (fun x y c => 255 - pix (currentImage st) x y c)).
Proof.
  intros Hwf. unfold applyInvert, invert_filter.
  cbv beta iota zeta delta [run_cancelable run_rows conclude filterName startMessage progressTotal
    rowBound updateInterval locals rowBody finish].
  set (msg := "Applying Invert filter... (Click Cancel to stop)"%string).
  set (p := prologue clicks (height (currentImage st)) msg st).
  assert (currentImage p = currentImage st) as Hp by apply prologue_images.
  rewrite Hp.
  destruct (in_place_rows clicks "Invert" (height (currentImage st)) 50
              invert_pixel (fun x y c => 255 - pix (currentImage st) x y c)
              (currentImage st) p Hwf Hp) as (o & st' & E & Ho).
  { intros x y im Hx Hy Hwfi Hw Hh Hs.
    apply (invert_pixel_updated (currentImage st)); assumption. }
  rewrite E. simpl. destruct o.
  - eexists Completed, _. split; [reflexivity|]. intros _. exact (Ho eq_refl).
  - eexists Cancelled, _. split; [reflexivity | discriminate].
Qed.

(** C3. On a well-formed buffer [applyInvert] returns, and two runs that
    both reach their end put back the buffer the first one started from. *)
Theorem applyInvert_twice clicks1 clicks2 st :
  wf (currentImage st) ->
  (exists o st1, applyInvert clicks1 st = Ok (o, st1)) /\
  forall st1 st1' st2,
    applyInvert clicks1 st = Ok (Completed, st1) ->
    currentImage st1' = currentImage st1 ->
    applyInvert clicks2 st1' = Ok (Completed, st2) ->
    currentImage st2 = currentImage st.
Proof.
  intros Hwf. split.
  - destruct (applyInvert_painted clicks1 st Hwf) as (o & st1 & E & _). eauto.
  - intros st1 st1' st2 E1 Hcur E2.
    destruct (applyInvert_painted clicks1 st Hwf) as (o & s1 & E & P1).
    rewrite E1 in E. injection E as <- <-.
    destruct (P1 eq_refl) as (Hwf1 & Hw1 & Hh1 & Hp1).
    rewrite <- Hcur in *.
    destruct (applyInvert_painted clicks2 st1' Hwf1) as (o & s2 & E & P2).
    rewrite E2 in E. injection E as <- <-.
    destruct (P2 eq_refl) as (Hwf2 & Hw2 & Hh2 & Hp2).
    apply image_ext; [exact Hwf2 | exact Hwf | congruence | congruence |].
    intros x y c Hin.
    assert (inside (currentImage st) x y c) as Hin0.
    { unfold inside in *. rewrite Hw2, Hw1, Hh2, Hh1 in Hin. exact Hin. }
    assert (inside (currentImage st1') x y c) as Hin1.
    { unfold inside in *. rewrite Hw1, Hh1. exact Hin0. }
    rewrite (Hp2 _ _ _ Hin1). rewrite (Hp1 _ _ _ Hin0). lia.
Qed.

Example invert_quad :
  applyInvert quiet (fresh_state quad) =
  Ok (Completed,
      mkState (mkImageFilters (Some (mkProgressBar false 0 2 2))
                              (Some "Invert filter applied"%string))
              (mkImage 2 2 [245; 235; 225;  215; 205; 195;
                            185; 175; 165;  55; 45; 0])
              quad false 1).
Proof. vm_compute. reflexivity. Qed.

Lemma applyInvert_twice_witness :
  (exists o st1, applyInvert quiet (fresh_state quad) = Ok (o, st1)) /\
  forall st1 st1' st2,
    applyInvert quiet (fresh_state quad) = Ok (Completed, st1) ->
    currentImage st1' = currentImage st1 ->
    applyInvert quiet st1' = Ok (Completed, st2) ->
    currentImage st2 = quad.
Proof.
  apply (applyInvert_twice quiet quiet (fresh_state quad)).
  unfold wf. simpl. repeat split; try lia; try reflexivity.
  repeat constructor; lia.
Defined.

(** ** Merge *)

Lemma merge_pixel_updated cur mrg im x y :
  wf im -> wf mrg -> width im = width cur -> height im = height cur ->
  0 <= x < Z.min (width cur) (width mrg) ->
  0 <= y < Z.min (height cur) (height mrg) ->
  (forall c, 0 <= c < channels -> pix im x y c = pix cur x y c) ->
  exists im', merge_pixel mrg y x im = Ok im' /\
    updated im im' x y (fun _ => true)
      (fun c => (pix cur x y c + pix mrg x y c) / 2).
Proof.
  intros Hwf Hwfm Hw Hh Hx Hy Hsame. unfold merge_pixel.
  assert (forall c, 0 <= c < channels -> inside im x y c) as Hin.
  { intros c Hc. unfold inside. rewrite Hw, Hh. lia. }
  assert (forall c, 0 <= c < channels -> inside mrg x y c) as Hinm.
  { intros c Hc. unfold inside. lia. }
  assert (0 <= 0 < channels /\ 0 <= 1 < channels /\ 0 <= 2 < channels)
    as (C0 & C1 & C2) by (unfold channels; lia).
  destruct (getPixel_pix im x y 0 Hwf (Hin 0 C0)) as (-> & A0).
  destruct (getPixel_pix im x y 1 Hwf (Hin 1 C1)) as (-> & A1).
  destruct (getPixel_pix im x y 2 Hwf (Hin 2 C2)) as (-> & A2).
  destruct (getPixel_pix mrg x y 0 Hwfm (Hinm 0 C0)) as (-> & B0).
  destruct (getPixel_pix mrg x y 1 Hwfm (Hinm 1 C1)) as (-> & B1).
  destruct (getPixel_pix mrg x y 2 Hwfm (Hinm 2 C2)) as (-> & B2).
  simpl. rewrite !Hsame in * by assumption.
  destruct (set3_updated im x y (Z.quot (pix cur x y 0 + pix mrg x y 0) 2)
              (Z.quot (pix cur x y 1 + pix mrg x y 1) 2)
              (Z.quot (pix cur x y 2 + pix mrg x y 2) 2) Hwf)
    as (im' & E & U); [lia | lia |].
  exists im'. split; [exact E|].
  eapply updated_ext; [exact U | reflexivity |].
  intros c Hc _. unfold channels in Hc. rewrite !Z.quot_div_nonneg by lia.
  assert (c = 0 \/ c = 1 \/ c = 2) as [-> | [-> | ->]] by lia; simpl;
    apply Z.mod_small;
    (split; [apply Z.div_pos; lia | apply Z.div_lt_upper_bound; lia]).
Qed.

(** C10. [applyMerge] keeps the first buffer's width and height; inside the
    overlap of the two buffers every sample becomes the average of the two
    buffers' samples, and every other sample of the first buffer stays. *)
Theorem applyMerge_frame f cur mrg :
  wf cur -> wf mrg ->
  exists f' img',
    applyMerge f cur mrg = Ok (f', img') /\
    width img' = width cur /\ height img' = height cur /\
    forall x y c, inside cur x y c ->
      getPixel img' x y c =
        Ok (if (x <? Z.min (width cur) (width mrg))
               && (y <? Z.min (height cur) (height mrg))
            then (pix cur x y c + pix mrg x y c) / 2
            else pix cur x y c).
Proof.
  intros Hwf Hwfm. unfold applyMerge.
  pose proof Hwf as (Hw0 & Hh0 & _). pose proof Hwfm as (Hwm & Hhm & _).
  destruct (rect_painted (merge_pixel mrg) cur
              (fun x y c => (pix cur x y c + pix mrg x y c) / 2)
              0 (Z.min (width cur) (width mrg))
              0 (Z.min (height cur) (height mrg)) Hwf)
    as (img' & E & Hwf' & Hw' & Hh' & Hp); try lia.
  { intros x y im Hx Hy Hwfi Hw Hh Hs.
    apply merge_pixel_updated; assumption. }
  rewrite E. simpl. eexists _, img'. split; [reflexivity|].
  split; [exact Hw'|]. split; [exact Hh'|].
  intros x y c Hin.
  destruct (getPixel_pix img' x y c Hwf') as (-> & _).
  { unfold inside. rewrite Hw', Hh'. exact Hin. }
  rewrite (Hp _ _ _ Hin). f_equal. destruct Hin as (Hx & Hy & _).
  unfold rows_before. zbool; try lia; reflexivity.
Qed.

Example merge_quad_solid :
  applyMerge engine quad (solid 1 3 0 0 0) =
  Ok (mkImageFilters (Some (mkProgressBar false 0 100 0))
                     (Some "Merge filter applied"%string),
      mkImage 2 2 [5; 10; 15;  40; 50; 60;  35; 40; 45;  200; 210; 255]).
Proof. vm_compute. reflexivity. Qed.

Lemma applyMerge_frame_witness :
  exists f' img',
    applyMerge engine quad (solid 1 3 0 0 0) = Ok (f', img') /\
    width img' = 2 /\ height img' = 2 /\
    forall x y c, inside quad x y c ->
      getPixel img' x y c =
        Ok (if (x <? 1) && (y <? 2)
            then (pix quad x y c + pix (solid 1 3 0 0 0) x y c) / 2
            else pix quad x y c).
Proof.
  apply (applyMerge_frame engine quad (solid 1 3 0 0 0)).
  - unfold wf. simpl. repeat split; try lia; try reflexivity.
    repeat constructor; lia.
  - unfold wf. simpl. repeat split; try lia; try reflexivity.
    repeat constructor; lia.
Defined.

(** ** Floating point: integers are exact *)

Lemma floor_log2_int x d :
  0 < x -> 0 < d -> Ieee.floor_log2 (x * d) d = Z.log2 x.
Proof.
  intros Hx Hd. unfold Ieee.floor_log2.
  pose proof (Z.log2_nonneg d) as Hl.
  replace (x * d * 2 ^ (Z.log2 d + 1)) with (x * 2 ^ (Z.log2 d + 1) * d) by ring.
  rewrite Z.div_mul by lia. rewrite Z.log2_mul_pow2 by lia. lia.
Qed.

(** A positive integer below [2 ^ p] rounds to itself. *)
Lemma round_pos_int p x d :
  0 < p -> 0 < x < 2 ^ p -> 0 < d ->
  exists k, 0 < k /\ Ieee.round_pos p (x * d) d = Ieee.mkFrac (x * k) k.
Proof.
  intros Hp Hx Hd. unfold Ieee.round_pos.
  destruct (Z.eqb_spec (x * d) 0) as [E|_]; [nia|].
  rewrite floor_log2_int by lia.
  assert (Z.log2 x < p) as Hl by (apply Z.log2_lt_pow2; lia).
  pose proof (Z.log2_nonneg x) as Hl0.
  destruct (Z.leb_spec 0 (Z.log2 x - (p - 1))) as [He|He].
  - assert (Z.log2 x - (p - 1) = 0) as -> by lia.
    rewrite Z.pow_0_r, !Z.mul_1_r. rewrite Z.div_mul, Z.mod_mul by lia.
    destruct (Z.ltb_spec (2 * 0) d); [|lia].
    exists 1. split; [lia|]. f_equal; lia.
  - set (k := 2 ^ (- (Z.log2 x - (p - 1)))).
    assert (0 < k) as Hk by (apply Z.pow_pos_nonneg; lia).
    replace (x * d * k) with (x * k * d) by ring.
    rewrite Z.div_mul, Z.mod_mul by lia.
    destruct (Z.ltb_spec (2 * 0) d); [|lia].
    exists k. auto.
Qed.

Lemma of_int_exact n :
  0 <= n < 2 ^ 53 ->
  exists k, 0 < k /\ Ieee.of_int 53 n = Ieee.mkFrac (n * k) k.
Proof.
  intros Hn. unfold Ieee.of_int, Ieee.round. simpl Ieee.num. simpl Ieee.den.
  destruct (Z.ltb_spec n 0); [lia|].
  destruct (Z.eq_dec n 0) as [->|Hne].
  - exists 1. split; [lia | reflexivity].
  - destruct (round_pos_int 53 n 1) as (k & Hk & E); try lia.
    rewrite Z.mul_1_r in E. exists k. auto.
Qed.

(** [(double)n / n] is 1, and [(int)(x * 1.0)] is [x]. *)
Lemma scale_identity n x :
  0 <= x < n -> n < 2 ^ 53 ->
  scale x (Ieee.div 53 (Ieee.of_int 53 n) (Ieee.of_int 53 n)) = x.
Proof.
  intros Hx Hn. unfold scale.
  destruct (of_int_exact n ltac:(lia)) as (k & Hk & ->).
  destruct (of_int_exact x ltac:(lia)) as (j & Hj & ->).
  unfold Ieee.div. simpl Ieee.num. simpl Ieee.den.
  destruct (Z.eqb_spec (n * k) 0); [nia|].
  destruct (Z.ltb_spec 0 (n * k)); [|nia].
  unfold Ieee.round. simpl Ieee.num. simpl Ieee.den.
  destruct (Z.ltb_spec (n * k * k) 0); [nia|].
  replace (n * k * k) with (1 * (k * (n * k))) by ring.
  assert (0 < k * (n * k)) as HD by nia.
  destruct (round_pos_int 53 1 (k * (n * k)) ltac:(lia) ltac:(lia) HD)
    as (u & Hu & ->).
  unfold Ieee.mul, Ieee.round. simpl Ieee.num. simpl Ieee.den.
  destruct (Z.ltb_spec (x * j * (1 * u)) 0); [nia|].
  destruct (Z.eq_dec x 0) as [->|Hx0].
  - reflexivity.
  - replace (x * j * (1 * u)) with (x * (j * u)) by ring.
    assert (0 < j * u) as HJ by nia.
    destruct (round_pos_int 53 x (j * u) ltac:(lia) ltac:(lia) HJ)
      as (v & Hv & ->).
    unfold Ieee.to_int. simpl. apply Z.quot_mul. lia.
Qed.

(** ** Resize *)

Lemma newImage_wf junk w h :
  0 <= w -> 0 <= h -> w * h * channels < 2 ^ 31 -> wf (newImage junk w h).
Proof.
  intros Hw Hh Hsz. unfold wf, newImage. simpl.
  split; [exact Hw|]. split; [exact Hh|]. split; [exact Hsz|].
  split; [rewrite length_map, length_seq; reflexivity|].
  apply Forall_forall. intros v Hv. apply list_elem_of_In in Hv.
  apply in_map_iff in Hv. destruct Hv as (i & <- & _).
  unfold to_uchar. apply Z.mod_pos_bound. lia.
Qed.

Lemma resize_pixel_identity src out x y :
  wf src -> wf out -> width out = width src -> height out = height src ->
  0 <= x < width src -> 0 <= y < height src ->
  exists out',
    resize_pixel src
      (Ieee.div 53 (Ieee.of_int 53 (width src)) (Ieee.of_int 53 (width src)))
      (Ieee.div 53 (Ieee.of_int 53 (height src)) (Ieee.of_int 53 (height src)))
      y x out = Ok out' /\
    updated out out' x y (fun _ => true) (fun c => pix src x y c).
Proof.
  intros Hwf Hwfo Hw Hh Hx Hy. unfold resize_pixel.
  assert (width src < 2 ^ 53 /\ height src < 2 ^ 53) as (Bw & Bh).
  { destruct Hwf as (_ & _ & Hsz & _). unfold channels in Hsz.
    assert (2 ^ 31 < 2 ^ 53) by (apply Z.pow_lt_mono_r; lia). nia. }
  rewrite !scale_identity by lia.
  rewrite !Z.min_l by lia.
  assert (forall c, 0 <= c < channels -> inside src x y c) as Hin.
  { intros c Hc. unfold inside. auto. }
  assert (0 <= 0 < channels /\ 0 <= 1 < channels /\ 0 <= 2 < channels)
    as (C0 & C1 & C2) by (unfold channels; lia).
  destruct (getPixel_pix src x y 0 Hwf (Hin 0 C0)) as (-> & A0).
  destruct (getPixel_pix src x y 1 Hwf (Hin 1 C1)) as (-> & A1).
  destruct (getPixel_pix src x y 2 Hwf (Hin 2 C2)) as (-> & A2).
  simpl.
  destruct (set3_updated out x y (pix src x y 0) (pix src x y 1) (pix src x y 2) Hwfo)
    as (out' & E & U); [lia | lia |].
  exists out'. split; [exact E|].
  eapply updated_ext; [exact U | reflexivity |].
  intros c Hc _. unfold channels in Hc.
  assert (c = 0 \/ c = 1 \/ c = 2) as [-> | [-> | ->]] by lia; simpl;
    apply Z.mod_small; lia.
Qed.

(** C4. Resizing a well-formed buffer to its own width and height returns
    the same buffer, whatever the allocated result buffer held. *)
Theorem applyResize_identity f junk img :
  wf img ->
  exists f', applyResize f junk img (width img) (height img) = Ok (f', img).
Proof.
  intros Hwf. unfold applyResize.
  pose proof Hwf as (Hw0 & Hh0 & Hsz & _).
  pose proof (newImage_wf junk _ _ Hw0 Hh0 Hsz) as Hwfn.
  destruct (rect_painted
    (resize_pixel img
       (Ieee.div 53 (Ieee.of_int 53 (width img)) (Ieee.of_int 53 (width img)))
       (Ieee.div 53 (Ieee.of_int 53 (height img)) (Ieee.of_int 53 (height img))))
    (newImage junk (width img) (height img))
    (fun x y c => pix img x y c) 0 (width img) 0 (height img) Hwfn)
    as (out & E & Hwfo & Hwo & Hho & Hp); simpl; try lia.
  { intros x y im Hx Hy Hwfi Hw Hh _. simpl in *.
    apply resize_pixel_identity; assumption. }
  rewrite E. simpl. eexists. f_equal. f_equal.
  apply image_ext; [exact Hwfo | exact Hwf | exact Hwo | exact Hho |].
  intros x y c Hin.
  assert (inside (newImage junk (width img) (height img)) x y c) as Hin'.
  { unfold inside in *. rewrite Hwo, Hho in Hin. exact Hin. }
  rewrite (Hp _ _ _ Hin'). destruct Hin' as (Hx & Hy & _). simpl in *.
  unfold rows_before. zbool; try lia; reflexivity.
Qed.

Example resize_quad_up :
  applyResize engine (fun _ => 0) quad 4 2 =
  Ok (mkImageFilters (Some (mkProgressBar false 0 100 0))
                     (Some "Resize filter applied (4x2)"%string),
      mkImage 4 2 [10; 20; 30;  10; 20; 30;  40; 50; 60;  40; 50; 60;
                   70; 80; 90;  70; 80; 90;  200; 210; 255;  200; 210; 255]).
Proof. vm_compute. reflexivity. Qed.

Lemma applyResize_identity_witness :
  exists f', applyResize engine (fun i => Z.of_nat i) quad 2 2 = Ok (f', quad).
Proof.
  apply (applyResize_identity engine (fun i => Z.of_nat i) quad).
  unfold wf. simpl. repeat split; try lia; try reflexivity.
  repeat constructor; lia.
Defined.

(** ** Blur *)

Lemma inBounds_inside img nx ny c :
  inBounds img nx ny = true -> 0 <= c < channels -> inside img nx ny c.
Proof. unfold inBounds, inside. intros H Hc. zbool; try discriminate; lia. Qed.

Lemma for_loop_sums (body : Z -> BlurAcc -> result BlurAcc) fr fg fb fn (n : nat) :
  forall i acc,
    (forall j a, i <= j < i + Z.of_nat n ->
       body j a = Ok (mkBlurAcc (sumR a + fr j) (sumG a + fg j)
                                (sumB a + fb j) (count a + fn j))) ->
    for_loop n i body acc =
      Ok (mkBlurAcc (sumR acc + sum_from n i fr) (sumG acc + sum_from n i fg)
                    (sumB acc + sum_from n i fb) (count acc + sum_from n i fn)).
Proof.
  induction n as [|n IH]; intros i acc Hb.
  - simpl. rewrite !Z.add_0_r. destruct acc; reflexivity.
  - simpl. rewrite Hb by lia. simpl. rewrite IH.
    + simpl. f_equal. f_equal; lia.
    + intros j a Hj. apply Hb. lia.
Qed.

Lemma sum_from_ext (n : nat) f g :
  forall i, (forall j, i <= j < i + Z.of_nat n -> f j = g j) ->
            sum_from n i f = sum_from n i g.
Proof.
  induction n as [|n IH]; intros i H; simpl; [reflexivity|].
  rewrite H by lia. f_equal. apply IH. intros j Hj. apply H. lia.
Qed.

Lemma sum_from_bounds (n : nat) f g :
  forall i, (forall j, i <= j < i + Z.of_nat n -> 0 <= f j <= 255 * g j) ->
            0 <= sum_from n i f <= 255 * sum_from n i g.
Proof.
  induction n as [|n IH]; intros i H; simpl; [lia|].
  specialize (H i ltac:(lia)) as Hi.
  specialize (IH (i + 1) ltac:(intros j Hj; apply H; lia)). lia.
Qed.

Lemma sum_from_ge (n : nat) f k :
  forall i, (forall j, i <= j < i + Z.of_nat n -> 0 <= f j) ->
            i <= k < i + Z.of_nat n -> f k <= sum_from n i f.
Proof.
  induction n as [|n IH]; intros i H Hk; simpl; [lia|].
  assert (0 <= sum_from n (i + 1) f) as Hnn.
  { clear -H. assert (forall j, i + 1 <= j < i + 1 + Z.of_nat n -> 0 <= f j <= 255 * f j) as H'.
    { intros j Hj. specialize (H j ltac:(lia)). lia. }
    pose proof (sum_from_bounds n f f (i + 1) H'). lia. }
  destruct (Z.eq_dec k i) as [->|Hne].
  - lia.
  - specialize (IH (i + 1) ltac:(intros j Hj; apply H; lia) ltac:(lia)).
    specialize (H i ltac:(lia)). lia.
Qed.

Lemma blur_sample_ok src x y i j acc :
  wf src ->
  blur_sample src x y i j acc =
    Ok (let v c := if inBounds src (x + j) (y + i)
                   then pix src (x + j) (y + i) c else 0 in
        mkBlurAcc (sumR acc + v 0) (sumG acc + v 1) (sumB acc + v 2)
                  (count acc + (if inBounds src (x + j) (y + i) then 1 else 0))).
Proof.
  intros Hwf. unfold blur_sample.
  destruct (inBounds src (x + j) (y + i)) eqn:E.
  - assert (forall c, 0 <= c < channels -> inside src (x + j) (y + i) c) as Hin.
    { intros c Hc. apply inBounds_inside; assumption. }
    destruct (getPixel_pix src _ _ 0 Hwf (Hin 0 ltac:(unfold channels; lia))) as (-> & _).
    destruct (getPixel_pix src _ _ 1 Hwf (Hin 1 ltac:(unfold channels; lia))) as (-> & _).
    destruct (getPixel_pix src _ _ 2 Hwf (Hin 2 ltac:(unfold channels; lia))) as (-> & _).
    reflexivity.
  - simpl. rewrite !Z.add_0_r. destruct acc; reflexivity.
Qed.

Lemma blur_window_ok src r x y :
  wf src -> 0 <= r ->
  blur_window src r x y =
    Ok (mkBlurAcc (window_sum src r x y 0) (window_sum src r x y 1)
                  (window_sum src r x y 2) (window_count src r x y)).
Proof.
  intros Hwf Hr. unfold blur_window, for_range.
  replace (r + 1 - - r) with (2 * r + 1) by lia.
  rewrite (for_loop_sums _
    (fun i => sum_from (Z.to_nat (2 * r + 1)) (- r)
       (fun j => if inBounds src (x + j) (y + i) then pix src (x + j) (y + i) 0 else 0))
    (fun i => sum_from (Z.to_nat (2 * r + 1)) (- r)
       (fun j => if inBounds src (x + j) (y + i) then pix src (x + j) (y + i) 1 else 0))
    (fun i => sum_from (Z.to_nat (2 * r + 1)) (- r)
       (fun j => if inBounds src (x + j) (y + i) then pix src (x + j) (y + i) 2 else 0))
    (fun i => sum_from (Z.to_nat (2 * r + 1)) (- r)
       (fun j => if inBounds src (x + j) (y + i) then 1 else 0))).
  - reflexivity.
  - intros i a _.
    apply (for_loop_sums (blur_sample src x y i)
      (fun j => if inBounds src (x + j) (y + i) then pix src (x + j) (y + i) 0 else 0)
      (fun j => if inBounds src (x + j) (y + i) then pix src (x + j) (y + i) 1 else 0)
      (fun j => if inBounds src (x + j) (y + i) then pix src (x + j) (y + i) 2 else 0)
      (fun j => if inBounds src (x + j) (y + i) then 1 else 0)).
    intros j b _. apply blur_sample_ok. exact Hwf.
Qed.

Lemma window_bounds src r x y c :
  wf src -> 0 <= r -> 0 <= x < width src -> 0 <= y < height src ->
  0 <= c < channels ->
  1 <= window_count src r x y /\
  0 <= window_sum src r x y c <= 255 * window_count src r x y.
Proof.
  intros Hwf Hr Hx Hy Hc. unfold window_sum, window_count, window_total. split.
  - set (inner := fun i => sum_from (Z.to_nat (2 * r + 1)) (- r)
                   (fun j => if inBounds src (x + j) (y + i) then 1 else 0)).
    assert (forall i, 0 <= inner i) as Hnn.
    { intros i. unfold inner.
      pose proof (sum_from_bounds (Z.to_nat (2 * r + 1))
        (fun j => if inBounds src (x + j) (y + i) then 1 else 0)
        (fun j => if inBounds src (x + j) (y + i) then 1 else 0) (- r)) as B.
      simpl in B. apply B. intros j _.
      destruct (inBounds src (x + j) (y + i)); lia. }
    assert (1 <= inner 0) as H0.
    { unfold inner. rewrite Z.add_0_r.
      pose proof (sum_from_ge (Z.to_nat (2 * r + 1))
        (fun j => if inBounds src (x + j) y then 1 else 0) 0 (- r)) as G.
      simpl in G. rewrite Z.add_0_r in G.
      assert (inBounds src x y = true) as Hb.
      { unfold inBounds. zbool; try lia; reflexivity. }
      rewrite Hb in G.
      apply G; [|lia]. intros j _. destruct (inBounds src (x + j) y); lia. }
    pose proof (sum_from_ge (Z.to_nat (2 * r + 1)) inner 0 (- r)
                  ltac:(intros; apply Hnn) ltac:(lia)). lia.
  - apply sum_from_bounds. intros i _. apply sum_from_bounds. intros j _.
    destruct (inBounds src (x + j) (y + i)) eqn:E; [|lia].
    destruct (getPixel_pix src (x + j) (y + i) c Hwf) as (_ & B);
      [apply inBounds_inside; assumption|]. lia.
Qed.

Lemma blur_pixel_updated r src out x y :
  wf src -> wf out -> width out = width src -> height out = height src ->
  0 <= r -> 0 <= x < width src -> 0 <= y < height src ->
  exists out', blur_pixel r src y x out = Ok out' /\
    updated out out' x y (fun _ => true)
      (fun c => window_sum src r x y c / window_count src r x y).
Proof.
  intros Hwf Hwfo Hw Hh Hr Hx Hy. unfold blur_pixel.
  rewrite blur_window_ok by assumption. simpl.
  assert (forall c, 0 <= c < channels ->
            1 <= window_count src r x y /\
            0 <= window_sum src r x y c <= 255 * window_count src r x y) as HB.
  { intros c Hc. apply window_bounds; assumption. }
  destruct (HB 0 ltac:(unfold channels; lia)) as (Hn & B0).
  destruct (HB 1 ltac:(unfold channels; lia)) as (_ & B1).
  destruct (HB 2 ltac:(unfold channels; lia)) as (_ & B2).
  unfold idiv. rewrite Z.max_r by lia.
  destruct (Z.eqb_spec (window_count src r x y) 0) as [E0|_]; [lia|]. simpl.
  destruct (set3_updated out x y
              (Z.quot (window_sum src r x y 0) (window_count src r x y))
              (Z.quot (window_sum src r x y 1) (window_count src r x y))
              (Z.quot (window_sum src r x y 2) (window_count src r x y)) Hwfo)
    as (out' & E & U); [lia | lia |].
  exists out'. split; [exact E|].
  eapply updated_ext; [exact U | reflexivity |].
  intros c Hc _. unfold channels in Hc. rewrite !Z.quot_div_nonneg by lia.
  assert (c = 0 \/ c = 1 \/ c = 2) as [-> | [-> | ->]] by lia; simpl;
    apply Z.mod_small;
    (split; [apply Z.div_pos; lia | apply Z.div_lt_upper_bound; lia]).
Qed.

(** The row loop of a filter that reads [currentImage] and writes every
    pixel of a local buffer. *)
Lemma into_local_rows clicks name total interval
    (pixel : Image -> Z -> Z -> Image -> result Image) F src out0 st :
  currentImage st = src -> wf src -> wf out0 ->
  width out0 = width src -> height out0 = height src ->
  (forall x y o, 0 <= x < width src -> 0 <= y < height src -> wf o ->
     width o = width out0 -> height o = height out0 ->
     exists o', pixel src y x o = Ok o' /\
                updated o o' x y (fun _ => true) (F x y)) ->
  exists o st' out',
    cancelable_loop clicks name total interval
      (into_local (fun s y out => for_range 0 (width s) (pixel s y) out))
      (Z.to_nat (height src)) 0 st out0 = Ok (o, st', out') /\
    (o = Completed -> painted out0 out' (fun _ _ => true) F).
Proof.
  intros Hcur Hwf Hwfo Hw Hh Hpix.
  destruct (cancelable_loop_inv
    (fun y s out =>
       currentImage s = src /\
       painted out0 out (rows_before 0 (width out0) 0 y) F)
    clicks name total interval
    (into_local (fun s y out => for_range 0 (width s) (pixel s y) out))
    (Z.to_nat (height src)) 0 st out0) as (o & st' & out' & E & Ho).
  - split; [exact Hcur|]. apply painted_refl; [exact Hwfo|]. intros x y _ _.
    unfold rows_before. zbool; try lia; reflexivity.
  - intros y s out Hy (Hs & Hp) _. unfold into_local. rewrite Hs.
    destruct Hwf as (Hw0 & Hh0 & Hrest).
    destruct (row_painted (pixel src y) out0 F 0 (width out0) 0 y out)
      as (out' & E & Hp'); try lia; [|exact Hp|].
    { intros x im Hx Hwfi Hwi Hhi _. apply Hpix; try assumption; lia. }
    rewrite <- Hw. rewrite E. simpl.
    eexists _, _. split; [reflexivity|].
    rewrite (proj1 (updateProgress_images _ _ _ _ _)). auto.
  - exists o, st', out'. split; [exact E|]. intros Hc.
    destruct (Ho Hc) as (_ & Hp).
    eapply painted_ext; [exact Hp|]. intros x y Hx Hy.
    destruct Hwf as (Hw0 & Hh0 & _).
    unfold rows_before. zbool; try lia; reflexivity.
Qed.


Example blur_quad_strength_0 :
  applyBlur quiet (fun _ => 0) 0 (fresh_state quad) =
  Ok (Completed,
      mkState (mkImageFilters (Some (mkProgressBar false 0 2 2))
                              (Some "Blur filter applied (radius 1)"%string))
              (mkImage 2 2 [80; 90; 108;  80; 90; 108;  80; 90; 108;  80; 90; 108])
              quad false 1).
Proof. vm_compute. reflexivity. Qed.


(** ** No division by zero *)

Lemma div_safe_Ok {A : Type} (a : A) : div_safe (Ok a).
Proof. discriminate. Qed.

Lemma div_safe_bind {A B : Type} (r : result A) (k : A -> result B) :
  div_safe r -> (forall a, r = Ok a -> div_safe (k a)) -> div_safe (bind r k).
Proof.
  intros Hr Hk. destruct r as [a|f]; simpl.
  - apply Hk. reflexivity.
  - intros E. apply Hr. injection E as ->. reflexivity.
Qed.

Lemma div_safe_for_loop {S : Type} (body : Z -> S -> result S) (n : nat) :
  (forall j s, div_safe (body j s)) ->
  forall i s, div_safe (for_loop n i body s).
Proof.
  intros Hb. induction n as [|n IH]; intros i s; simpl.
  - apply div_safe_Ok.
  - apply div_safe_bind; [apply Hb|]. intros a _. apply IH.
Qed.

Lemma div_safe_for_range {S : Type} (body : Z -> S -> result S) lo hi s :
  (forall j t, div_safe (body j t)) -> div_safe (for_range lo hi body s).
Proof. intros Hb. apply div_safe_for_loop. exact Hb. Qed.

Lemma div_safe_cancelable_loop {L : Type} clicks name total interval
    (row : Z -> State -> L -> result (State * L)) (n : nat) :
  (forall j s l, div_safe (row j s l)) ->
  forall y st l,
    div_safe (cancelable_loop clicks name total interval row n y st l).
Proof.
  intros Hr. induction n as [|n IH]; intros y st l; simpl.
  - apply div_safe_Ok.
  - destruct (cancelRequested st); [apply div_safe_Ok|].
    apply div_safe_bind; [apply Hr|]. intros a _. apply IH.
Qed.

Lemma div_safe_getPixel img x y c : div_safe (getPixel img x y c).
Proof.
  unfold getPixel, div_safe. destruct (inRange img x y c); [|discriminate].
  destruct (imageData img !! offset img x y c); discriminate.
Qed.

Lemma div_safe_setPixel img x y c v : div_safe (setPixel img x y c v).
Proof.
  unfold setPixel, div_safe. destruct (inRange img x y c); [|discriminate].
  destruct (offset img x y c <? length (imageData img))%nat; discriminate.
Qed.

(** A denominator floored at 1 never faults. *)
Lemma idiv_floored a c : idiv a (Z.max 1 c) = Ok (Z.quot a (Z.max 1 c)).
Proof. unfold idiv. destruct (Z.eqb_spec (Z.max 1 c) 0); [lia | reflexivity]. Qed.

Ltac div_safe_step :=
  match goal with
  | |- div_safe (Ok _) => apply div_safe_Ok
  | |- div_safe (getPixel _ _ _ _) => apply div_safe_getPixel
  | |- div_safe (setPixel _ _ _ _ _) => apply div_safe_setPixel
  | |- div_safe (idiv _ (Z.max 1 _)) => rewrite idiv_floored; apply div_safe_Ok
  | |- div_safe (bind _ _) => apply div_safe_bind; [|intros ? _]
  | |- div_safe (for_range _ _ _ _) => apply div_safe_for_range; intros ? ?
  | |- div_safe (if ?b then _ else _) => destruct b
  end.

Lemma div_safe_blur_pixel r src y x out : div_safe (blur_pixel r src y x out).
Proof.
  unfold blur_pixel, blur_window, blur_sample. repeat div_safe_step.
Qed.

Lemma div_safe_oil_pixel radius intensity src j i out :
  div_safe (oil_pixel radius intensity src j i out).
Proof.
  unfold oil_pixel, oil_max, oil_sample. repeat div_safe_step.
Qed.

(** C8. Whatever the buffer and the parameters, [applyBlur] and both
    overloads of [applyOilPainting] never fault by dividing by zero: each
    of their quotients by a sample count has a denominator [max(1, .)]. *)
Theorem averaging_never_divides_by_zero
    clicks junk (strength radius intensity : Z) st f img :
  applyBlur clicks junk strength st <> Err DivisionByZero /\
  applyOilPainting f junk img radius intensity <> Err DivisionByZero /\
  applyOilPaintingCancelable clicks junk radius intensity st
    <> Err DivisionByZero.
Proof.
  split; [|split].
  - unfold applyBlur, blur_filter.
    cbv beta iota zeta delta [run_cancelable run_rows conclude filterName startMessage progressTotal
    rowBound updateInterval locals rowBody finish].
    apply div_safe_bind.
    + apply div_safe_cancelable_loop. intros j s l. unfold into_local.
      apply div_safe_bind; [|intros; apply div_safe_Ok].
      apply div_safe_for_range. intros x o. apply div_safe_blur_pixel.
    + intros [[[] s] o] _; apply div_safe_Ok.
  - unfold applyOilPainting. apply div_safe_bind.
    + apply div_safe_for_range. intros i o. apply div_safe_for_range.
      intros j o'. apply div_safe_oil_pixel.
    + intros; apply div_safe_Ok.
  - unfold applyOilPaintingCancelable, oilPainting_filter.
    cbv beta iota zeta delta [run_cancelable run_rows conclude filterName startMessage progressTotal
    rowBound updateInterval locals rowBody finish].
    apply div_safe_bind.
    + apply div_safe_cancelable_loop. intros j s l. unfold into_local.
      apply div_safe_bind; [|intros; apply div_safe_Ok].
      apply div_safe_for_range. intros x o. apply div_safe_oil_pixel.
    + intros [[[] s] o] _; apply div_safe_Ok.
Qed.

Example oil_quad :
  applyOilPainting engine (fun _ => 0) quad 0 30 =
  Ok (mkImageFilters (Some (mkProgressBar false 0 100 0))
                     (Some "Oil Painting applied"%string),
      mkImage 2 2 [10; 20; 30;  10; 20; 30;  10; 20; 30;  10; 20; 30]).
Proof. vm_compute. reflexivity. Qed.

(** ** Cancellation restores the snapshot *)

Lemma apply_filter_run flt clicks st :
  apply_filter flt clicks st = run_cancelable (filter_of flt) clicks st.
Proof. destruct flt; reflexivity. Qed.

(** Running [a + b] rows is running [a] rows and, unless that left through
    the cancellation branch, [b] more. *)
Lemma cancelable_loop_split {L : Type} clicks name total interval
    (row : Z -> State -> L -> result (State * L)) (a b : nat) :
  forall y st l,
    cancelable_loop clicks name total interval row (a + b) y st l =
    (r <- cancelable_loop clicks name total interval row a y st l ;;
     match r with
     | (Completed, st', l') =>
         cancelable_loop clicks name total interval row b (y + Z.of_nat a) st' l'
     | (Cancelled, _, _) => Ok r
     end).
Proof.
  induction a as [|a IH]; intros y st l.
  - simpl. rewrite Z.add_0_r. reflexivity.
  - simpl. destruct (cancelRequested st); [reflexivity|].
    destruct (row y st l) as [[s' l']|f]; simpl; [|reflexivity].
    rewrite IH. replace (y + 1 + Z.of_nat a) with (y + Z.pos (Pos.of_succ_nat a)) by lia.
    reflexivity.
Qed.

Lemma in_place_preFilterImage step y st l st' l' :
  in_place step y st l = Ok (st', l') -> preFilterImage st' = preFilterImage st.
Proof.
  unfold in_place. destruct (step y (currentImage st)); simpl; [|discriminate].
  intros [= <- _]. reflexivity.
Qed.

Lemma into_local_preFilterImage step y st l st' l' :
  into_local step y st l = Ok (st', l') -> preFilterImage st' = preFilterImage st.
Proof.
  unfold into_local. destruct (step (currentImage st) y l); simpl; [|discriminate].
  intros [= <- _]. reflexivity.
Qed.

Lemma rowBody_preFilterImage flt y st l st' l' :
  rowBody (filter_of flt) y st l = Ok (st', l') ->
  preFilterImage st' = preFilterImage st.
Proof.
  destruct flt; simpl;
    first [apply in_place_preFilterImage | apply into_local_preFilterImage].
Qed.

Lemma cancelable_loop_preFilterImage {L : Type} clicks name total interval
    (row : Z -> State -> L -> result (State * L)) (n : nat) :
  (forall y st l st' l', row y st l = Ok (st', l') ->
                         preFilterImage st' = preFilterImage st) ->
  forall y st l st' l',
    cancelable_loop clicks name total interval row n y st l = Ok (Completed, st', l') ->
    preFilterImage st' = preFilterImage st.
Proof.
  intros Hrow. induction n as [|n IH]; intros y st l st' l'; simpl.
  - intros [= <- _]. reflexivity.
  - destruct (cancelRequested st); [discriminate|].
    destruct (row y st l) as [[s1 l1]|f] eqn:E; simpl; [|discriminate].
    intros H. apply IH in H. rewrite H.
    rewrite (proj2 (updateProgress_images _ _ _ _ _)). eapply Hrow. exact E.
Qed.

(** C1. Take any cancelable filter and any row [y] of its outer loop (a
    column for the infrared filter). If the run reaches the head of row [y]
    and the poll there finds the token set, the call returns through the
    cancellation branch, no further row is processed, and the working
    buffer is the snapshot buffer it was given: the buffer before the call
    when the snapshot was taken from it. *)
Theorem cancellation_restores_snapshot
    (flt : CancelableFilter) clicks st y st_y (l_y : locals_of flt) :
  0 <= y < rowBound (filter_of flt) (currentImage st) ->
  run_until (filter_of flt) clicks y st = Ok (Completed, st_y, l_y) ->
  cancelRequested st_y = true ->
  exists st',
    apply_filter flt clicks st = Ok (Cancelled, st') /\
    st' = checkCancellation (filterName (filter_of flt)) st_y /\
    currentImage st' = preFilterImage st /\
    preFilterImage st' = preFilterImage st /\
    (preFilterImage st = currentImage st -> currentImage st' = currentImage st).
Proof.
  intros Hy Hrun Hc. rewrite apply_filter_run.
  unfold run_cancelable, run_until, run_rows in *.
  set (F := filter_of flt) in *.
  set (p := prologue clicks (progressTotal F (currentImage st)) (startMessage F) st) in *.
  assert (currentImage p = currentImage st /\ preFilterImage p = preFilterImage st)
    as (Hpc & Hpp) by apply prologue_images.
  rewrite Hpc in *.
  replace (Z.to_nat (rowBound F (currentImage st)))
    with (Z.to_nat y + Datatypes.S (Z.to_nat (rowBound F (currentImage st) - y - 1)))%nat
    by lia.
  rewrite cancelable_loop_split. rewrite Hrun. simpl. rewrite Hc. simpl.
  assert (preFilterImage st_y = preFilterImage st) as Hpre.
  { rewrite <- Hpp. eapply cancelable_loop_preFilterImage; [|exact Hrun].
    intros y0 s l s' l'. unfold F. apply rowBody_preFilterImage. }
  exists (checkCancellation (filterName F) st_y).
  split; [reflexivity|]. split; [reflexivity|].
  unfold checkCancellation. rewrite Hc. simpl.
  split; [exact Hpre|]. split; [exact Hpre|]. intros <-. exact Hpre.
Qed.

Example grayscale_cancelled_at_row_50 :
  applyGrayscale (click_at 1) (fresh_state (solid 1 51 100 150 200)) =
  Ok (Cancelled,
      mkState (mkImageFilters (Some (mkProgressBar false 0 51 50))
                              (Some "Grayscale filter cancelled"%string))
              (solid 1 51 100 150 200) (solid 1 51 100 150 200) true 2).
Proof. vm_compute. reflexivity. Qed.


Lemma cancellation_restores_snapshot_witness :
  exists st_y st',
    run_until (filter_of Grayscale) (click_at 1) 50
      (fresh_state (solid 1 51 100 150 200)) = Ok (Completed, st_y, tt) /\
    pix (currentImage st_y) 0 0 0 = 150 /\
    apply_filter Grayscale (click_at 1) (fresh_state (solid 1 51 100 150 200))
      = Ok (Cancelled, st') /\
    currentImage st' = preFilterImage (fresh_state (solid 1 51 100 150 200)).
Proof.
  assert (exists st_y,
            run_until (filter_of Grayscale) (click_at 1) 50
              (fresh_state (solid 1 51 100 150 200)) = Ok (Completed, st_y, tt) /\
            cancelRequested st_y = true /\
            pix (currentImage st_y) 0 0 0 = 150) as (st_y & H & Hc & Hp).
  { vm_compute. eexists. split; [reflexivity|]. split; reflexivity. }
  assert (0 <= 50 < rowBound (filter_of Grayscale)
                      (currentImage (fresh_state (solid 1 51 100 150 200)))) as Hy.
  { vm_compute. split; [discriminate | reflexivity]. }
  destruct (cancellation_restores_snapshot Grayscale (click_at 1)
              (fresh_state (solid 1 51 100 150 200)) 50 st_y tt Hy H Hc)
    as (st' & E & _ & Hcur & _).
  exists st_y, st'. split; [exact H|]. split; [exact Hp|].
  split; [exact E | exact Hcur].
Defined.

(** Every run that leaves through the cancellation branch, at whatever
    row, ends with the working buffer equal to the snapshot. *)
Lemma cancelable_loop_cancelled {L : Type} clicks name total interval
    (row : Z -> State -> L -> result (State * L)) (n : nat) :
  (forall y st l st' l', row y st l = Ok (st', l') ->
                         preFilterImage st' = preFilterImage st) ->
  forall y st l st' l',
    cancelable_loop clicks name total interval row n y st l = Ok (Cancelled, st', l') ->
    currentImage st' = preFilterImage st /\ cancelRequested st' = true.
Proof.
  intros Hrow. induction n as [|n IH]; intros y st l st' l'; simpl.
  - discriminate.
  - destruct (cancelRequested st) eqn:Hc.
    + intros [= <- _]. unfold checkCancellation. rewrite Hc. simpl. auto.
    + destruct (row y st l) as [[s1 l1]|f] eqn:E; simpl; [|discriminate].
      intros H. apply IH in H. destruct H as (H & Hc'). split; [|exact Hc'].
      rewrite H. rewrite (proj2 (updateProgress_images _ _ _ _ _)).
      eapply Hrow. exact E.
Qed.

Lemma cancelled_run_restores flt clicks st st' :
  apply_filter flt clicks st = Ok (Cancelled, st') ->
  currentImage st' = preFilterImage st.
Proof.
  rewrite apply_filter_run. unfold run_cancelable, run_rows, conclude.
  set (F := filter_of flt).
  set (p := prologue clicks (progressTotal F (currentImage st)) (startMessage F) st).
  assert (preFilterImage p = preFilterImage st) as Hpp by apply prologue_images.
  intros H. apply bind_Ok in H. destruct H as ([[o s1] l1] & Hl & Hc).
  destruct o; [discriminate|]. injection Hc as <-.
  rewrite <- Hpp.
  eapply (cancelable_loop_cancelled clicks _ _ _ (rowBody F)); [|exact Hl].
  intros y0 s l s' l'. unfold F. apply rowBody_preFilterImage.
Qed.

(** ** Edge detection *)




Lemma kernel_binomial ky kx :
  -2 <= ky < 3 -> -2 <= kx < 3 ->
  table_at kernel (ky + 2) (kx + 2) = gauss_weight ky kx.
Proof.
  intros Hy Hx.
  assert (ky = -2 \/ ky = -1 \/ ky = 0 \/ ky = 1 \/ ky = 2)
    as [-> | [-> | [-> | [-> | ->]]]] by lia;
  assert (kx = -2 \/ kx = -1 \/ kx = 0 \/ kx = 1 \/ kx = 2)
    as [-> | [-> | [-> | [-> | ->]]]] by lia; reflexivity.
Qed.

Lemma sobel_weights ky kx :
  -1 <= ky < 2 -> -1 <= kx < 2 ->
  table_at sobelX (ky + 1) (kx + 1) = sobelX_weight ky kx /\
  table_at sobelY (ky + 1) (kx + 1) = sobelY_weight ky kx.
Proof.
  intros Hy Hx.
  assert (ky = -1 \/ ky = 0 \/ ky = 1) as [-> | [-> | ->]] by lia;
  assert (kx = -1 \/ kx = 0 \/ kx = 1) as [-> | [-> | ->]] by lia;
  split; reflexivity.
Qed.














(** The tables of the code are the binomial and the Sobel weights. *)
Lemma edges_tables ky kx :
  (-2 <= ky < 3 -> -2 <= kx < 3 ->
   table_at kernel (ky + 2) (kx + 2) = gauss_weight ky kx) /\
  (-1 <= ky < 2 -> -1 <= kx < 2 ->
   table_at sobelX (ky + 1) (kx + 1) = sobelX_weight ky kx /\
   table_at sobelY (ky + 1) (kx + 1) = sobelY_weight ky kx).
Proof. split; [apply kernel_binomial | apply sobel_weights]. Qed.

(** The blur pass on a white 5 x 5 buffer: only the centre is computed. *)
Example blur_pass_white_5x5 :
  edges_blur_pass (fun _ => 7) (solid 5 5 255 255 255) =
  Ok (mkImage 5 5
        (replicate 36 7 ++ [255; 255; 255] ++ replicate 36 7)).
Proof. vm_compute. reflexivity. Qed.

(** A white 6 x 6 buffer, zero-filled allocations: the four centre pixels
    of the blurred buffer are 255 amid zeros, and every pixel off the
    outermost ring comes out as an edge. *)
Example edges_white_6x6 :
  applyEdges engine (fun _ _ => 0) (solid 6 6 255 255 255) =
  Ok (mkImageFilters (Some (mkProgressBar false 0 100 0))
                     (Some "Edge Detection filter applied"%string),
      solid 6 6 0 0 0).
Proof. vm_compute. reflexivity. Qed.



(** ** Unrecognized parameters *)

(** C7, what the code does instead: an unrecognized direction flips
    vertically, an unrecognized choice lightens, an unrecognized frame type
    draws the brown decorated frame; none of them is reported. The
    documentation of the three functions promises
    [std::invalid_argument]. *)
Theorem unrecognized_parameters_fall_through :
  (forall f img direction,
     applyFlip f img direction =
       if String.eqb direction "Horizontal"
       then applyFlip f img "Horizontal" else applyFlip f img "Vertical") /\
  (forall f junk img choice,
     applyDarkAndLight f junk img choice =
       if String.eqb choice "dark"
       then applyDarkAndLight f junk img "dark"
       else applyDarkAndLight f junk img "light") /\
  (forall f junk img frameType,
     applyFrame f junk img frameType =
       if offered_frame frameType
       then applyFrame f junk img frameType
       else applyFrame f junk img "Decorated Frame") /\
  applyFlip engine quad "Diagonal" =
    Ok (mkImageFilters (Some (mkProgressBar false 0 100 0))
                       (Some "Flip filter applied"%string),
        mkImage 2 2 [70; 80; 90;  200; 210; 255;  10; 20; 30;  40; 50; 60]) /\
  applyDarkAndLight engine (fun _ => 0) quad "medium" =
    Ok (mkImageFilters (Some (mkProgressBar false 0 100 0))
                       (Some "Dark & Light filter applied"%string),
        mkImage 2 2 [20; 40; 60;  80; 100; 120;  140; 160; 180;  255; 255; 255]) /\
  (exists f out,
     applyFrame engine (fun _ => 0) (solid 1 1 9 9 9) "Bogus" = Ok (f, out) /\
     statusBar f = Some "Frame filter applied"%string /\
     width out = 51 /\ height out = 51 /\ getPixel out 0 0 0 = Ok 100).
Proof.
  split; [|split; [|split; [|split; [|split]]]].
  - intros f img direction. unfold applyFlip.
    destruct (String.eqb direction "Horizontal"); reflexivity.
  - intros f junk img choice. unfold applyDarkAndLight.
    destruct (String.eqb choice "dark"); reflexivity.
  - intros f junk img frameType.
    destruct (offered_frame frameType) eqn:H; [reflexivity|].
    unfold offered_frame in H.
    repeat (apply orb_false_elim in H; destruct H as [H ?]).
    unfold applyFrame.
    repeat match goal with E : String.eqb frameType _ = false |- _ =>
             rewrite E; clear E end.
    reflexivity.
  - vm_compute. reflexivity.
  - vm_compute. reflexivity.
  - eexists _, _. split; [vm_compute; reflexivity|].
    repeat split; vm_compute; reflexivity.
Qed.

(** ** The undo history *)

Import History.

Lemma pushUndo_take s h :
  (length (undoStack h) <= capacity h)%nat ->
  undoStack (pushUndo s h) = take (capacity h) (s :: undoStack h).
Proof.
  intros Hl. unfold pushUndo. cbn [undoStack].
  destruct (Nat.ltb_spec (capacity h) (length (s :: undoStack h))) as [Hlt|Hge].
  - rewrite removelast_firstn_len. f_equal. simpl in *. lia.
  - symmetry. apply firstn_all2. exact Hge.
Qed.

Lemma pushUndo_length s h :
  (length (undoStack h) <= capacity h)%nat ->
  (length (undoStack (pushUndo s h)) <= capacity h)%nat.
Proof.
  intros Hl. rewrite pushUndo_take by exact Hl. rewrite length_take. lia.
Qed.

Lemma pushes_take (l : list Image) :
  forall h,
    (length (undoStack h) <= capacity h)%nat ->
    undoStack (fold_left (fun h s => pushUndo s h) l h)
      = take (capacity h) (rev l ++ undoStack h).
Proof.
  induction l as [|s l IH]; intros h Hl.
  - simpl. symmetry. apply firstn_all2. exact Hl.
  - simpl fold_left.
    rewrite IH
      by (change (capacity (pushUndo s h)) with (capacity h);
          apply pushUndo_length; exact Hl).
    change (capacity (pushUndo s h)) with (capacity h).
    rewrite pushUndo_take by exact Hl.
    simpl rev. rewrite <- app_assoc. simpl app.
    set (n := capacity h). set (u := undoStack h).
    destruct (Nat.le_gt_cases n (length (rev l))) as [Hle|Hgt].
    + rewrite !take_app_le by exact Hle. reflexivity.
    + rewrite !take_app_ge by lia. f_equal.
      rewrite take_take. f_equal. lia.
Qed.

(** The two stacks together never hold more than the capacity. *)
Lemma call_bounded h c :
  (length (undoStack h) + length (redoStack h) <= capacity h)%nat ->
  capacity (call h c) = capacity h /\
  (length (undoStack (call h c)) + length (redoStack (call h c))
   <= capacity h)%nat.
Proof.
  intros Hl. destruct c as [s|cur|cur|]; [|simpl..].
  - change (call h (PushUndo s)) with (pushUndo s h).
    split; [reflexivity|].
    change (redoStack (pushUndo s h)) with (@nil Image).
    pose proof (pushUndo_length s h ltac:(lia)).
    change (length (@nil Image)) with 0%nat. lia.
  - unfold undo. destruct (undoStack h) eqn:E; simpl in *.
    + rewrite E. simpl. lia.
    + lia.
  - unfold redo. destruct (redoStack h) eqn:E; simpl in *.
    + rewrite E. simpl. lia.
    + lia.
  - lia.
Qed.

Lemma calls_bounded (calls : list Call) :
  forall h,
    (length (undoStack h) + length (redoStack h) <= capacity h)%nat ->
    (length (undoStack (fold_left call calls h)) <= capacity h)%nat.
Proof.
  induction calls as [|c calls IH]; intros h Hl; simpl.
  - lia.
  - destruct (call_bounded h c Hl) as (Hc & Hb).
    rewrite <- Hc. apply IH. rewrite Hc. exact Hb.
Qed.

Lemma mutate_history (imgs : list Image) :
  forall ps,
    hasImage ps = true ->
    history (fold_left mutate imgs ps)
      = fold_left (fun h s => pushUndo s h) (removelast (psImage ps :: imgs))
                  (history ps).
Proof.
  induction imgs as [|i imgs IH]; intros ps Hh.
  - reflexivity.
  - simpl fold_left. rewrite IH.
    + unfold mutate, saveStateForUndo. rewrite Hh. simpl. reflexivity.
    + unfold mutate, saveStateForUndo. rewrite Hh. reflexivity.
Qed.

(** C9. A history of capacity [N]: whatever calls are made on it, the undo
    stack never holds more than [N] entries; [N + 1] pushes leave exactly
    the last [N] snapshots, the oldest one gone; [canUndo] is false exactly
    on an empty undo stack; and in the main window, whose history has
    capacity 20, twenty-one mutations leave the twenty latest snapshots. *)
Theorem history_capacity (N : nat) :
  (forall calls,
     (length (undoStack (fold_left call calls (create N))) <= N)%nat) /\
  (forall h s0 rest,
     capacity h = N -> (length (undoStack h) <= N)%nat -> length rest = N ->
     undoStack (fold_left (fun h s => pushUndo s h) (s0 :: rest) h) = rev rest /\
     length (undoStack (fold_left (fun h s => pushUndo s h) (s0 :: rest) h)) = N) /\
  (forall h, canUndo h = false <-> undoStack h = []) /\
  (forall ps imgs,
     hasImage ps = true -> history ps = initial_history -> length imgs = 21%nat ->
     undoStack (history (fold_left mutate imgs ps)) = rev (removelast imgs) /\
     length (undoStack (history (fold_left mutate imgs ps))) = 20%nat).
Proof.
  split; [|split; [|split]].
  - intros calls. apply (calls_bounded calls (create N)). simpl. lia.
  - intros h s0 rest Hc Hl Hr.
    assert (undoStack (fold_left (fun h s => pushUndo s h) (s0 :: rest) h) = rev rest) as E.
    { rewrite pushes_take by lia. rewrite Hc. simpl rev.
      rewrite <- app_assoc. rewrite take_app_le by (rewrite length_rev; lia).
      apply firstn_all2. rewrite length_rev. lia. }
    split; [exact E|]. rewrite E, length_rev. exact Hr.
  - intros h. unfold canUndo. destruct (undoStack h); split; intros H;
      try reflexivity; discriminate.
  - intros ps imgs Hh Hi Hn.
    assert (undoStack (history (fold_left mutate imgs ps)) = rev (removelast imgs)) as E.
    { rewrite mutate_history by exact Hh. rewrite Hi.
      destruct imgs as [|i imgs]; [discriminate|].
      change (removelast (psImage ps :: i :: imgs))
        with (psImage ps :: removelast (i :: imgs)).
      assert (length (removelast (i :: imgs)) = 20%nat) as Hlen.
      { rewrite removelast_firstn_len, length_take. simpl in *. lia. }
      set (R := removelast (i :: imgs)) in *.
      rewrite pushes_take by (simpl; lia). simpl capacity.
      change (rev (psImage ps :: R)) with (rev R ++ [psImage ps]).
      rewrite <- app_assoc. rewrite take_app_le by (rewrite length_rev; lia).
      apply firstn_all2. rewrite length_rev. lia. }
    split; [exact E|]. rewrite E, length_rev.
    rewrite removelast_firstn_len, length_take. lia.
Qed.

Example history_three_pushes :
  undoStack (fold_left (fun h s => pushUndo s h)
               [solid 1 1 1 1 1; solid 1 1 2 2 2; solid 1 1 3 3 3] (create 2))
  = [solid 1 1 3 3 3; solid 1 1 2 2 2].
Proof. reflexivity. Qed.

Lemma history_capacity_witness :
  undoStack (fold_left (fun h s => pushUndo s h)
               [solid 1 1 1 1 1; solid 1 1 2 2 2; solid 1 1 3 3 3] (create 2))
  = rev [solid 1 1 2 2 2; solid 1 1 3 3 3] /\
  length (undoStack (fold_left (fun h s => pushUndo s h)
               [solid 1 1 1 1 1; solid 1 1 2 2 2; solid 1 1 3 3 3] (create 2)))
  = 2%nat.
Proof.
  apply (proj1 (proj2 (history_capacity 2)) (create 2) (solid 1 1 1 1 1)
           [solid 1 1 2 2 2; solid 1 1 3 3 3]).
  - reflexivity.
  - simpl. lia.
  - reflexivity.
Defined.

(* ===================================================================== *)
(** * Further properties of the filters *)
(* ===================================================================== *)

Ltac wf_concrete :=
  unfold wf; simpl; repeat split; try lia; try reflexivity;
  repeat constructor; lia.

(** ** Grayscale and black-and-white *)

Lemma gray_of_byte img x y :
  wf img -> 0 <= x < width img -> 0 <= y < height img ->
  0 <= gray_of img x y < 256.
Proof.
  intros Hwf Hx Hy. unfold gray_of.
  destruct (getPixel_pix img x y 0 Hwf) as (_ & B0); [unfold inside, channels; lia|].
  destruct (getPixel_pix img x y 1 Hwf) as (_ & B1); [unfold inside, channels; lia|].
  destruct (getPixel_pix img x y 2 Hwf) as (_ & B2); [unfold inside, channels; lia|].
  rewrite Z.quot_div_nonneg by lia.
  split; [apply Z.div_pos; lia | apply Z.div_lt_upper_bound; lia].
Qed.

Lemma applyGrayscale_painted clicks st :
  wf (currentImage st) ->
  exists o st',
    applyGrayscale clicks st = Ok (o, st') /\
    (o = Completed ->
     painted (currentImage st) (currentImage st') (fun _ _ => true)
             (fun x y _ => gray_of (currentImage st) x y)).
Proof.
  intros Hwf. unfold applyGrayscale, grayscale_filter.
  cbv beta iota zeta delta [run_cancelable run_rows conclude filterName
    startMessage progressTotal rowBound updateInterval locals rowBody finish].
  set (msg := "Applying Grayscale filter... (Click Cancel to stop)"%string).
  set (p := prologue clicks (height (currentImage st)) msg st).
  assert (currentImage p = currentImage st) as Hp by apply prologue_images.
  rewrite Hp.
  destruct (in_place_rows clicks "Grayscale" (height (currentImage st)) 50
              grayscale_pixel (fun x y _ => gray_of (currentImage st) x y)
              (currentImage st) p Hwf Hp) as (o & st' & E & Ho).
  { intros x y im Hx Hy Hwfi Hw Hh Hs.
    apply (grayscale_pixel_updated (currentImage st)); assumption. }
  rewrite E. simpl. destruct o.
  - eexists Completed, _. split; [reflexivity|]. intros _. exact (Ho eq_refl).
  - eexists Cancelled, _. split; [reflexivity | discriminate].
Qed.

Lemma blackAndWhite_pixel_updated img0 im x y :
  wf im -> width im = width img0 -> height im = height img0 ->
  0 <= x < width img0 -> 0 <= y < height img0 ->
  (forall c, 0 <= c < channels -> pix im x y c = pix img0 x y c) ->
  exists im', blackAndWhite_pixel y x im = Ok im' /\
    updated im im' x y (fun _ => true) (fun _ => bw_of img0 x y).
Proof.
  intros Hwf Hw Hh Hx Hy Hsame. unfold blackAndWhite_pixel.
  assert (forall c, 0 <= c < channels -> inside im x y c) as Hin.
  { intros c Hc. unfold inside. rewrite Hw, Hh. auto. }
  destruct (getPixel_pix im x y 0 Hwf) as (-> & B0); [apply Hin; unfold channels; lia|].
  destruct (getPixel_pix im x y 1 Hwf) as (-> & B1); [apply Hin; unfold channels; lia|].
  destruct (getPixel_pix im x y 2 Hwf) as (-> & B2); [apply Hin; unfold channels; lia|].
  simpl. rewrite !Hsame by (unfold channels; lia).
  fold (gray_of img0 x y). fold (bw_of img0 x y).
  destruct (set3_updated im x y (bw_of img0 x y) (bw_of img0 x y) (bw_of img0 x y) Hwf)
    as (im' & E & U); [lia | lia |].
  exists im'. split; [exact E|].
  eapply updated_ext; [exact U | reflexivity |].
  intros c _ _. unfold rgb.
  assert (bw_of img0 x y mod 256 = bw_of img0 x y) as ->.
  { unfold bw_of. destruct (127 <? _); reflexivity. }
  destruct (c =? 0), (c =? 1); reflexivity.
Qed.

Lemma applyBlackAndWhite_painted clicks st :
  wf (currentImage st) ->
  exists o st',
    applyBlackAndWhite clicks st = Ok (o, st') /\
    (o = Completed ->
     painted (currentImage st) (currentImage st') (fun _ _ => true)
             (fun x y _ => bw_of (currentImage st) x y)).
Proof.
  intros Hwf. unfold applyBlackAndWhite, blackAndWhite_filter.
  cbv beta iota zeta delta [run_cancelable run_rows conclude filterName
    startMessage progressTotal rowBound updateInterval locals rowBody finish].
  set (msg := "Applying Black & White filter... (Click Cancel to stop)"%string).
  set (p := prologue clicks (height (currentImage st)) msg st).
  assert (currentImage p = currentImage st) as Hp by apply prologue_images.
  rewrite Hp.
  destruct (in_place_rows clicks "Black & White" (height (currentImage st)) 50
              blackAndWhite_pixel (fun x y _ => bw_of (currentImage st) x y)
              (currentImage st) p Hwf Hp) as (o & st' & E & Ho).
  { intros x y im Hx Hy Hwfi Hw Hh Hs.
    apply (blackAndWhite_pixel_updated (currentImage st)); assumption. }
  rewrite E. simpl. destruct o.
  - eexists Completed, _. split; [reflexivity|]. intros _. exact (Ho eq_refl).
  - eexists Cancelled, _. split; [reflexivity | discriminate].
Qed.

(** Two painted buffers over the same original with the same values are
    equal. *)
Lemma painted_all_eq img0 img1 a b F G :
  painted img0 a (fun _ _ => true) F ->
  painted img1 b (fun _ _ => true) G ->
  width img0 = width img1 -> height img0 = height img1 ->
  (forall x y c, inside img0 x y c -> F x y c = G x y c) ->
  a = b.
Proof.
  intros (Hwa & Hw1 & Hh1 & Hp1) (Hwb & Hw2 & Hh2 & Hp2) Hw Hh HFG.
  apply image_ext; [exact Hwa | exact Hwb | congruence | congruence |].
  intros x y c Hin.
  assert (inside img0 x y c) as H0 by (unfold inside in *; rewrite <- Hw1, <- Hh1; exact Hin).
  assert (inside img1 x y c) as H1 by (unfold inside in *; rewrite <- Hw, <- Hh; exact H0).
  rewrite (Hp1 _ _ _ H0), (Hp2 _ _ _ H1). apply HFG. exact H0.
Qed.


Lemma gray_of_gray img0 img x y :
  (forall c, 0 <= c < channels -> pix img x y c = gray_of img0 x y) ->
  0 <= gray_of img0 x y ->
  gray_of img x y = gray_of img0 x y.
Proof.
  intros H Hn. unfold gray_of at 1. rewrite !H by (unfold channels; lia).
  replace (gray_of img0 x y + gray_of img0 x y + gray_of img0 x y)
    with (gray_of img0 x y * 3) by lia.
  apply Z.quot_mul. lia.
Qed.

(** X2. Grayscale is idempotent: a second completed [applyGrayscale]
    leaves the buffer the first one produced. *)
Theorem applyGrayscale_idempotent clicks1 clicks2 st st1 st1' st2 :
  wf (currentImage st) ->
  applyGrayscale clicks1 st = Ok (Completed, st1) ->
  currentImage st1' = currentImage st1 ->
  applyGrayscale clicks2 st1' = Ok (Completed, st2) ->
  currentImage st2 = currentImage st1.
Proof.
  intros Hwf E1 Hcur E2.
  destruct (applyGrayscale_painted clicks1 st Hwf) as (o & s1 & E & P1).
  rewrite E1 in E. injection E as <- <-. specialize (P1 eq_refl).
  pose proof P1 as (Hwf1 & Hw1 & Hh1 & Hp1).
  rewrite <- Hcur in *.
  destruct (applyGrayscale_painted clicks2 st1' Hwf1) as (o & s2 & E & P2).
  rewrite E2 in E. injection E as <- <-. specialize (P2 eq_refl).
  destruct P2 as (Hwf2 & Hw2 & Hh2 & Hp2).
  apply image_ext; [exact Hwf2 | exact Hwf1 | exact Hw2 | exact Hh2 |].
  intros x y c Hin.
  assert (inside (currentImage st1') x y c) as Hin1
    by (unfold inside in *; rewrite <- Hw2, <- Hh2; exact Hin).
  assert (inside (currentImage st) x y c) as Hin0
    by (unfold inside in *; rewrite <- Hw1, <- Hh1; exact Hin1).
  rewrite (Hp2 _ _ _ Hin1), (Hp1 _ _ _ Hin0).
  destruct Hin0 as (Hx & Hy & _).
  apply gray_of_gray; [|apply gray_of_byte; assumption].
  intros k Hk. apply Hp1. unfold inside. auto.
Qed.

Lemma applyGrayscale_idempotent_witness :
  exists st1 st2,
    applyGrayscale quiet (fresh_state quad) = Ok (Completed, st1) /\
    applyGrayscale quiet st1 = Ok (Completed, st2) /\
    currentImage st2 = currentImage st1.
Proof.
  assert (exists st1 st2,
            applyGrayscale quiet (fresh_state quad) = Ok (Completed, st1) /\
            applyGrayscale quiet st1 = Ok (Completed, st2)) as (st1 & st2 & E1 & E2).
  { eexists _, _. split; vm_compute; reflexivity. }
  exists st1, st2. split; [exact E1|]. split; [exact E2|].
  apply (applyGrayscale_idempotent quiet quiet (fresh_state quad) st1 st1 st2);
    [wf_concrete | exact E1 | reflexivity | exact E2].
Defined.

(** X3. Black-and-white after grayscale is black-and-white: thresholding
    the grayscale buffer gives the buffer that thresholding the original
    gives. *)
Theorem blackAndWhite_after_grayscale clicks1 clicks2 clicks3 st st1 st1' st2 st3 :
  wf (currentImage st) ->
  applyGrayscale clicks1 st = Ok (Completed, st1) ->
  currentImage st1' = currentImage st1 ->
  applyBlackAndWhite clicks2 st1' = Ok (Completed, st2) ->
  applyBlackAndWhite clicks3 st = Ok (Completed, st3) ->
  currentImage st2 = currentImage st3.
Proof.
  intros Hwf E1 Hcur E2 E3.
  destruct (applyGrayscale_painted clicks1 st Hwf) as (o & s1 & E & P1).
  rewrite E1 in E. injection E as <- <-. specialize (P1 eq_refl).
  pose proof P1 as (Hwf1 & Hw1 & Hh1 & Hp1).
  rewrite <- Hcur in *.
  destruct (applyBlackAndWhite_painted clicks2 st1' Hwf1) as (o & s2 & E & P2).
  rewrite E2 in E. injection E as <- <-. specialize (P2 eq_refl).
  destruct (applyBlackAndWhite_painted clicks3 st Hwf) as (o & s3 & E & P3).
  rewrite E3 in E. injection E as <- <-. specialize (P3 eq_refl).
  apply (painted_all_eq _ _ _ _ _ _ P2 P3 Hw1 Hh1).
  intros x y c Hin.
  assert (inside (currentImage st) x y c) as Hin0
    by (unfold inside in *; rewrite <- Hw1, <- Hh1; exact Hin).
  destruct Hin0 as (Hx & Hy & Hc).
  unfold bw_of.
  assert (gray_of (currentImage st1') x y = gray_of (currentImage st) x y) as ->;
    [|reflexivity].
  apply gray_of_gray; [|apply gray_of_byte; assumption].
  intros k Hk. apply Hp1. unfold inside. auto.
Qed.

Lemma blackAndWhite_after_grayscale_witness :
  exists st1 st2 st3,
    applyGrayscale quiet (fresh_state quad) = Ok (Completed, st1) /\
    applyBlackAndWhite quiet st1 = Ok (Completed, st2) /\
    applyBlackAndWhite quiet (fresh_state quad) = Ok (Completed, st3) /\
    currentImage st2 = currentImage st3.
Proof.
  assert (exists st1 st2 st3,
            applyGrayscale quiet (fresh_state quad) = Ok (Completed, st1) /\
            applyBlackAndWhite quiet st1 = Ok (Completed, st2) /\
            applyBlackAndWhite quiet (fresh_state quad) = Ok (Completed, st3))
    as (st1 & st2 & st3 & E1 & E2 & E3).
  { eexists _, _, _. split; [|split]; vm_compute; reflexivity. }
  exists st1, st2, st3. split; [exact E1|]. split; [exact E2|]. split; [exact E3|].
  apply (blackAndWhite_after_grayscale quiet quiet quiet (fresh_state quad)
           st1 st1 st2 st3); [wf_concrete | exact E1 | reflexivity | exact E2 | exact E3].
Defined.

(** ** When a cancellation can be seen *)

Lemma in_place_control step y st l st' l' :
  in_place step y st l = Ok (st', l') ->
  self st' = self st /\ cancelRequested st' = cancelRequested st /\
  eventRound st' = eventRound st.
Proof.
  unfold in_place. destruct (step y (currentImage st)); simpl; [|discriminate].
  intros [= <- _]. auto.
Qed.

Lemma into_local_control step y st l st' l' :
  into_local step y st l = Ok (st', l') ->
  self st' = self st /\ cancelRequested st' = cancelRequested st /\
  eventRound st' = eventRound st.
Proof.
  unfold into_local. destruct (step (currentImage st) y l); simpl; [|discriminate].
  intros [= <- _]. auto.
Qed.

(** The rows of a filter touch neither the engine nor the token. *)
Lemma rowBody_control flt y st l st' l' :
  rowBody (filter_of flt) y st l = Ok (st', l') ->
  self st' = self st /\ cancelRequested st' = cancelRequested st /\
  eventRound st' = eventRound st.
Proof.
  destruct flt; simpl;
    first [apply in_place_control | apply into_local_control].
Qed.

Lemma showMessage_has_bar msg f : has_bar (showMessage msg f) = has_bar f.
Proof. unfold showMessage, has_bar. destruct (statusBar f); reflexivity. Qed.

Lemma startProgress_has_bar t f : has_bar (startProgress t f) = has_bar f.
Proof. unfold startProgress, has_bar. destruct (progressBar f) eqn:E; simpl; rewrite ?E; reflexivity. Qed.

Lemma setProgressValue_has_bar v f : has_bar (setProgressValue v f) = has_bar f.
Proof. unfold setProgressValue, has_bar. destruct (progressBar f) eqn:E; simpl; rewrite ?E; reflexivity. Qed.

Lemma processEvents_has_bar clicks st :
  has_bar (self (processEvents clicks st)) = has_bar (self st).
Proof.
  unfold processEvents, cancelFilter.
  destruct (clicks (eventRound st)); simpl; [apply showMessage_has_bar | reflexivity].
Qed.

(** Whether the engine has a progress bar never changes. *)
Lemma updateProgress_has_bar clicks v t i st :
  has_bar (self (updateProgress clicks v t i st)) = has_bar (self st).
Proof.
  unfold updateProgress.
  destruct (progressBar (self st)); [|reflexivity].
  destruct (Z.rem v i =? 0); rewrite ?processEvents_has_bar; simpl;
    apply setProgressValue_has_bar.
Qed.

Lemma prologue_has_bar clicks t msg st :
  has_bar (self (prologue clicks t msg st)) = has_bar (self st).
Proof.
  unfold prologue. rewrite processEvents_has_bar. simpl.
  rewrite showMessage_has_bar. apply startProgress_has_bar.
Qed.

(** What one [updateProgress] can do to the token. *)
Lemma updateProgress_token clicks v t i st :
  cancelRequested st = false ->
  cancelRequested (updateProgress clicks v t i st) = true ->
  Z.rem v i = 0 /\ has_bar (self st) = true /\ clicks (eventRound st) = true.
Proof.
  unfold updateProgress, has_bar. intros Hc.
  destruct (progressBar (self st)); [|congruence].
  destruct (Z.rem v i =? 0) eqn:E; [|simpl; congruence].
  unfold processEvents. simpl.
  destruct (clicks (eventRound st)); simpl; [|congruence].
  intros _. apply Z.eqb_eq in E. auto.
Qed.

Lemma cancelable_loop_has_bar {L : Type} clicks name total interval
    (row : Z -> State -> L -> result (State * L)) (n : nat) :
  (forall y st l st' l', row y st l = Ok (st', l') -> self st' = self st) ->
  forall y st l st' l',
    cancelable_loop clicks name total interval row n y st l = Ok (Completed, st', l') ->
    has_bar (self st') = has_bar (self st).
Proof.
  intros Hrow. induction n as [|n IH]; intros y st l st' l'; simpl.
  - intros [= <- _]. reflexivity.
  - destruct (cancelRequested st); [discriminate|].
    destruct (row y st l) as [[s1 l1]|f] eqn:E; simpl; [|discriminate].
    intros H. apply IH in H. rewrite H, updateProgress_has_bar.
    f_equal. eapply Hrow. exact E.
Qed.

(** X4. Cancellation is seen only at the polls that follow an event round:
    if a run has processed the rows [0 .. y - 1] ([y >= 1]) and the poll at
    the head of row [y] finds the token set, then [y] is a multiple of the
    filter's update interval and the engine has a progress bar. *)
Theorem cancellation_granularity
    (flt : CancelableFilter) clicks st y st_y (l_y : locals_of flt) :
  1 <= y ->
  run_until (filter_of flt) clicks y st = Ok (Completed, st_y, l_y) ->
  cancelRequested st_y = true ->
  Z.rem y (updateInterval (filter_of flt)) = 0 /\
  progressBar (self st) <> None.
Proof.
  intros Hy Hrun Hc. unfold run_until, run_rows in Hrun.
  set (F := filter_of flt) in *.
  set (p := prologue clicks (progressTotal F (currentImage st)) (startMessage F) st) in *.
  replace (Z.to_nat y) with (Z.to_nat (y - 1) + 1)%nat in Hrun by lia.
  rewrite cancelable_loop_split in Hrun.
  apply bind_Ok in Hrun. destruct Hrun as ([[o s1] l1] & Ha & Hb).
  destruct o; [|discriminate].
  simpl in Hb. destruct (cancelRequested s1) eqn:Hc1; [discriminate|].
  destruct (rowBody F (0 + Z.of_nat (Z.to_nat (y - 1))) s1 l1) as [[s2 l2]|f] eqn:E;
    simpl in Hb; [|discriminate].
  injection Hb as Hst _. subst st_y.
  destruct (rowBody_control flt _ _ _ _ _ E) as (Hs & Ht & _).
  apply updateProgress_token in Hc; [|congruence].
  destruct Hc as (Hrem & Hbar & _).
  split.
  - replace (0 + Z.of_nat (Z.to_nat (y - 1)) + 1) with y in Hrem by lia. exact Hrem.
  - rewrite Hs in Hbar.
    rewrite (cancelable_loop_has_bar clicks _ _ _ (rowBody F) _
               (fun y0 s l s' l' H => proj1 (rowBody_control flt y0 s l s' l' H))
               _ _ _ _ _ Ha) in Hbar.
    unfold p in Hbar. rewrite prologue_has_bar in Hbar.
    unfold has_bar in Hbar. destruct (progressBar (self st)); [discriminate|discriminate].
Qed.

Lemma cancellation_granularity_witness :
  exists st_y,
    run_until (filter_of Grayscale) (click_at 1) 50
      (fresh_state (solid 1 51 100 150 200)) = Ok (Completed, st_y, tt) /\
    cancelRequested st_y = true /\
    Z.rem 50 (updateInterval (filter_of Grayscale)) = 0 /\
    progressBar (self (fresh_state (solid 1 51 100 150 200))) <> None.
Proof.
  assert (exists st_y,
            run_until (filter_of Grayscale) (click_at 1) 50
              (fresh_state (solid 1 51 100 150 200)) = Ok (Completed, st_y, tt) /\
            cancelRequested st_y = true) as (st_y & H & Hc).
  { vm_compute. eexists. split; reflexivity. }
  exists st_y. split; [exact H|]. split; [exact Hc|].
  apply (cancellation_granularity Grayscale (click_at 1)
           (fresh_state (solid 1 51 100 150 200)) 50 st_y tt); [lia | exact H | exact Hc].
Defined.

Lemma cancelable_loop_no_bar {L : Type} clicks name total interval
    (row : Z -> State -> L -> result (State * L)) (n : nat) :
  (forall y st l st' l', row y st l = Ok (st', l') ->
     self st' = self st /\ cancelRequested st' = cancelRequested st) ->
  forall y st l o st' l',
    has_bar (self st) = false -> cancelRequested st = false ->
    cancelable_loop clicks name total interval row n y st l = Ok (o, st', l') ->
    o = Completed.
Proof.
  intros Hrow. induction n as [|n IH]; intros y st l o st' l' Hb Hc; simpl.
  - intros [= <- _ _]. reflexivity.
  - rewrite Hc. destruct (row y st l) as [[s1 l1]|f] eqn:E; simpl; [|discriminate].
    destruct (Hrow _ _ _ _ _ E) as (Hs & Ht).
    assert (updateProgress clicks (y + 1) total interval s1 = s1) as ->.
    { unfold updateProgress. unfold has_bar in Hb. rewrite Hs.
      destruct (progressBar (self st)); [discriminate | reflexivity]. }
    apply IH; congruence.
Qed.

(** X5. An engine without a progress bar cannot be cancelled once the
    filter has started: when no click arrives in the event round before
    the loop, every run that returns has run to its end, whatever clicks
    follow. *)
Theorem no_progress_bar_no_cancellation
    (flt : CancelableFilter) clicks st o st' :
  progressBar (self st) = None ->
  cancelRequested st = false ->
  clicks (eventRound st) = false ->
  apply_filter flt clicks st = Ok (o, st') ->
  o = Completed.
Proof.
  intros Hb Hc Hk. rewrite apply_filter_run.
  unfold run_cancelable, run_rows.
  set (F := filter_of flt).
  set (p := prologue clicks (progressTotal F (currentImage st)) (startMessage F) st).
  intros H. apply bind_Ok in H. destruct H as ([[o1 s1] l1] & Hl & Hcc).
  assert (o1 = Completed) as ->.
  { eapply (cancelable_loop_no_bar clicks _ _ _ (rowBody F)); [| | |exact Hl].
    - intros y0 s l s' l' E. destruct (rowBody_control flt _ _ _ _ _ E) as (? & ? & _). auto.
    - unfold p. rewrite prologue_has_bar. unfold has_bar. rewrite Hb. reflexivity.
    - unfold p, prologue, processEvents. simpl. rewrite Hk. simpl. exact Hc. }
  simpl in Hcc. injection Hcc as <- _. reflexivity.
Qed.

Lemma no_progress_bar_no_cancellation_witness :
  exists st',
    apply_filter Grayscale (click_at 1)
      (mkState headless (solid 1 51 100 150 200) (solid 1 51 100 150 200) false 0)
    = Ok (Completed, st').
Proof.
  assert (exists o st',
            apply_filter Grayscale (click_at 1)
              (mkState headless (solid 1 51 100 150 200) (solid 1 51 100 150 200)
                       false 0) = Ok (o, st')) as (o & st' & E).
  { vm_compute. eexists _, _. reflexivity. }
  exists st'.
  rewrite <- (no_progress_bar_no_cancellation Grayscale (click_at 1)
                (mkState headless (solid 1 51 100 150 200) (solid 1 51 100 150 200)
                         false 0) o st' eq_refl eq_refl eq_refl E).
  exact E.
Defined.

(** ** Loop nests that move pixels *)

(** A loop nest run with an invariant on the set of index pairs it has
    been through. *)
Lemma nest_inv (Inv : (Z -> Z -> bool) -> Image -> Prop)
    (body : Z -> Z -> Image -> result Image) a0 a1 b0 b1 img :
  a0 <= a1 -> b0 <= b1 ->
  (forall D D' im,
     (forall a b, in_rect a0 a1 b0 b1 a b = true -> D a b = D' a b) ->
     Inv D im -> Inv D' im) ->
  Inv (fun _ _ => false) img ->
  (forall D a b im, a0 <= a < a1 -> b0 <= b < b1 -> D a b = false ->
     Inv D im ->
     exists im', body a b im = Ok im' /\
                 Inv (fun a' b' => D a' b' || ((a' =? a) && (b' =? b))) im') ->
  exists img',
    for_range a0 a1 (fun a im => for_range b0 b1 (fun b im => body a b im) im) img
      = Ok img' /\
    Inv (fun _ _ => true) img'.
Proof.
  intros Ha Hb Hext H0 Hstep.
  destruct (for_range_inv (fun a im => Inv (in_rect a0 a b0 b1) im)
              (fun a im => for_range b0 b1 (fun b im => body a b im) im)
              a0 a1 img Ha) as (img' & E & HI).
  - eapply Hext; [|exact H0]. intros a b _. unfold in_rect. zbool; try lia; reflexivity.
  - intros a im Hra HI.
    destruct (for_range_inv (fun b im => Inv (visited a0 b0 b1 a b) im)
                (fun b im => body a b im) b0 b1 im Hb) as (im' & E & HI').
    + eapply Hext; [|exact HI]. intros a' b' _. unfold visited, in_rect.
      zbool; try lia; reflexivity.
    + intros b im1 Hrb HI1.
      assert (visited a0 b0 b1 a b a b = false) as Hv.
      { unfold visited, in_rect. zbool; try lia; reflexivity. }
      destruct (Hstep _ a b im1 Hra Hrb Hv HI1) as (im2 & E2 & HI2).
      exists im2. split; [exact E2|].
      eapply Hext; [|exact HI2]. intros a' b' _. unfold visited, in_rect.
      zbool; try lia; reflexivity.
    + exists im'. split; [exact E|].
      eapply Hext; [|exact HI']. intros a' b' _. unfold visited, in_rect.
      zbool; try lia; reflexivity.
  - exists img'. split; [exact E|].
    eapply Hext; [|exact HI]. intros a b Hr. rewrite Hr. reflexivity.
Qed.

(** A nest whose body at [(a, b)] writes the pixel [(px a b, py a b)] of
    the buffer, the positions being all different: [ia], [ib] recover the
    index pair from the position. *)
Lemma scatter_painted (body : Z -> Z -> Image -> result Image)
    (px py ia ib : Z -> Z -> Z) F a0 a1 b0 b1 out0 :
  wf out0 -> a0 <= a1 -> b0 <= b1 ->
  (forall a b, a0 <= a < a1 -> b0 <= b < b1 ->
     ia (px a b) (py a b) = a /\ ib (px a b) (py a b) = b) ->
  (forall a b im, a0 <= a < a1 -> b0 <= b < b1 -> wf im ->
     width im = width out0 -> height im = height out0 ->
     exists im', body a b im = Ok im' /\
       updated im im' (px a b) (py a b) (fun _ => true) (F (px a b) (py a b))) ->
  exists out,
    for_range a0 a1 (fun a im => for_range b0 b1 (fun b im => body a b im) im) out0
      = Ok out /\
    painted out0 out
      (fun x y => in_rect a0 a1 b0 b1 (ia x y) (ib x y)
                  && (px (ia x y) (ib x y) =? x) && (py (ia x y) (ib x y) =? y))
      F.
Proof.
  intros Hwf Ha Hb Hinv Hstep.
  destruct (nest_inv
    (fun D im => painted out0 im
       (fun x y => in_rect a0 a1 b0 b1 (ia x y) (ib x y) && D (ia x y) (ib x y)
                   && (px (ia x y) (ib x y) =? x) && (py (ia x y) (ib x y) =? y)) F)
    body a0 a1 b0 b1 out0 Ha Hb) as (out & E & HP).
  - intros D D' im HD HP. eapply painted_ext; [exact HP|].
    intros x y _ _. cbv beta.
    destruct (in_rect a0 a1 b0 b1 (ia x y) (ib x y)) eqn:Er; [|reflexivity].
    rewrite (HD _ _ Er). reflexivity.
  - apply painted_refl; [exact Hwf|]. intros x y _ _. cbv beta.
    rewrite andb_false_r. reflexivity.
  - intros D a b im Hra Hrb HD (Hwfi & Hw & Hh & Hp).
    destruct (Hstep a b im Hra Hrb Hwfi Hw Hh) as (im' & E & Hwf' & Hw' & Hh' & Hp').
    exists im'. split; [exact E|]. unfold painted.
    split; [exact Hwf'|]. split; [congruence|]. split; [congruence|].
    intros x y c Hin.
    rewrite Hp' by (unfold inside in *; rewrite Hw, Hh; exact Hin).
    rewrite (Hp _ _ _ Hin).
    destruct (Hinv a b Hra Hrb) as (Hia & Hib).
    destruct ((x =? px a b) && (y =? py a b)) eqn:Exy; simpl.
    + apply andb_true_iff in Exy. destruct Exy as (Ex & Ey).
      apply Z.eqb_eq in Ex, Ey. subst x y. rewrite Hia, Hib.
      unfold in_rect. rewrite !Z.eqb_refl.
      replace (a0 <=? a) with true by (symmetry; apply Z.leb_le; lia).
      replace (a <? a1) with true by (symmetry; apply Z.ltb_lt; lia).
      replace (b0 <=? b) with true by (symmetry; apply Z.leb_le; lia).
      replace (b <? b1) with true by (symmetry; apply Z.ltb_lt; lia).
      rewrite orb_true_r. reflexivity.
    + destruct ((ia x y =? a) && (ib x y =? b)) eqn:Eab.
      * apply andb_true_iff in Eab. destruct Eab as (Ea & Eb).
        apply Z.eqb_eq in Ea, Eb. rewrite Ea, Eb.
        assert ((px a b =? x) && (py a b =? y) = false) as Hno.
        { rewrite (Z.eqb_sym (px a b)), (Z.eqb_sym (py a b)). exact Exy. }
        apply andb_false_iff in Hno.
        destruct Hno as [-> | ->]; rewrite ?andb_false_r; reflexivity.
      * rewrite orb_false_r. reflexivity.
  - exists out. split; [exact E|]. eapply painted_ext; [exact HP|].
    intros x y _ _. cbv beta. rewrite andb_true_r. reflexivity.
Qed.

Lemma for_range_3 {S : Type} (body : Z -> S -> result S) (s : S) :
  for_range 0 3 body s =
  (s1 <- body 0 s ;; s2 <- body 1 s1 ;; body 2 s2).
Proof.
  unfold for_range. change (Z.to_nat (3 - 0)) with 3%nat. cbn [for_loop].
  change (0 + 1 + 1) with 2. change (0 + 1) with 1.
  destruct (body 0 s) as [s1|]; simpl; [|reflexivity].
  destruct (body 1 s1) as [s2|]; simpl; [|reflexivity].
  destruct (body 2 s2); reflexivity.
Qed.

Lemma byte_mod v : 0 <= v < 256 -> v mod 256 = v.
Proof. intros H. apply Z.mod_small. exact H. Qed.

(** Copying one pixel of [src] to a position of [dst]. *)
Lemma copy_to_updated src x y X Y dst :
  wf src -> wf dst ->
  0 <= x < width src -> 0 <= y < height src ->
  0 <= X < width dst -> 0 <= Y < height dst ->
  exists dst', copy_to src x y X Y dst = Ok dst' /\
    updated dst dst' X Y (fun _ => true) (fun c => pix src x y c).
Proof.
  intros Hws Hwd Hx Hy HX HY. unfold copy_to. rewrite for_range_3.
  assert (0 <= 0 < channels /\ 0 <= 1 < channels /\ 0 <= 2 < channels)
    as (C0 & C1 & C2) by (unfold channels; lia).
  destruct (getPixel_pix src x y 0 Hws) as (-> & A0); [unfold inside; auto|].
  destruct (getPixel_pix src x y 1 Hws) as (-> & A1); [unfold inside; auto|].
  destruct (getPixel_pix src x y 2 Hws) as (-> & A2); [unfold inside; auto|].
  simpl.
  destruct (set3_updated dst X Y (pix src x y 0) (pix src x y 1) (pix src x y 2)
              Hwd HX HY) as (dst' & E & U).
  unfold set3 in E. exists dst'. split; [exact E|].
  eapply updated_ext; [exact U | reflexivity |].
  intros c Hc _. unfold channels in Hc. rewrite !byte_mod by assumption.
  assert (c = 0 \/ c = 1 \/ c = 2) as [-> | [-> | ->]] by lia; reflexivity.
Qed.

(** ** Swapping pixels *)

(** [img'] is [img] with the pixels [(x, y)] and [(x2, y2)] exchanged on
    the channels below [n]. *)
Lemma swap_channel_updated img x y x2 y2 c :
  wf img -> inside img x y c -> inside img x2 y2 c ->
  (x <> x2 \/ y <> y2) ->
  exists img',
    (temp <- getPixel img x y c ;;
     v <- getPixel img x2 y2 c ;;
     img1 <- setPixel img x y c v ;;
     setPixel img1 x2 y2 c temp) = Ok img' /\
    wf img' /\ width img' = width img /\ height img' = height img /\
    forall x' y' c', inside img x' y' c' ->
      pix img' x' y' c' =
        if (c' =? c) && (x' =? x) && (y' =? y) then pix img x2 y2 c
        else if (c' =? c) && (x' =? x2) && (y' =? y2) then pix img x y c
        else pix img x' y' c'.
Proof.
  intros Hwf H1 H2 Hne.
  destruct (getPixel_pix img x y c Hwf H1) as (-> & B1).
  destruct (getPixel_pix img x2 y2 c Hwf H2) as (-> & B2).
  simpl.
  destruct (setPixel_updated img x y c (pix img x2 y2 c) Hwf H1)
    as (i1 & E1 & Hwf1 & Hw1 & Hh1 & Hp1).
  rewrite E1. simpl.
  destruct (setPixel_updated i1 x2 y2 c (pix img x y c) Hwf1)
    as (i2 & E2 & Hwf2 & Hw2 & Hh2 & Hp2).
  { unfold inside in *. rewrite Hw1, Hh1. exact H2. }
  exists i2. split; [exact E2|]. split; [exact Hwf2|].
  split; [congruence|]. split; [congruence|].
  intros x' y' c' Hin.
  rewrite Hp2 by (unfold inside in *; rewrite Hw1, Hh1; exact Hin).
  rewrite (Hp1 _ _ _ Hin). rewrite !byte_mod by assumption.
  zbool; subst; try lia; reflexivity.
Qed.

Lemma swap_pixels_updated img x y x2 y2 :
  wf img ->
  0 <= x < width img -> 0 <= y < height img ->
  0 <= x2 < width img -> 0 <= y2 < height img ->
  (x <> x2 \/ y <> y2) ->
  exists img',
    swap_pixels x y x2 y2 img = Ok img' /\
    wf img' /\ width img' = width img /\ height img' = height img /\
    forall x' y' c', inside img x' y' c' ->
      pix img' x' y' c' =
        if (x' =? x) && (y' =? y) then pix img x2 y2 c'
        else if (x' =? x2) && (y' =? y2) then pix img x y c'
        else pix img x' y' c'.
Proof.
  intros Hwf Hx Hy Hx2 Hy2 Hne. unfold swap_pixels. rewrite for_range_3.
  assert (0 <= 0 < channels /\ 0 <= 1 < channels /\ 0 <= 2 < channels)
    as (C0 & C1 & C2) by (unfold channels; lia).
  destruct (swap_channel_updated img x y x2 y2 0 Hwf)
    as (i1 & E1 & Hwf1 & Hw1 & Hh1 & Hp1);
    try solve [unfold inside; auto]; try exact Hne.
  rewrite E1. simpl.
  destruct (swap_channel_updated i1 x y x2 y2 1 Hwf1)
    as (i2 & E2 & Hwf2 & Hw2 & Hh2 & Hp2);
    try solve [unfold inside; rewrite Hw1, Hh1; auto]; try exact Hne.
  rewrite E2. simpl.
  destruct (swap_channel_updated i2 x y x2 y2 2 Hwf2)
    as (i3 & E3 & Hwf3 & Hw3 & Hh3 & Hp3);
    try solve [unfold inside; rewrite Hw2, Hh2, Hw1, Hh1; auto]; try exact Hne.
  exists i3. split; [exact E3|]. split; [exact Hwf3|].
  split; [congruence|]. split; [congruence|].
  intros x' y' c' Hin.
  assert (forall a b k, inside img a b k -> inside i1 a b k) as I1
    by (intros a b k; unfold inside; rewrite Hw1, Hh1; auto).
  assert (forall a b k, inside img a b k -> inside i2 a b k) as I2
    by (intros a b k; unfold inside; rewrite Hw2, Hh2, Hw1, Hh1; auto).
  assert (forall k, 0 <= k < channels -> inside img x y k) as Ia
    by (intros k Hk; unfold inside; auto).
  assert (forall k, 0 <= k < channels -> inside img x2 y2 k) as Ib
    by (intros k Hk; unfold inside; auto).
  rewrite (Hp3 _ _ _ (I2 _ _ _ Hin)).
  rewrite !(Hp2 _ _ _ (I1 _ _ _ Hin)), (Hp2 _ _ _ (I1 _ _ _ (Ia 2 C2))),
          (Hp2 _ _ _ (I1 _ _ _ (Ib 2 C2))).
  rewrite !(Hp1 _ _ _ Hin), (Hp1 _ _ _ (Ia 2 C2)), (Hp1 _ _ _ (Ib 2 C2)),
          (Hp1 _ _ _ (Ia 1 C1)), (Hp1 _ _ _ (Ib 1 C1)).
  destruct Hin as (_ & _ & Hc). unfold channels in Hc.
  assert (c' = 0 \/ c' = 1 \/ c' = 2) as [-> | [-> | ->]] by lia;
    simpl; zbool; subst; try lia; reflexivity.
Qed.

(** A nest, rows outside, that exchanges each pixel [(x, y)] of the
    rectangle [x < x1], [y < y1] with its image under a mirror map that
    sends the rectangle outside itself: in the end the rectangle and its
    mirror image hold each other's original content. *)
Lemma swap_nest (sx sy : Z -> Z -> Z) x1 y1 img0 :
  wf img0 -> 0 <= x1 <= width img0 -> 0 <= y1 <= height img0 ->
  (forall x y, 0 <= x < width img0 -> 0 <= y < height img0 ->
     0 <= sx x y < width img0 /\ 0 <= sy x y < height img0 /\
     sx (sx x y) (sy x y) = x /\ sy (sx x y) (sy x y) = y) ->
  (forall x y, 0 <= x < x1 -> 0 <= y < y1 ->
     in_rect 0 y1 0 x1 (sy x y) (sx x y) = false) ->
  exists img',
    for_rect 0 x1 0 y1 (fun x y img => swap_pixels x y (sx x y) (sy x y) img) img0
      = Ok img' /\
    painted img0 img'
      (fun x y => in_rect 0 y1 0 x1 y x || in_rect 0 y1 0 x1 (sy x y) (sx x y))
      (fun x y c => pix img0 (sx x y) (sy x y) c).
Proof.
  intros Hwf Hx1 Hy1 Hinv Hout. unfold for_rect.
  set (R := in_rect 0 y1 0 x1).
  destruct (nest_inv
    (fun D im => painted img0 im
       (fun x y => R y x && D y x || R (sy x y) (sx x y) && D (sy x y) (sx x y))
       (fun x y c => pix img0 (sx x y) (sy x y) c))
    (fun y x img => swap_pixels x y (sx x y) (sy x y) img) 0 y1 0 x1 img0)
    as (img' & E & HP); try lia.
  - intros D D' im HD HP. eapply painted_ext; [exact HP|].
    intros x y _ _. cbv beta. fold R in HD.
    assert (forall a b, R a b && D a b = R a b && D' a b) as HR.
    { intros a b. destruct (R a b) eqn:Er; [|reflexivity]. rewrite (HD _ _ Er).
      reflexivity. }
    rewrite !HR. reflexivity.
  - apply painted_refl; [exact Hwf|]. intros x y _ _. cbv beta.
    rewrite !andb_false_r. reflexivity.
  - intros D y x im Hry Hrx HD (Hwfi & Hw & Hh & Hp).
    assert (0 <= x < width img0 /\ 0 <= y < height img0) as (Hx & Hy) by lia.
    destruct (Hinv x y Hx Hy) as (Hsx & Hsy & Hix & Hiy).
    pose proof (Hout x y Hrx Hry) as Ho. fold R in Ho.
    assert (R y x = true) as Hr.
    { unfold R, in_rect. zbool; try lia; reflexivity. }
    assert (sx x y <> x \/ sy x y <> y) as Hne.
    { destruct (Z.eq_dec (sx x y) x) as [e1|]; [|auto].
      destruct (Z.eq_dec (sy x y) y) as [e2|]; [|auto].
      rewrite e1, e2, Hr in Ho. discriminate. }
    destruct (swap_pixels_updated im x y (sx x y) (sy x y) Hwfi)
      as (im' & E & Hwf' & Hw' & Hh' & Hp'); try (rewrite ?Hw, ?Hh; lia).
    exists im'. split; [exact E|]. unfold painted.
    split; [exact Hwf'|]. split; [congruence|]. split; [congruence|].
    intros x' y' c' Hin.
    assert (inside im x' y' c') as Hin'
      by (unfold inside in *; rewrite Hw, Hh; exact Hin).
    rewrite (Hp' _ _ _ Hin').
    destruct Hin as (Hx' & Hy' & Hc').
    destruct (Hinv x' y' Hx' Hy') as (Hsx' & Hsy' & Hix' & Hiy').
    destruct ((x' =? x) && (y' =? y)) eqn:E1.
    + apply andb_true_iff in E1. destruct E1 as (e1 & e2).
      apply Z.eqb_eq in e1, e2. subst x' y'.
      rewrite Hp by (unfold inside; auto).
      rewrite Hix, Hiy, Ho, Hr, HD, !Z.eqb_refl. simpl. reflexivity.
    + destruct ((x' =? sx x y) && (y' =? sy x y)) eqn:E2.
      * apply andb_true_iff in E2. destruct E2 as (e1 & e2).
        apply Z.eqb_eq in e1, e2. subst x' y'.
        rewrite Hp by (unfold inside; auto).
        rewrite Hix, Hiy, Ho, Hr, HD, !Z.eqb_refl. simpl. reflexivity.
      * rewrite Hp by (unfold inside; auto).
        assert ((y' =? y) && (x' =? x) = false) as ->.
        { rewrite andb_comm. exact E1. }
        assert ((sy x' y' =? y) && (sx x' y' =? x) = false) as ->.
        { apply andb_false_iff.
          destruct (Z.eqb_spec (sy x' y') y) as [e1|]; [|auto].
          destruct (Z.eqb_spec (sx x' y') x) as [e2|]; [|auto].
          rewrite e1, e2 in Hix', Hiy'. rewrite <- Hix', <- Hiy', !Z.eqb_refl in E2.
          discriminate. }
        rewrite !orb_false_r. reflexivity.
  - exists img'. split; [exact E|]. eapply painted_ext; [exact HP|].
    intros x y _ _. cbv beta. rewrite !andb_true_r. reflexivity.
Qed.

(** ** Rotation *)

Lemma rotate_copy_nest junk img (nx ny ix iy : Z -> Z -> Z) :
  wf img ->
  (forall x y, 0 <= x < width img -> 0 <= y < height img ->
     0 <= nx x y < height img /\ 0 <= ny x y < width img /\
     ix (nx x y) (ny x y) = x /\ iy (nx x y) (ny x y) = y) ->
  (forall X Y, 0 <= X < height img -> 0 <= Y < width img ->
     0 <= ix X Y < width img /\ 0 <= iy X Y < height img /\
     nx (ix X Y) (iy X Y) = X /\ ny (ix X Y) (iy X Y) = Y) ->
  exists out,
    for_rect 0 (width img) 0 (height img)
      (fun x y out => copy_to img x y (nx x y) (ny x y) out)
      (newImage junk (height img) (width img)) = Ok out /\
    wf out /\ width out = height img /\ height out = width img /\
    forall X Y c, inside out X Y c -> pix out X Y c = pix img (ix X Y) (iy X Y) c.
Proof.
  intros Hwf Hfwd Hbwd. pose proof Hwf as (Hw & Hh & Hsz & _).
  assert (wf (newImage junk (height img) (width img))) as Hwf0.
  { apply newImage_wf; [exact Hh | exact Hw |].
    replace (height img * width img) with (width img * height img) by lia.
    exact Hsz. }
  unfold for_rect.
  destruct (scatter_painted
    (fun y x out => copy_to img x y (nx x y) (ny x y) out)
    (fun y x => nx x y) (fun y x => ny x y) (fun X Y => iy X Y) (fun X Y => ix X Y)
    (fun X Y c => pix img (ix X Y) (iy X Y) c)
    0 (height img) 0 (width img) _ Hwf0 Hh Hw)
    as (out & E & Hwfo & Hwo & Hho & Hp).
  - intros y x Hy Hx. destruct (Hfwd x y Hx Hy) as (_ & _ & H1 & H2). auto.
  - intros y x im Hy Hx Hwfi Hwi Hhi.
    destruct (Hfwd x y Hx Hy) as (HX & HY & H1 & H2).
    destruct (copy_to_updated img x y (nx x y) (ny x y) im Hwf Hwfi Hx Hy)
      as (im' & E & U).
    { rewrite Hwi. exact HX. } { rewrite Hhi. exact HY. }
    exists im'. split; [exact E|].
    eapply updated_ext; [exact U | reflexivity |].
    intros c _ _. cbv beta. rewrite H1, H2. reflexivity.
  - exists out. split; [exact E|]. split; [exact Hwfo|].
    simpl in Hwo, Hho. split; [exact Hwo|]. split; [exact Hho|].
    intros X Y c (HX & HY & Hc). rewrite Hwo in HX. rewrite Hho in HY.
    rewrite Hp by (unfold inside; simpl; auto).
    destruct (Hbwd X Y HX HY) as (Hix & Hiy & H1 & H2).
    unfold in_rect. rewrite H1, H2, !Z.eqb_refl.
    replace (0 <=? iy X Y) with true by (symmetry; apply Z.leb_le; lia).
    replace (iy X Y <? height img) with true by (symmetry; apply Z.ltb_lt; lia).
    replace (0 <=? ix X Y) with true by (symmetry; apply Z.leb_le; lia).
    replace (ix X Y <? width img) with true by (symmetry; apply Z.ltb_lt; lia).
    reflexivity.
Qed.

Lemma literals_differ : String.eqb literal_180 literal_90 = false.
Proof. vm_compute. reflexivity. Qed.

(** The first branch: the pixel at [(X, Y)] of the result comes from
    [(Y, height - 1 - X)]. *)
Lemma rotate90_spec f junk img :
  wf img ->
  exists f' img',
    applyRotate f junk img literal_90 = Ok (f', img') /\
    wf img' /\ width img' = height img /\ height img' = width img /\
    forall X Y c, inside img' X Y c ->
      pix img' X Y c = pix img Y (height img - 1 - X) c.
Proof.
  intros Hwf. unfold applyRotate. rewrite String.eqb_refl.
  destruct (rotate_copy_nest junk img (fun x y => height img - 1 - y) (fun x y => x)
              (fun X Y => Y) (fun X Y => height img - 1 - X) Hwf)
    as (out & E & H); [intros; lia | intros; lia |].
  rewrite E. simpl. eexists _, out. split; [reflexivity | exact H].
Qed.

(** The last branch: the pixel at [(X, Y)] of the result comes from
    [(width - 1 - Y, X)]. *)
Lemma rotate270_spec f junk img angle :
  String.eqb angle literal_90 = false ->
  String.eqb angle literal_180 = false ->
  wf img ->
  exists f' img',
    applyRotate f junk img angle = Ok (f', img') /\
    wf img' /\ width img' = height img /\ height img' = width img /\
    forall X Y c, inside img' X Y c ->
      pix img' X Y c = pix img (width img - 1 - Y) X c.
Proof.
  intros H90 H180 Hwf. unfold applyRotate. rewrite H90, H180.
  destruct (rotate_copy_nest junk img (fun x y => y) (fun x y => width img - 1 - x)
              (fun X Y => width img - 1 - Y) (fun X Y => X) Hwf)
    as (out & E & H); [intros; lia | intros; lia |].
  rewrite E. simpl. eexists _, out. split; [reflexivity | exact H].
Qed.

(** The middle branch: a point reflection of the rows above and below the
    middle; the middle row of a buffer of odd height is not touched. *)
Lemma rotate180_spec f junk img :
  wf img ->
  exists f' img',
    applyRotate f junk img literal_180 = Ok (f', img') /\
    wf img' /\ width img' = width img /\ height img' = height img /\
    forall x y c, inside img x y c ->
      pix img' x y c =
        if 2 * y + 1 =? height img then pix img x y c
        else pix img (width img - 1 - x) (height img - 1 - y) c.
Proof.
  intros Hwf. pose proof Hwf as (Hw & Hh & _).
  unfold applyRotate. rewrite literals_differ, String.eqb_refl.
  assert (0 <= Z.quot (height img) 2 <= height img /\
          2 * Z.quot (height img) 2 <= height img < 2 * Z.quot (height img) 2 + 2)
    as (Hq & Hq2).
  { rewrite Z.quot_div_nonneg by lia.
    pose proof (Z.div_mod (height img) 2 ltac:(lia)).
    pose proof (Z.mod_pos_bound (height img) 2 ltac:(lia)). lia. }
  destruct (swap_nest (fun x y => width img - 1 - x) (fun x y => height img - 1 - y)
              (width img) (Z.quot (height img) 2) img Hwf)
    as (img' & E & Hwf' & Hw' & Hh' & Hp); try lia.
  { intros x y Hx Hy. unfold in_rect. zbool; try lia; reflexivity. }
  rewrite E. simpl. eexists _, img'. split; [reflexivity|].
  split; [exact Hwf'|]. split; [exact Hw'|]. split; [exact Hh'|].
  intros x y c Hin. rewrite (Hp _ _ _ Hin). destruct Hin as (Hx & Hy & _).
  unfold in_rect. zbool; try lia; reflexivity.
Qed.

Ltac inside_lia := unfold inside, channels in *; lia.

(** X6. With the first angle literal [applyRotate] returns a buffer of
    swapped width and height in which the pixel [(x, y)] of the input is
    found at [(height - 1 - y, x)]. *)
Theorem applyRotate_first_literal f junk img :
  wf img ->
  exists f' img',
    applyRotate f junk img literal_90 = Ok (f', img') /\
    width img' = height img /\ height img' = width img /\
    forall x y c, inside img x y c ->
      getPixel img' (height img - 1 - y) x c = getPixel img x y c.
Proof.
  intros Hwf.
  destruct (rotate90_spec f junk img Hwf) as (f' & img' & E & Hwf' & Hw' & Hh' & Hp).
  exists f', img'. split; [exact E|]. split; [exact Hw'|]. split; [exact Hh'|].
  intros x y c Hin.
  destruct (getPixel_pix img x y c Hwf Hin) as (-> & _).
  destruct (getPixel_pix img' (height img - 1 - y) x c Hwf') as (-> & _);
    [inside_lia|].
  rewrite Hp by inside_lia. f_equal. f_equal. lia.
Qed.

Lemma applyRotate_first_literal_witness :
  exists f' img',
    applyRotate engine (fun _ => 0) quad literal_90 = Ok (f', img') /\
    width img' = 2 /\ height img' = 2 /\
    forall x y c, inside quad x y c ->
      getPixel img' (2 - 1 - y) x c = getPixel quad x y c.
Proof.
  apply (applyRotate_first_literal engine (fun _ => 0) quad). wf_concrete.
Defined.

(** X7. With any angle other than the two literals [applyRotate] returns
    a buffer of swapped width and height in which the pixel [(x, y)] of
    the input is found at [(y, width - 1 - x)]. *)
Theorem applyRotate_other_angles f junk img angle :
  angle <> literal_90 -> angle <> literal_180 ->
  wf img ->
  exists f' img',
    applyRotate f junk img angle = Ok (f', img') /\
    width img' = height img /\ height img' = width img /\
    forall x y c, inside img x y c ->
      getPixel img' y (width img - 1 - x) c = getPixel img x y c.
Proof.
  intros H90 H180 Hwf. apply String.eqb_neq in H90, H180.
  destruct (rotate270_spec f junk img angle H90 H180 Hwf)
    as (f' & img' & E & Hwf' & Hw' & Hh' & Hp).
  exists f', img'. split; [exact E|]. split; [exact Hw'|]. split; [exact Hh'|].
  intros x y c Hin.
  destruct (getPixel_pix img x y c Hwf Hin) as (-> & _).
  destruct (getPixel_pix img' y (width img - 1 - x) c Hwf') as (-> & _);
    [inside_lia|].
  rewrite Hp by inside_lia. f_equal. f_equal. lia.
Qed.

Lemma applyRotate_other_angles_witness :
  exists f' img',
    applyRotate engine (fun _ => 0) quad "sideways" = Ok (f', img') /\
    width img' = 2 /\ height img' = 2 /\
    forall x y c, inside quad x y c ->
      getPixel img' y (2 - 1 - x) c = getPixel quad x y c.
Proof.
  apply (applyRotate_other_angles engine (fun _ => 0) quad "sideways");
    [discriminate | discriminate | wf_concrete].
Defined.

(** X8. Each of the three angle strings the main window passes differs
    from both literals, so each of them takes the last branch: whichever
    option is chosen, the pixel [(x, y)] of the input is found at
    [(y, width - 1 - x)] of the result. *)
Theorem applyRotate_main_window_options f junk img angle :
  In angle rotate_options ->
  wf img ->
  applyRotate f junk img angle = applyRotate f junk img (degrees "270") /\
  exists f' img',
    applyRotate f junk img angle = Ok (f', img') /\
    width img' = height img /\ height img' = width img /\
    forall x y c, inside img x y c ->
      getPixel img' y (width img - 1 - x) c = getPixel img x y c.
Proof.
  intros Hin Hwf.
  assert (String.eqb angle literal_90 = false /\
          String.eqb angle literal_180 = false) as (H90 & H180).
  { unfold rotate_options in Hin. simpl in Hin.
    destruct Hin as [<- | [<- | [<- | []]]]; split; vm_compute; reflexivity. }
  split.
  - unfold applyRotate. rewrite H90, H180.
    assert (String.eqb (degrees "270") literal_90 = false) as -> by (vm_compute; reflexivity).
    assert (String.eqb (degrees "270") literal_180 = false) as -> by (vm_compute; reflexivity).
    reflexivity.
  - destruct (rotate270_spec f junk img angle H90 H180 Hwf)
      as (f' & img' & E & Hwf' & Hw' & Hh' & Hp).
    exists f', img'. split; [exact E|]. split; [exact Hw'|]. split; [exact Hh'|].
    intros x y c Hi.
    destruct (getPixel_pix img x y c Hwf Hi) as (-> & _).
    destruct (getPixel_pix img' y (width img - 1 - x) c Hwf') as (-> & _);
      [inside_lia|].
    rewrite Hp by inside_lia. f_equal. f_equal. lia.
Qed.

Lemma applyRotate_main_window_options_witness :
  applyRotate engine (fun _ => 0) quad (degrees "90")
    = applyRotate engine (fun _ => 0) quad (degrees "270") /\
  exists f' img',
    applyRotate engine (fun _ => 0) quad (degrees "90") = Ok (f', img') /\
    width img' = 2 /\ height img' = 2 /\
    forall x y c, inside quad x y c ->
      getPixel img' y (2 - 1 - x) c = getPixel quad x y c.
Proof.
  apply (applyRotate_main_window_options engine (fun _ => 0) quad (degrees "90"));
    [left; reflexivity | wf_concrete].
Defined.

(** X9. With the second angle literal [applyRotate] keeps the size and
    reflects through the centre every pixel outside the middle row; the
    middle row of a buffer of odd height stays as it was, not reversed. *)
Theorem applyRotate_second_literal f junk img :
  wf img ->
  exists f' img',
    applyRotate f junk img literal_180 = Ok (f', img') /\
    width img' = width img /\ height img' = height img /\
    forall x y c, inside img x y c ->
      (2 * y + 1 <> height img ->
       getPixel img' x y c
         = getPixel img (width img - 1 - x) (height img - 1 - y) c) /\
      (2 * y + 1 = height img ->
       getPixel img' x y c = getPixel img x y c).
Proof.
  intros Hwf.
  destruct (rotate180_spec f junk img Hwf) as (f' & img' & E & Hwf' & Hw' & Hh' & Hp).
  exists f', img'. split; [exact E|]. split; [exact Hw'|]. split; [exact Hh'|].
  intros x y c Hin.
  destruct (getPixel_pix img' x y c Hwf') as (-> & _); [inside_lia|].
  rewrite (Hp _ _ _ Hin). split; intros Hy.
  - destruct (getPixel_pix img (width img - 1 - x) (height img - 1 - y) c Hwf)
      as (-> & _); [inside_lia|].
    destruct (Z.eqb_spec (2 * y + 1) (height img)); [contradiction | reflexivity].
  - destruct (getPixel_pix img x y c Hwf Hin) as (-> & _).
    rewrite (proj2 (Z.eqb_eq _ _) Hy). reflexivity.
Qed.

Example rotate_strip_second_literal :
  applyRotate engine (fun _ => 0) strip literal_180
  = Ok (mkImageFilters (progressBar engine) (Some "Rotate filter applied"%string),
        strip).
Proof. vm_compute. reflexivity. Qed.

Lemma applyRotate_second_literal_witness :
  exists f' img',
    applyRotate engine (fun _ => 0) strip literal_180 = Ok (f', img') /\
    width img' = 2 /\ height img' = 1 /\
    forall x y c, inside strip x y c ->
      (2 * y + 1 <> 1 ->
       getPixel img' x y c = getPixel strip (2 - 1 - x) (1 - 1 - y) c) /\
      (2 * y + 1 = 1 -> getPixel img' x y c = getPixel strip x y c).
Proof.
  apply (applyRotate_second_literal engine (fun _ => 0) strip). wf_concrete.
Defined.

(** X10. Four quarter turns restore the buffer, whatever the
    constructor leaves in the new buffers. *)
Theorem applyRotate_four_quarter_turns f j1 j2 j3 j4 img :
  wf img ->
  exists f1 i1 f2 i2 f3 i3 f4,
    applyRotate f j1 img literal_90 = Ok (f1, i1) /\
    applyRotate f1 j2 i1 literal_90 = Ok (f2, i2) /\
    applyRotate f2 j3 i2 literal_90 = Ok (f3, i3) /\
    applyRotate f3 j4 i3 literal_90 = Ok (f4, img).
Proof.
  intros Hwf.
  destruct (rotate90_spec f j1 img Hwf) as (f1 & i1 & E1 & Hwf1 & Hw1 & Hh1 & Hp1).
  destruct (rotate90_spec f1 j2 i1 Hwf1) as (f2 & i2 & E2 & Hwf2 & Hw2 & Hh2 & Hp2).
  destruct (rotate90_spec f2 j3 i2 Hwf2) as (f3 & i3 & E3 & Hwf3 & Hw3 & Hh3 & Hp3).
  destruct (rotate90_spec f3 j4 i3 Hwf3) as (f4 & i4 & E4 & Hwf4 & Hw4 & Hh4 & Hp4).
  exists f1, i1, f2, i2, f3, i3, f4.
  split; [exact E1|]. split; [exact E2|]. split; [exact E3|].
  rewrite E4. f_equal. f_equal.
  apply image_ext; [exact Hwf4 | exact Hwf | congruence | congruence |].
  intros X Y c Hin.
  rewrite Hp4 by exact Hin.
  rewrite Hp3 by inside_lia.
  rewrite Hp2 by inside_lia.
  rewrite Hp1 by inside_lia.
  f_equal; inside_lia.
Qed.

Lemma applyRotate_four_quarter_turns_witness :
  exists f1 i1 f2 i2 f3 i3 f4,
    applyRotate engine (fun _ => 0) quad literal_90 = Ok (f1, i1) /\
    applyRotate f1 (fun _ => 7) i1 literal_90 = Ok (f2, i2) /\
    applyRotate f2 (fun _ => 0) i2 literal_90 = Ok (f3, i3) /\
    applyRotate f3 (fun _ => 7) i3 literal_90 = Ok (f4, quad).
Proof.
  apply (applyRotate_four_quarter_turns engine (fun _ => 0) (fun _ => 7)
           (fun _ => 0) (fun _ => 7) quad). wf_concrete.
Defined.

(** X11. The first branch and the last branch undo each other, in
    either order. *)
Theorem applyRotate_branches_inverse f j1 j2 img angle :
  angle <> literal_90 -> angle <> literal_180 ->
  wf img ->
  (exists f1 i1 f2,
     applyRotate f j1 img literal_90 = Ok (f1, i1) /\
     applyRotate f1 j2 i1 angle = Ok (f2, img)) /\
  (exists f1 i1 f2,
     applyRotate f j1 img angle = Ok (f1, i1) /\
     applyRotate f1 j2 i1 literal_90 = Ok (f2, img)).
Proof.
  intros H90 H180 Hwf. apply String.eqb_neq in H90, H180. split.
  - destruct (rotate90_spec f j1 img Hwf) as (f1 & i1 & E1 & Hwf1 & Hw1 & Hh1 & Hp1).
    destruct (rotate270_spec f1 j2 i1 angle H90 H180 Hwf1)
      as (f2 & i2 & E2 & Hwf2 & Hw2 & Hh2 & Hp2).
    exists f1, i1, f2. split; [exact E1|]. rewrite E2. f_equal. f_equal.
    apply image_ext; [exact Hwf2 | exact Hwf | congruence | congruence |].
    intros X Y c Hin. rewrite Hp2 by exact Hin. rewrite Hp1 by inside_lia.
    f_equal; inside_lia.
  - destruct (rotate270_spec f j1 img angle H90 H180 Hwf)
      as (f1 & i1 & E1 & Hwf1 & Hw1 & Hh1 & Hp1).
    destruct (rotate90_spec f1 j2 i1 Hwf1) as (f2 & i2 & E2 & Hwf2 & Hw2 & Hh2 & Hp2).
    exists f1, i1, f2. split; [exact E1|]. rewrite E2. f_equal. f_equal.
    apply image_ext; [exact Hwf2 | exact Hwf | congruence | congruence |].
    intros X Y c Hin. rewrite Hp2 by exact Hin. rewrite Hp1 by inside_lia.
    f_equal; inside_lia.
Qed.

Lemma applyRotate_branches_inverse_witness :
  (exists f1 i1 f2,
     applyRotate engine (fun _ => 0) quad literal_90 = Ok (f1, i1) /\
     applyRotate f1 (fun _ => 0) i1 (degrees "270") = Ok (f2, quad)) /\
  (exists f1 i1 f2,
     applyRotate engine (fun _ => 0) quad (degrees "270") = Ok (f1, i1) /\
     applyRotate f1 (fun _ => 0) i1 literal_90 = Ok (f2, quad)).
Proof.
  apply (applyRotate_branches_inverse engine (fun _ => 0) (fun _ => 0) quad
           (degrees "270"));
    [vm_compute; discriminate | vm_compute; discriminate | wf_concrete].
Defined.

(** X12. Two half turns by the second literal restore the buffer. *)
Theorem applyRotate_second_literal_twice f junk1 junk2 img :
  wf img ->
  exists f1 i1 f2,
    applyRotate f junk1 img literal_180 = Ok (f1, i1) /\
    applyRotate f1 junk2 i1 literal_180 = Ok (f2, img).
Proof.
  intros Hwf.
  destruct (rotate180_spec f junk1 img Hwf) as (f1 & i1 & E1 & Hwf1 & Hw1 & Hh1 & Hp1).
  destruct (rotate180_spec f1 junk2 i1 Hwf1) as (f2 & i2 & E2 & Hwf2 & Hw2 & Hh2 & Hp2).
  exists f1, i1, f2. split; [exact E1|]. rewrite E2. f_equal. f_equal.
  apply image_ext; [exact Hwf2 | exact Hwf | congruence | congruence |].
  intros x y c Hin. rewrite Hp2 by inside_lia. rewrite Hh1, Hw1.
  destruct (Z.eqb_spec (2 * y + 1) (height img)) as [e|n].
  - rewrite Hp1 by inside_lia. rewrite (proj2 (Z.eqb_eq _ _) e). reflexivity.
  - rewrite Hp1 by inside_lia.
    destruct (Z.eqb_spec (2 * (height img - 1 - y) + 1) (height img)); [lia|].
    f_equal; lia.
Qed.

Lemma applyRotate_second_literal_twice_witness :
  exists f1 i1 f2,
    applyRotate engine (fun _ => 0) quad literal_180 = Ok (f1, i1) /\
    applyRotate f1 (fun _ => 0) i1 literal_180 = Ok (f2, quad).
Proof.
  apply (applyRotate_second_literal_twice engine (fun _ => 0) (fun _ => 0) quad).
  wf_concrete.
Defined.

(** ** Flip *)

Lemma half_bounds n : 0 <= n -> 0 <= Z.quot n 2 <= n /\ 2 * Z.quot n 2 <= n < 2 * Z.quot n 2 + 2.
Proof.
  intros Hn. rewrite Z.quot_div_nonneg by lia.
  pose proof (Z.div_mod n 2 ltac:(lia)).
  pose proof (Z.mod_pos_bound n 2 ltac:(lia)). lia.
Qed.

Lemma flip_horizontal_spec f img :
  wf img ->
  exists f' img',
    applyFlip f img "Horizontal" = Ok (f', img') /\
    wf img' /\ width img' = width img /\ height img' = height img /\
    forall x y c, inside img x y c ->
      pix img' x y c = pix img (width img - 1 - x) y c.
Proof.
  intros Hwf. pose proof Hwf as (Hw & Hh & _).
  unfold applyFlip. rewrite String.eqb_refl.
  destruct (half_bounds (width img) Hw) as (Hq & Hq2).
  destruct (swap_nest (fun x y => width img - 1 - x) (fun x y => y)
              (Z.quot (width img) 2) (height img) img Hwf)
    as (img' & E & Hwf' & Hw' & Hh' & Hp); try lia.
  { intros x y Hx Hy. unfold in_rect. zbool; try lia; reflexivity. }
  unfold for_rect in E. rewrite E. simpl. eexists _, img'. split; [reflexivity|].
  split; [exact Hwf'|]. split; [exact Hw'|]. split; [exact Hh'|].
  intros x y c Hin. rewrite (Hp _ _ _ Hin). destruct Hin as (Hx & Hy & _).
  unfold in_rect. zbool; try lia; try reflexivity; f_equal; lia.
Qed.

Lemma flip_vertical_spec f img direction :
  String.eqb direction "Horizontal" = false ->
  wf img ->
  exists f' img',
    applyFlip f img direction = Ok (f', img') /\
    wf img' /\ width img' = width img /\ height img' = height img /\
    forall x y c, inside img x y c ->
      pix img' x y c = pix img x (height img - 1 - y) c.
Proof.
  intros Hd Hwf. pose proof Hwf as (Hw & Hh & _).
  unfold applyFlip. rewrite Hd.
  destruct (half_bounds (height img) Hh) as (Hq & Hq2).
  destruct (swap_nest (fun x y => x) (fun x y => height img - 1 - y)
              (width img) (Z.quot (height img) 2) img Hwf)
    as (img' & E & Hwf' & Hw' & Hh' & Hp); try lia.
  { intros x y Hx Hy. unfold in_rect. zbool; try lia; reflexivity. }
  unfold for_rect in E. rewrite E. simpl. eexists _, img'. split; [reflexivity|].
  split; [exact Hwf'|]. split; [exact Hw'|]. split; [exact Hh'|].
  intros x y c Hin. rewrite (Hp _ _ _ Hin). destruct Hin as (Hx & Hy & _).
  unfold in_rect. zbool; try lia; try reflexivity; f_equal; lia.
Qed.

(** X13. [applyFlip] with ["Horizontal"] keeps the size and mirrors
    every row: the pixel at [(x, y)] of the result is the pixel at
    [(width - 1 - x, y)] of the input. *)
Theorem applyFlip_horizontal f img :
  wf img ->
  exists f' img',
    applyFlip f img "Horizontal" = Ok (f', img') /\
    width img' = width img /\ height img' = height img /\
    forall x y c, inside img x y c ->
      getPixel img' x y c = getPixel img (width img - 1 - x) y c.
Proof.
  intros Hwf.
  destruct (flip_horizontal_spec f img Hwf) as (f' & img' & E & Hwf' & Hw' & Hh' & Hp).
  exists f', img'. split; [exact E|]. split; [exact Hw'|]. split; [exact Hh'|].
  intros x y c Hin.
  destruct (getPixel_pix img' x y c Hwf') as (-> & _); [inside_lia|].
  destruct (getPixel_pix img (width img - 1 - x) y c Hwf) as (-> & _); [inside_lia|].
  rewrite (Hp _ _ _ Hin). reflexivity.
Qed.

Lemma applyFlip_horizontal_witness :
  exists f' img',
    applyFlip engine quad "Horizontal" = Ok (f', img') /\
    width img' = 2 /\ height img' = 2 /\
    forall x y c, inside quad x y c ->
      getPixel img' x y c = getPixel quad (2 - 1 - x) y c.
Proof.
  apply (applyFlip_horizontal engine quad). wf_concrete.
Defined.

(** X14. [applyFlip] with any other direction keeps the size and mirrors
    every column: the pixel at [(x, y)] of the result is the pixel at
    [(x, height - 1 - y)] of the input. *)
Theorem applyFlip_other_directions f img direction :
  direction <> "Horizontal"%string ->
  wf img ->
  exists f' img',
    applyFlip f img direction = Ok (f', img') /\
    width img' = width img /\ height img' = height img /\
    forall x y c, inside img x y c ->
      getPixel img' x y c = getPixel img x (height img - 1 - y) c.
Proof.
  intros Hd Hwf. apply String.eqb_neq in Hd.
  destruct (flip_vertical_spec f img direction Hd Hwf)
    as (f' & img' & E & Hwf' & Hw' & Hh' & Hp).
  exists f', img'. split; [exact E|]. split; [exact Hw'|]. split; [exact Hh'|].
  intros x y c Hin.
  destruct (getPixel_pix img' x y c Hwf') as (-> & _); [inside_lia|].
  destruct (getPixel_pix img x (height img - 1 - y) c Hwf) as (-> & _); [inside_lia|].
  rewrite (Hp _ _ _ Hin). reflexivity.
Qed.

Lemma applyFlip_other_directions_witness :
  exists f' img',
    applyFlip engine quad "Vertical" = Ok (f', img') /\
    width img' = 2 /\ height img' = 2 /\
    forall x y c, inside quad x y c ->
      getPixel img' x y c = getPixel quad x (2 - 1 - y) c.
Proof.
  apply (applyFlip_other_directions engine quad "Vertical");
    [discriminate | wf_concrete].
Defined.

(** X15. Flipping twice in the same direction restores the buffer. *)
Theorem applyFlip_twice f img direction :
  wf img ->
  exists f1 i1 f2,
    applyFlip f img direction = Ok (f1, i1) /\
    applyFlip f1 i1 direction = Ok (f2, img).
Proof.
  intros Hwf. destruct (String.eqb direction "Horizontal") eqn:Hd.
  - apply String.eqb_eq in Hd. subst direction.
    destruct (flip_horizontal_spec f img Hwf)
      as (f1 & i1 & E1 & Hwf1 & Hw1 & Hh1 & Hp1).
    destruct (flip_horizontal_spec f1 i1 Hwf1)
      as (f2 & i2 & E2 & Hwf2 & Hw2 & Hh2 & Hp2).
    exists f1, i1, f2. split; [exact E1|]. rewrite E2. f_equal. f_equal.
    apply image_ext; [exact Hwf2 | exact Hwf | congruence | congruence |].
    intros x y c Hin. rewrite Hp2 by inside_lia. rewrite Hp1 by inside_lia.
    f_equal; inside_lia.
  - destruct (flip_vertical_spec f img direction Hd Hwf)
      as (f1 & i1 & E1 & Hwf1 & Hw1 & Hh1 & Hp1).
    destruct (flip_vertical_spec f1 i1 direction Hd Hwf1)
      as (f2 & i2 & E2 & Hwf2 & Hw2 & Hh2 & Hp2).
    exists f1, i1, f2. split; [exact E1|]. rewrite E2. f_equal. f_equal.
    apply image_ext; [exact Hwf2 | exact Hwf | congruence | congruence |].
    intros x y c Hin. rewrite Hp2 by inside_lia. rewrite Hp1 by inside_lia.
    f_equal; inside_lia.
Qed.

Lemma applyFlip_twice_witness :
  exists f1 i1 f2,
    applyFlip engine quad "Horizontal" = Ok (f1, i1) /\
    applyFlip f1 i1 "Horizontal" = Ok (f2, quad).
Proof.
  apply (applyFlip_twice engine quad "Horizontal"). wf_concrete.
Defined.

(** ** Emboss *)

(** Rows that read the working buffer and write part of a local one: the
    columns below [xb src] of the rows below [y1]. *)
Lemma into_local_window clicks name total interval
    (pixel : Image -> Z -> Z -> Image -> result Image) (xb : Image -> Z)
    F src out0 st y1 :
  currentImage st = src -> wf out0 ->
  xb src <= width out0 -> y1 <= height out0 ->
  (forall x y o, 0 <= x < xb src -> 0 <= y < y1 -> wf o ->
     width o = width out0 -> height o = height out0 ->
     exists o', pixel src y x o = Ok o' /\
                updated o o' x y (fun _ => true) (F x y)) ->
  exists o st' out',
    cancelable_loop clicks name total interval
      (into_local (fun s y out => for_range 0 (xb s) (pixel s y) out))
      (Z.to_nat y1) 0 st out0 = Ok (o, st', out') /\
    (o = Completed -> painted out0 out' (rows_before 0 (xb src) 0 y1) F).
Proof.
  intros Hcur Hwfo Hx1 Hy1 Hpix.
  destruct (cancelable_loop_inv
    (fun y s out =>
       currentImage s = src /\
       painted out0 out (rows_before 0 (xb src) 0 y) F)
    clicks name total interval
    (into_local (fun s y out => for_range 0 (xb s) (pixel s y) out))
    (Z.to_nat y1) 0 st out0) as (o & st' & out' & E & Ho).
  - split; [exact Hcur|]. apply painted_refl; [exact Hwfo|]. intros x y _ _.
    unfold rows_before. zbool; try lia; reflexivity.
  - intros y s out Hy (Hs & Hp) _. unfold into_local. rewrite Hs.
    destruct (row_painted (pixel src y) out0 F 0 (xb src) 0 y out)
      as (out' & E & Hp'); try lia; [|exact Hp|].
    { intros x im Hx Hwfi Hwi Hhi _. apply Hpix; try assumption; lia. }
    rewrite E. simpl.
    eexists _, _. split; [reflexivity|].
    rewrite (proj1 (updateProgress_images _ _ _ _ _)). auto.
  - exists o, st', out'. split; [exact E|]. intros Hc.
    destruct (Ho Hc) as (_ & Hp).
    destruct (Z_le_gt_dec 0 y1).
    + replace (0 + Z.of_nat (Z.to_nat y1)) with y1 in Hp by lia. exact Hp.
    + eapply painted_ext; [exact Hp|]. intros x y Hx Hy.
      unfold rows_before. zbool; try lia; reflexivity.
Qed.

Lemma clamp_byte v : 0 <= clamp v 0 255 <= 255.
Proof. unfold clamp. zbool; lia. Qed.

Lemma emboss_pixel_updated src out x y :
  wf src -> wf out -> width out = width src -> height out = height src ->
  0 <= x < width src - 1 -> 0 <= y < height src - 1 ->
  exists out', emboss_pixel src y x out = Ok out' /\
    updated out out' x y (fun _ => true) (fun _ => emboss_of src x y).
Proof.
  intros Hwf Hwfo Hw Hh Hx Hy. unfold emboss_pixel.
  assert (0 <= 0 < channels /\ 0 <= 1 < channels /\ 0 <= 2 < channels)
    as (C0 & C1 & C2) by (unfold channels; lia).
  destruct (getPixel_pix src x y 0 Hwf) as (-> & A0); [unfold inside; lia|].
  destruct (getPixel_pix src x y 1 Hwf) as (-> & A1); [unfold inside; lia|].
  destruct (getPixel_pix src x y 2 Hwf) as (-> & A2); [unfold inside; lia|].
  destruct (getPixel_pix src (x + 1) (y + 1) 0 Hwf) as (-> & B0); [unfold inside; lia|].
  destruct (getPixel_pix src (x + 1) (y + 1) 1 Hwf) as (-> & B1); [unfold inside; lia|].
  destruct (getPixel_pix src (x + 1) (y + 1) 2 Hwf) as (-> & B2); [unfold inside; lia|].
  simpl. fold (emboss_of src x y).
  destruct (set3_updated out x y (emboss_of src x y) (emboss_of src x y)
              (emboss_of src x y) Hwfo) as (out' & E & U); [lia | lia |].
  exists out'. split; [exact E|].
  eapply updated_ext; [exact U | reflexivity |].
  intros c _ _. unfold rgb.
  assert (emboss_of src x y mod 256 = emboss_of src x y) as ->.
  { apply byte_mod. unfold emboss_of.
    pose proof (clamp_byte (pix src x y 0 - pix src (x + 1) (y + 1) 0 + 128)).
    pose proof (clamp_byte (pix src x y 1 - pix src (x + 1) (y + 1) 1 + 128)).
    pose proof (clamp_byte (pix src x y 2 - pix src (x + 1) (y + 1) 2 + 128)).
    rewrite Z.quot_div_nonneg by lia.
    split; [apply Z.div_pos; lia | apply Z.div_lt_upper_bound; lia]. }
  destruct (c =? 0), (c =? 1); reflexivity.
Qed.


(** ** Brightness *)

Lemma map_pixel_updated (g : Z -> Z) src out x y :
  wf src -> wf out -> width out = width src -> height out = height src ->
  0 <= x < width src -> 0 <= y < height src ->
  exists out',
    for_range 0 3
      (fun k out => p <- getPixel src x y k ;; setPixel out x y k (g p)) out
      = Ok out' /\
    updated out out' x y (fun _ => true) (fun c => g (pix src x y c) mod 256).
Proof.
  intros Hwf Hwfo Hw Hh Hx Hy. rewrite for_range_3.
  destruct (getPixel_pix src x y 0 Hwf) as (-> & A0); [inside_lia|].
  destruct (getPixel_pix src x y 1 Hwf) as (-> & A1); [inside_lia|].
  destruct (getPixel_pix src x y 2 Hwf) as (-> & A2); [inside_lia|].
  simpl.
  destruct (set3_updated out x y (g (pix src x y 0)) (g (pix src x y 1))
              (g (pix src x y 2)) Hwfo) as (out' & E & U); [lia | lia |].
  unfold set3 in E. exists out'. split; [exact E|].
  eapply updated_ext; [exact U | reflexivity |].
  intros c Hc _. unfold channels in Hc.
  assert (c = 0 \/ c = 1 \/ c = 2) as [-> | [-> | ->]] by lia; reflexivity.
Qed.

(** The column-major nest of the brightness filters overwrites the whole
    of the new buffer. *)
Lemma map_samples_spec (g : Z -> Z) junk src :
  wf src ->
  exists out,
    map_samples g src (newImage junk (width src) (height src)) = Ok out /\
    wf out /\ width out = width src /\ height out = height src /\
    forall x y c, inside src x y c ->
      pix out x y c = g (pix src x y c) mod 256.
Proof.
  intros Hwf. pose proof Hwf as (Hw & Hh & Hsz & _).
  pose proof (newImage_wf junk _ _ Hw Hh Hsz) as Hwfn.
  unfold map_samples.
  destruct (scatter_painted
    (fun i j out =>
       for_range 0 3
         (fun k out => p <- getPixel src i j k ;; setPixel out i j k (g p)) out)
    (fun a b => a) (fun a b => b) (fun X Y => X) (fun X Y => Y)
    (fun x y c => g (pix src x y c) mod 256)
    0 (width src) 0 (height src) _ Hwfn Hw Hh)
    as (out & E & Hwfo & Hwo & Hho & Hp).
  - intros a b _ _. auto.
  - intros a b im Ha Hb Hwfi Hwi Hhi.
    apply map_pixel_updated; simpl in *; assumption.
  - exists out. split; [exact E|]. split; [exact Hwfo|].
    split; [exact Hwo|]. split; [exact Hho|].
    intros x y c Hin. rewrite Hp by exact Hin. destruct Hin as (Hx & Hy & _).
    unfold in_rect. rewrite !Z.eqb_refl. zbool; try lia; reflexivity.
Qed.

(** X17. The plain [applyDarkAndLight] replaces every sample [p] by
    [p / 3] when the choice is ["dark"] and by [min (255, 2 p)] for any
    other choice; nothing of the new buffer's first content remains. *)
Theorem applyDarkAndLight_samples f junk img choice :
  wf img ->
  exists f' img',
    applyDarkAndLight f junk img choice = Ok (f', img') /\
    width img' = width img /\ height img' = height img /\
    forall x y c p, getPixel img x y c = Ok p ->
      getPixel img' x y c
        = Ok (if String.eqb choice "dark" then p / 3 else Z.min 255 (2 * p)).
Proof.
  intros Hwf. unfold applyDarkAndLight. cbv zeta.
  destruct (map_samples_spec
              (fun p => if String.eqb choice "dark" then Z.quot p 3
                        else if 255 <? p * 2 then 255 else p * 2)
              junk img Hwf) as (out & E & Hwfo & Hwo & Hho & Hp).
  rewrite E. simpl. eexists _, out. split; [reflexivity|].
  split; [exact Hwo|]. split; [exact Hho|].
  intros x y c p Hg. apply getPixel_Ok_inside in Hg. destruct Hg as (Hin & Hpx).
  destruct (getPixel_pix img x y c Hwf Hin) as (_ & Hb).
  destruct (getPixel_pix out x y c Hwfo) as (-> & _); [inside_lia|].
  rewrite Hp by exact Hin. rewrite Hpx in *. f_equal.
  destruct (String.eqb choice "dark").
  - rewrite Z.quot_div_nonneg by lia. apply byte_mod.
    split; [apply Z.div_pos; lia | apply Z.div_lt_upper_bound; lia].
  - destruct (Z.ltb_spec 255 (p * 2)); [rewrite Z.min_l by lia; reflexivity|].
    rewrite Z.min_r by lia. rewrite byte_mod by lia. lia.
Qed.

Lemma applyDarkAndLight_samples_witness :
  exists f' img',
    applyDarkAndLight engine (fun _ => 7) quad "light" = Ok (f', img') /\
    width img' = 2 /\ height img' = 2 /\
    forall x y c p, getPixel quad x y c = Ok p ->
      getPixel img' x y c = Ok (Z.min 255 (2 * p)).
Proof.
  apply (applyDarkAndLight_samples engine (fun _ => 7) quad "light"). wf_concrete.
Defined.

(** The product of an integer sample and an integer-valued factor is
    exact. *)
Lemma mul_int_exact p m d :
  0 <= p < 256 -> 0 <= m <= 2 -> 0 < d ->
  exists v, 0 < v /\
    Ieee.mul 53 (Ieee.of_int 53 p) (Ieee.mkFrac (m * d) d)
      = Ieee.mkFrac (p * m * v) v.
Proof.
  intros Hp Hm Hd.
  destruct (of_int_exact p) as (j & Hj & ->); [change (2 ^ 53) with 9007199254740992; lia|].
  unfold Ieee.mul, Ieee.round. simpl Ieee.num. simpl Ieee.den.
  destruct (Z.ltb_spec (p * j * (m * d)) 0); [nia|].
  destruct (Z.eq_dec (p * m) 0) as [E0|Hne].
  - replace (p * j * (m * d)) with (p * m * (j * d)) by ring. rewrite E0.
    exists 1. split; [lia|]. reflexivity.
  - replace (p * j * (m * d)) with (p * m * (j * d)) by ring.
    assert (0 < j * d) as HJ by nia.
    destruct (round_pos_int 53 (p * m) (j * d)) as (v & Hv & ->); try lia.
    { change (2 ^ 53) with 9007199254740992. nia. }
    exists v. auto.
Qed.

(** One sample of the percent overload under an integer-valued factor. *)
Lemma percent_sample p m d :
  0 <= p < 256 -> 0 <= m <= 2 -> 0 < d ->
  Ieee.to_int
    (let v := Ieee.mul 53 (Ieee.of_int 53 p) (Ieee.mkFrac (m * d) d) in
     let v := if Ieee.ltb v (Ieee.lit 53 0 1) then Ieee.lit 53 0 1 else v in
     if Ieee.ltb (Ieee.lit 53 255 1) v then Ieee.lit 53 255 1 else v)
  = Z.min 255 (p * m).
Proof.
  intros Hp Hm Hd. destruct (mul_int_exact p m d Hp Hm Hd) as (v & Hv & ->).
  cbv zeta.
  assert (Ieee.lit 53 0 1 = Ieee.mkFrac 0 1) as -> by (vm_compute; reflexivity).
  assert (Ieee.lit 53 255 1 = Ieee.mkFrac (255 * 2 ^ 45) (2 ^ 45)) as ->
    by (vm_compute; reflexivity).
  assert (0 < 2 ^ 45) as H45 by (apply Z.pow_pos_nonneg; lia).
  unfold Ieee.ltb, Ieee.to_int. cbn [Ieee.num Ieee.den].
  destruct (Z.ltb_spec (p * m * v * 1) (0 * v)); [nia|].
  cbn [Ieee.num Ieee.den].
  destruct (Z.ltb_spec (255 * 2 ^ 45 * v) (p * m * v * 2 ^ 45)) as [Hlt|Hge];
    cbn [Ieee.num Ieee.den]; rewrite Z.quot_mul by lia.
  - assert (255 < p * m) by nia. lia.
  - assert (p * m <= 255) by nia. lia.
Qed.

Lemma percent_nest f junk img choice percent m d :
  wf img -> 0 <= m <= 2 -> 0 < d ->
  (let percent := Z.max 0 (Z.min 100 percent) in
   let ratio := Ieee.div 53 (Ieee.of_int 53 percent) (Ieee.lit 53 100 1) in
   let one := Ieee.lit 53 1 1 in
   let zero := Ieee.lit 53 0 1 in
   if String.eqb choice "dark" then
     let d := Ieee.sub 53 one ratio in
     if Ieee.ltb zero d then d else zero
   else Ieee.add 53 one ratio) = Ieee.mkFrac (m * d) d ->
  exists f' img',
    applyDarkAndLightPercent f junk img choice percent = Ok (f', img') /\
    wf img' /\ width img' = width img /\ height img' = height img /\
    forall x y c, inside img x y c ->
      pix img' x y c = Z.min 255 (pix img x y c * m).
Proof.
  intros Hwf Hm Hd Hf. unfold applyDarkAndLightPercent.
  cbv zeta in Hf |- *. rewrite Hf.
  match goal with
  | |- context [map_samples ?g _ _] =>
      destruct (map_samples_spec g junk img Hwf)
        as (out & E & Hwfo & Hwo & Hho & Hp)
  end.
  rewrite E. simpl. eexists _, out. split; [reflexivity|].
  split; [exact Hwfo|]. split; [exact Hwo|]. split; [exact Hho|].
  intros x y c Hin. rewrite (Hp _ _ _ Hin).
  destruct (getPixel_pix img x y c Hwf Hin) as (_ & Hb).
  pose proof (percent_sample (pix img x y c) m d Hb Hm Hd) as Hs.
  cbv zeta in Hs. rewrite Hs. apply byte_mod. lia.
Qed.

(** X18. At a percentage of zero or less the percent overload of
    [applyDarkAndLight] returns the buffer it was given, whatever the
    choice. *)
Theorem applyDarkAndLightPercent_zero f junk img choice percent :
  wf img -> percent <= 0 ->
  exists f', applyDarkAndLightPercent f junk img choice percent = Ok (f', img).
Proof.
  intros Hwf Hp.
  destruct (percent_nest f junk img choice percent 1 (2 ^ 52) Hwf)
    as (f' & img' & E & Hwf' & Hw' & Hh' & Hpix); try lia.
  { cbv zeta. replace (Z.max 0 (Z.min 100 percent)) with 0 by lia.
    destruct (String.eqb choice "dark"); vm_compute; reflexivity. }
  exists f'. rewrite E. f_equal. f_equal.
  apply image_ext; [exact Hwf' | exact Hwf | exact Hw' | exact Hh' |].
  intros x y c Hin.
  assert (inside img x y c) as Hin0 by inside_lia.
  rewrite (Hpix _ _ _ Hin0).
  destruct (getPixel_pix img x y c Hwf Hin0) as (_ & Hb). lia.
Qed.

Lemma applyDarkAndLightPercent_zero_witness :
  exists f', applyDarkAndLightPercent engine (fun _ => 7) quad "dark" (-5)
             = Ok (f', quad).
Proof.
  apply (applyDarkAndLightPercent_zero engine (fun _ => 7) quad "dark" (-5));
    [wf_concrete | lia].
Defined.

(** X19. At a percentage of 100 or more the percent overload turns every
    sample to 0 when the choice is ["dark"], and to [min (255, 2 p)] for
    any other choice, as the plain overload does. *)
Theorem applyDarkAndLightPercent_full f junk img choice percent :
  wf img -> 100 <= percent ->
  exists f' img',
    applyDarkAndLightPercent f junk img choice percent = Ok (f', img') /\
    width img' = width img /\ height img' = height img /\
    forall x y c p, getPixel img x y c = Ok p ->
      getPixel img' x y c
        = Ok (if String.eqb choice "dark" then 0 else Z.min 255 (2 * p)).
Proof.
  intros Hwf Hp.
  destruct (String.eqb choice "dark") eqn:Hd.
  - destruct (percent_nest f junk img choice percent 0 1 Hwf)
      as (f' & img' & E & Hwf' & Hw' & Hh' & Hpix); try lia.
    { cbv zeta. replace (Z.max 0 (Z.min 100 percent)) with 100 by lia.
      rewrite Hd. vm_compute. reflexivity. }
    exists f', img'. split; [exact E|]. split; [exact Hw'|]. split; [exact Hh'|].
    intros x y c p Hg. apply getPixel_Ok_inside in Hg. destruct Hg as (Hin & Hpx).
    destruct (getPixel_pix img' x y c Hwf') as (-> & _); [inside_lia|].
    rewrite (Hpix _ _ _ Hin). f_equal. lia.
  - destruct (percent_nest f junk img choice percent 2 (2 ^ 51) Hwf)
      as (f' & img' & E & Hwf' & Hw' & Hh' & Hpix); try lia.
    { cbv zeta. replace (Z.max 0 (Z.min 100 percent)) with 100 by lia.
      rewrite Hd. vm_compute. reflexivity. }
    exists f', img'. split; [exact E|]. split; [exact Hw'|]. split; [exact Hh'|].
    intros x y c p Hg. apply getPixel_Ok_inside in Hg. destruct Hg as (Hin & Hpx).
    destruct (getPixel_pix img' x y c Hwf') as (-> & _); [inside_lia|].
    rewrite (Hpix _ _ _ Hin). rewrite Hpx. f_equal. lia.
Qed.

Lemma applyDarkAndLightPercent_full_witness :
  exists f' img',
    applyDarkAndLightPercent engine (fun _ => 7) quad "light" 100 = Ok (f', img') /\
    width img' = 2 /\ height img' = 2 /\
    forall x y c p, getPixel quad x y c = Ok p ->
      getPixel img' x y c = Ok (Z.min 255 (2 * p)).
Proof.
  apply (applyDarkAndLightPercent_full engine (fun _ => 7) quad "light" 100);
    [wf_concrete | lia].
Defined.

(** ** Infrared *)

(** The [float] computation of the infrared value agrees with integer
    arithmetic on every sum of three samples. *)
Lemma infrared_table :
  forallb
    (fun s =>
       Ieee.to_int
         (Ieee.sub 24 (Ieee.of_int 24 255)
            (Ieee.div 24 (Ieee.of_int 24 s) (Ieee.lit 24 3 1)))
       =? (765 - s) / 3)
    (map Z.of_nat (seq 0 766)) = true.
Proof. vm_compute. reflexivity. Qed.

Lemma infrared_value s :
  0 <= s <= 765 ->
  Ieee.to_int
    (Ieee.sub 24 (Ieee.of_int 24 255)
       (Ieee.div 24 (Ieee.of_int 24 s) (Ieee.lit 24 3 1)))
  = (765 - s) / 3.
Proof.
  intros Hs. pose proof infrared_table as H.
  rewrite forallb_forall in H. apply Z.eqb_eq. apply H.
  apply in_map_iff. exists (Z.to_nat s). split; [lia|].
  apply in_seq. lia.
Qed.

Lemma infrared_pixel_updated img0 im x y :
  wf im -> width im = width img0 -> height im = height img0 ->
  0 <= x < width img0 -> 0 <= y < height img0 ->
  (forall c, 0 <= c < channels -> pix im x y c = pix img0 x y c) ->
  exists im', infrared_pixel x y im = Ok im' /\
    updated im im' x y (fun _ => true)
      (rgb 255 ((765 - (pix img0 x y 0 + pix img0 x y 1 + pix img0 x y 2)) / 3)
               ((765 - (pix img0 x y 0 + pix img0 x y 1 + pix img0 x y 2)) / 3)).
Proof.
  intros Hwf Hw Hh Hx Hy Hsame. unfold infrared_pixel.
  assert (forall c, 0 <= c < channels -> inside im x y c) as Hin.
  { intros c Hc. unfold inside. rewrite Hw, Hh. auto. }
  destruct (getPixel_pix im x y 0 Hwf) as (-> & B0); [apply Hin; unfold channels; lia|].
  destruct (getPixel_pix im x y 1 Hwf) as (-> & B1); [apply Hin; unfold channels; lia|].
  destruct (getPixel_pix im x y 2 Hwf) as (-> & B2); [apply Hin; unfold channels; lia|].
  simpl. rewrite !Hsame in * by (unfold channels; lia).
  set (s := pix img0 x y 0 + pix img0 x y 1 + pix img0 x y 2) in *.
  rewrite infrared_value by lia.
  destruct (set3_updated im x y 255 ((765 - s) / 3) ((765 - s) / 3) Hwf)
    as (im' & E & U); [lia | lia |].
  exists im'. split; [exact E|].
  eapply updated_ext; [exact U | reflexivity |].
  intros c _ _. unfold rgb.
  assert (((765 - s) / 3) mod 256 = (765 - s) / 3) as ->.
  { apply byte_mod. split; [apply Z.div_pos; lia | apply Z.div_lt_upper_bound; lia]. }
  reflexivity.
Qed.

(** The columns [x' < x], the region an outer loop over the columns has
    been through. *)
Lemma column_painted (step : Z -> Image -> result Image) img0 F x img :
  0 <= x < width img0 -> 0 <= height img0 ->
  (forall y im, 0 <= y < height img0 -> wf im ->
     width im = width img0 -> height im = height img0 ->
     (forall c, 0 <= c < channels -> pix im x y c = pix img0 x y c) ->
     exists im', step y im = Ok im' /\
                 updated im im' x y (fun _ => true) (F x y)) ->
  painted img0 img (fun x' _ => x' <? x) F ->
  exists img', for_range 0 (height img0) step img = Ok img' /\
               painted img0 img' (fun x' _ => x' <? x + 1) F.
Proof.
  intros Hx Hh Hstep Hp.
  destruct (for_range_inv
    (fun y im => painted img0 im
       (fun x' y' => (x' <? x) || ((x' =? x) && (y' <? y))) F)
    step 0 (height img0) img Hh) as (img' & E & Hp').
  - eapply painted_ext; [exact Hp|]. intros x' y' _ Hy'. cbv beta.
    zbool; try lia; reflexivity.
  - intros y im Hy (Hwf & Hw & Hh' & Hpix).
    destruct (Hstep y im Hy Hwf Hw Hh') as (im' & E & Hwf' & Hw' & Hh'' & Hpix').
    { intros c Hc. rewrite Hpix by (unfold inside; lia).
      zbool; try lia; reflexivity. }
    exists im'. split; [exact E|]. unfold painted.
    split; [exact Hwf'|]. split; [congruence|]. split; [congruence|].
    intros x' y' c' Hin.
    rewrite Hpix' by (unfold inside in *; rewrite Hw, Hh'; exact Hin).
    rewrite (Hpix _ _ _ Hin).
    zbool; subst; try lia; reflexivity.
  - exists img'. split; [exact E|]. eapply painted_ext; [exact Hp'|].
    intros x' y' _ Hy'. cbv beta. zbool; try lia; reflexivity.
Qed.

Lemma in_place_columns clicks name total interval
    (pixel : Z -> Z -> Image -> result Image) F img0 st :
  wf img0 -> currentImage st = img0 ->
  (forall x y im, 0 <= x < width img0 -> 0 <= y < height img0 -> wf im ->
     width im = width img0 -> height im = height img0 ->
     (forall c, 0 <= c < channels -> pix im x y c = pix img0 x y c) ->
     exists im', pixel x y im = Ok im' /\
                 updated im im' x y (fun _ => true) (F x y)) ->
  exists o st',
    cancelable_loop clicks name total interval
      (in_place (fun x img => for_range 0 (height img) (pixel x) img))
      (Z.to_nat (width img0)) 0 st tt = Ok (o, st', tt) /\
    (o = Completed -> painted img0 (currentImage st') (fun _ _ => true) F).
Proof.
  intros Hwf Hcur Hpix. pose proof Hwf as (Hw0 & Hh0 & _).
  destruct (cancelable_loop_inv
    (fun x s (_ : unit) =>
       painted img0 (currentImage s) (fun x' _ => x' <? x) F)
    clicks name total interval
    (in_place (fun x img => for_range 0 (height img) (pixel x) img))
    (Z.to_nat (width img0)) 0 st tt) as (o & st' & [] & E & Ho).
  - rewrite Hcur. apply painted_refl; [exact Hwf|]. intros x y Hx _.
    zbool; try lia; reflexivity.
  - intros x s [] Hx Hp _. unfold in_place.
    destruct (column_painted (pixel x) img0 F x (currentImage s))
      as (img' & E & Hp'); try lia; [|exact Hp|].
    { intros y im Hy. apply Hpix; lia. }
    destruct Hp as (_ & _ & -> & _). rewrite E. simpl.
    eexists _, tt. split; [reflexivity|].
    rewrite (proj1 (updateProgress_images _ _ _ _ _)). simpl. exact Hp'.
  - exists o, st'. split; [exact E|]. intros Hc. specialize (Ho Hc).
    eapply painted_ext; [exact Ho|]. intros x y Hx Hy. cbv beta.
    zbool; try lia; reflexivity.
Qed.


(** ** Frames *)

Lemma for_range_max {S : Type} (body : Z -> S -> result S) lo hi s :
  for_range lo hi body s = for_range lo (Z.max lo hi) body s.
Proof.
  unfold for_range. replace (Z.to_nat (Z.max lo hi - lo)) with (Z.to_nat (hi - lo)) by lia.
  reflexivity.
Qed.

Lemma for_rect_max body x0 x1 y0 y1 img :
  for_rect x0 x1 y0 y1 body img
  = for_rect x0 (Z.max x0 x1) y0 (Z.max y0 y1) body img.
Proof.
  unfold for_rect. rewrite for_range_max.
  unfold for_range at 1 3. generalize (Z.to_nat (Z.max y0 y1 - y0)) as n.
  intros n. revert y0 img. induction n as [|n IH]; intros y0 img; simpl.
  - reflexivity.
  - rewrite <- for_range_max.
    destruct (for_range x0 x1 (fun x im => body x y0 im) img); simpl; [|reflexivity].
    apply IH.
Qed.

Lemma paint_updated color x y im :
  wf im -> 0 <= x < width im -> 0 <= y < height im ->
  exists im', paint color x y im = Ok im' /\
    updated im im' x y (fun _ => true) (fun c => at_index color c mod 256).
Proof.
  intros Hwf Hx Hy. unfold paint. rewrite for_range_3.
  destruct (set3_updated im x y (at_index color 0) (at_index color 1)
              (at_index color 2) Hwf Hx Hy) as (im' & E & U).
  unfold set3 in E. exists im'. split; [exact E|].
  eapply updated_ext; [exact U | reflexivity |].
  intros c Hc _. unfold channels in Hc.
  assert (c = 0 \/ c = 1 \/ c = 2) as [-> | [-> | ->]] by lia; reflexivity.
Qed.

Lemma updated_writes_at im im' x y s f :
  updated im im' x y s f -> writes_at im im' x y.
Proof.
  intros (Hwf & Hw & Hh & Hp). unfold writes_at.
  split; [exact Hwf|]. split; [exact Hw|]. split; [exact Hh|].
  intros x' y' c' Hin Hne. rewrite (Hp _ _ _ Hin).
  destruct (Z.eqb_spec x' x), (Z.eqb_spec y' y); simpl; try reflexivity. lia.
Qed.

Lemma writes_at_refl im x y : wf im -> writes_at im im x y.
Proof. intros Hwf. unfold writes_at. auto. Qed.

Lemma writes_at_trans im1 im2 im3 x y :
  writes_at im1 im2 x y -> writes_at im2 im3 x y -> writes_at im1 im3 x y.
Proof.
  intros (Hwf2 & Hw2 & Hh2 & Hp2) (Hwf3 & Hw3 & Hh3 & Hp3). unfold writes_at.
  split; [exact Hwf3|]. split; [congruence|]. split; [congruence|].
  intros x' y' c' Hin Hne. rewrite Hp3; [apply Hp2; assumption | | exact Hne].
  unfold inside in *. rewrite Hw2, Hh2. exact Hin.
Qed.

Lemma paint_writes_at color x y im :
  wf im -> 0 <= x < width im -> 0 <= y < height im ->
  exists im', paint color x y im = Ok im' /\ writes_at im im' x y.
Proof.
  intros Hwf Hx Hy. destruct (paint_updated color x y im Hwf Hx Hy) as (im' & E & U).
  exists im'. split; [exact E|]. eapply updated_writes_at. exact U.
Qed.

(** A nest whose body at [(x, y)] writes at most the pixel [(x, y)], and
    nothing where [W] does not hold. *)
Lemma stage_keeps (body : Z -> Z -> Image -> result Image) (W : Z -> Z -> bool)
    x0 x1 y0 y1 img :
  wf img -> 0 <= x0 <= width img -> x1 <= width img ->
  0 <= y0 <= height img -> y1 <= height img ->
  (forall x y im, x0 <= x < x1 -> y0 <= y < y1 -> wf im ->
     width im = width img -> height im = height img ->
     exists im', body x y im = Ok im' /\ writes_at im im' x y /\
                 (W x y = false -> im' = im)) ->
  exists img',
    for_rect x0 x1 y0 y1 body img = Ok img' /\
    keeps img img' (fun x y => negb (in_rect y0 y1 x0 x1 y x && W x y)).
Proof.
  intros Hwf Hx0 Hx1 Hy0 Hy1 Hstep. rewrite for_rect_max. unfold for_rect.
  destruct (nest_inv
    (fun D im => keeps img im (fun x y => negb (in_rect y0 y1 x0 x1 y x && D y x && W x y)))
    (fun y x im => body x y im) y0 (Z.max y0 y1) x0 (Z.max x0 x1) img)
    as (img' & E & HK); try lia.
  - intros D D' im HD (Hwfi & Hw & Hh & Hp). unfold keeps.
    split; [exact Hwfi|]. split; [exact Hw|]. split; [exact Hh|].
    intros x y c Hin Hk. apply Hp; [exact Hin|].
    destruct (in_rect y0 y1 x0 x1 y x) eqn:Er; [|reflexivity].
    rewrite HD; [exact Hk|]. unfold in_rect in *. zbool; try lia; reflexivity.
  - unfold keeps. auto.
  - intros D y x im Hy Hx HD (Hwfi & Hw & Hh & Hp).
    destruct (Hstep x y im ltac:(lia) ltac:(lia) Hwfi Hw Hh)
      as (im' & E & (Hwf' & Hw' & Hh' & Hp') & Hsame).
    exists im'. split; [exact E|]. unfold keeps.
    split; [exact Hwf'|]. split; [congruence|]. split; [congruence|].
    intros x' y' c' Hin Hk.
    destruct (Z.eq_dec x' x) as [ex|nx]; [destruct (Z.eq_dec y' y) as [ey|ny]|].
    + subst x' y'. rewrite !Z.eqb_refl in Hk. rewrite orb_true_r, andb_true_r in Hk.
      destruct (W x y) eqn:EW.
      * rewrite andb_true_r in Hk. apply negb_true_iff in Hk.
        assert (in_rect y0 y1 x0 x1 y x = true) as Hr
          by (unfold in_rect; zbool; try lia; reflexivity).
        rewrite Hr in Hk. discriminate.
      * rewrite (Hsame eq_refl). apply Hp; [exact Hin|].
        rewrite EW, andb_false_r. reflexivity.
    + rewrite Hp' by (try (unfold inside in *; rewrite Hw, Hh; exact Hin); auto).
      apply Hp; [exact Hin|].
      destruct (Z.eqb_spec y' y); [|simpl in Hk; rewrite orb_false_r in Hk; exact Hk].
      exfalso. auto.
    + rewrite Hp' by (try (unfold inside in *; rewrite Hw, Hh; exact Hin); auto).
      apply Hp; [exact Hin|].
      destruct (Z.eqb_spec x' x); [contradiction|].
      rewrite andb_false_r, orb_false_r in Hk. exact Hk.
  - exists img'. split; [exact E|].
    destruct HK as (Hwf' & Hw' & Hh' & Hp). unfold keeps.
    split; [exact Hwf'|]. split; [exact Hw'|]. split; [exact Hh'|].
    intros x y c Hin Hk. apply Hp; [exact Hin|].
    rewrite andb_true_r. exact Hk.
Qed.

(** A nest whose body at [(x, y)] sets the pixel [(x, y)] to [V x y] when
    [W x y] holds and does nothing otherwise. *)
Lemma stage_painted (body : Z -> Z -> Image -> result Image)
    (W : Z -> Z -> bool) V x0 x1 y0 y1 img :
  wf img -> 0 <= x0 <= width img -> x1 <= width img ->
  0 <= y0 <= height img -> y1 <= height img ->
  (forall x y im, x0 <= x < x1 -> y0 <= y < y1 -> wf im ->
     width im = width img -> height im = height img ->
     exists im', body x y im = Ok im' /\
                 updated im im' x y (fun _ => W x y) (V x y)) ->
  exists img',
    for_rect x0 x1 y0 y1 body img = Ok img' /\
    painted img img' (fun x y => in_rect y0 y1 x0 x1 y x && W x y) V.
Proof.
  intros Hwf Hx0 Hx1 Hy0 Hy1 Hstep. rewrite for_rect_max. unfold for_rect.
  destruct (nest_inv
    (fun D im => painted img im
       (fun x y => in_rect y0 y1 x0 x1 y x && D y x && W x y) V)
    (fun y x im => body x y im) y0 (Z.max y0 y1) x0 (Z.max x0 x1) img)
    as (img' & E & HP); try lia.
  - intros D D' im HD HP. eapply painted_ext; [exact HP|].
    intros x y _ _. cbv beta.
    destruct (in_rect y0 y1 x0 x1 y x) eqn:Er; [|reflexivity].
    rewrite HD; [reflexivity|]. unfold in_rect in *. zbool; try lia; reflexivity.
  - apply painted_refl; [exact Hwf|]. intros x y _ _. cbv beta.
    rewrite andb_false_r. reflexivity.
  - intros D y x im Hy Hx HD (Hwfi & Hw & Hh & Hp).
    destruct (Hstep x y im ltac:(lia) ltac:(lia) Hwfi Hw Hh)
      as (im' & E & Hwf' & Hw' & Hh' & Hp').
    exists im'. split; [exact E|]. unfold painted.
    split; [exact Hwf'|]. split; [congruence|]. split; [congruence|].
    intros x' y' c' Hin.
    rewrite Hp' by (unfold inside in *; rewrite Hw, Hh; exact Hin).
    rewrite (Hp _ _ _ Hin).
    destruct (Z.eqb_spec x' x) as [ex|nx]; destruct (Z.eqb_spec y' y) as [ey|ny];
      simpl; rewrite ?andb_false_r, ?orb_false_r; try reflexivity.
    subst x' y'. rewrite HD. rewrite orb_true_r, andb_false_r. simpl.
    assert (in_rect y0 y1 x0 x1 y x = true) as ->
      by (unfold in_rect; zbool; try lia; reflexivity).
    simpl. destruct (W x y); reflexivity.
  - exists img'. split; [exact E|]. eapply painted_ext; [exact HP|].
    intros x y _ _. cbv beta. rewrite andb_true_r. reflexivity.
Qed.

(** Pasting a picture: the target holds the picture at the offset and is
    unchanged elsewhere. *)
Lemma paste_painted src dx dy dst :
  wf src -> wf dst -> 0 <= dx -> 0 <= dy ->
  dx + width src <= width dst -> dy + height src <= height dst ->
  exists out,
    paste src dx dy dst = Ok out /\
    painted dst out
      (fun X Y => in_rect 0 (height src) 0 (width src) (Y - dy) (X - dx))
      (fun X Y c => pix src (X - dx) (Y - dy) c).
Proof.
  intros Hws Hwd Hdx Hdy Hfx Hfy. pose proof Hws as (Hw & Hh & _).
  unfold paste, for_rect.
  destruct (scatter_painted
    (fun y x out => copy_pixel src dx dy x y out)
    (fun a b => b + dx) (fun a b => a + dy) (fun X Y => Y - dy) (fun X Y => X - dx)
    (fun X Y c => pix src (X - dx) (Y - dy) c)
    0 (height src) 0 (width src) dst Hwd Hh Hw) as (out & E & HP).
  - intros a b _ _. lia.
  - intros y x im Hy Hx Hwfi Hwi Hhi.
    destruct (copy_to_updated src x y (x + dx) (y + dy) im Hws Hwfi Hx Hy)
      as (im' & E & U); [lia | lia |].
    exists im'. split; [exact E|].
    eapply updated_ext; [exact U | reflexivity |].
    intros c _ _. cbv beta. f_equal; lia.
  - exists out. split; [exact E|]. eapply painted_ext; [exact HP|].
    intros X Y _ _. cbv beta.
    replace (X - dx + dx) with X by lia. replace (Y - dy + dy) with Y by lia.
    rewrite !Z.eqb_refl, !andb_true_r. reflexivity.
Qed.

(** The picture is where [paste] put it. *)
Lemma paste_holds src dx dy dst out :
  painted dst out
    (fun X Y => in_rect 0 (height src) 0 (width src) (Y - dy) (X - dx))
    (fun X Y c => pix src (X - dx) (Y - dy) c) ->
  0 <= dx -> 0 <= dy ->
  dx + width src <= width dst -> dy + height src <= height dst ->
  forall x y c, inside src x y c -> pix out (x + dx) (y + dy) c = pix src x y c.
Proof.
  intros (_ & _ & _ & Hp) Hdx Hdy Hfx Hfy x y c (Hx & Hy & Hc).
  rewrite Hp by (unfold inside; lia).
  replace (x + dx - dx) with x by lia. replace (y + dy - dy) with y by lia.
  unfold in_rect. zbool; try lia; reflexivity.
Qed.

(** A stage that paints unconditionally, as far as the later stages need
    it: it returns a buffer of the same size. *)
Lemma fill_stage (body : Z -> Z -> Image -> result Image) x0 x1 y0 y1 img :
  wf img -> 0 <= x0 <= width img -> x1 <= width img ->
  0 <= y0 <= height img -> y1 <= height img ->
  (forall x y im, x0 <= x < x1 -> y0 <= y < y1 -> wf im ->
     width im = width img -> height im = height img ->
     exists im', body x y im = Ok im' /\ writes_at im im' x y) ->
  exists img',
    for_rect x0 x1 y0 y1 body img = Ok img' /\
    wf img' /\ width img' = width img /\ height img' = height img.
Proof.
  intros Hwf Hx0 Hx1 Hy0 Hy1 Hstep.
  destruct (stage_keeps body (fun _ _ => true) x0 x1 y0 y1 img Hwf Hx0 Hx1 Hy0 Hy1)
    as (img' & E & Hwf' & Hw' & Hh' & _).
  - intros x y im Hx Hy Hwfi Hw Hh.
    destruct (Hstep x y im Hx Hy Hwfi Hw Hh) as (im' & E & Hwr).
    exists im'. split; [exact E|]. split; [exact Hwr | discriminate].
  - exists img'. auto.
Qed.

Ltac paint_step :=
  match goal with
  | |- exists im', paint ?col ?x ?y ?im = Ok im' /\ writes_at ?im im' ?x ?y =>
      apply paint_writes_at; [assumption | lia | lia]
  | |- exists im', Ok ?im = Ok im' /\ writes_at ?im im' ?x ?y =>
      exists im; split; [reflexivity | apply writes_at_refl; assumption]
  end.

Lemma bind_ret {A B : Type} (a : A) (k : A -> result B) : bind (Ok a) k = k a.
Proof. reflexivity. Qed.

(** Runs the first stage of the goal's chain that only paints. *)
Ltac run_fill out :=
  match goal with
  | Hwf : wf ?img |- context [for_rect ?x0 ?x1 ?y0 ?y1 ?body ?img] =>
      let E := fresh "E" in
      let Hwf' := fresh "Hwf" in
      let Hw' := fresh "Hw" in
      let Hh' := fresh "Hh" in
      destruct (fill_stage body x0 x1 y0 y1 img Hwf)
        as (out & E & Hwf' & Hw' & Hh');
      [ lia | lia | lia | lia
      | let x := fresh "x" in let y := fresh "y" in let im := fresh "im" in
        intros x y im ? ? ? ? ?; cbv zeta;
        repeat match goal with
               | |- context [if ?b then _ else _] => destruct b
               end;
        paint_step
      | rewrite E, bind_ret ]
  end.

Lemma new_frame_wf junk w h g :
  0 <= w -> 0 <= h -> 0 <= g <= 90 ->
  (w + 90) * (h + 90) * 3 < 2 ^ 31 ->
  wf (newImage junk (w + g) (h + g)).
Proof.
  intros Hw Hh Hg Hsz. apply newImage_wf; try lia. unfold channels. nia.
Qed.

Lemma double_border_frame_spec junk src :
  wf src -> (width src + 90) * (height src + 90) * 3 < 2 ^ 31 ->
  exists out,
    double_border_frame junk src = Ok out /\ wf out /\
    width out = width src + 48 /\ height out = height src + 48 /\
    forall x y c, inside src x y c -> pix out (x + 24) (y + 24) c = pix src x y c.
Proof.
  intros Hwf Hsz. pose proof Hwf as (Hw & Hh & _).
  unfold double_border_frame. cbv zeta.
  replace (2 * (14 + 6 + 4)) with 48 by reflexivity.
  change (14 + 4) with 18. change (14 + 4 + 6) with 24.
  pose proof (new_frame_wf junk (width src) (height src) 48 Hw Hh ltac:(lia) Hsz) as Hwf0.
  set (out0 := newImage junk (width src + 48) (height src + 48)) in *.
  assert (width out0 = width src + 48) as Hw0 by reflexivity.
  assert (height out0 = height src + 48) as Hh0 by reflexivity.
  run_fill out1. run_fill out2. run_fill out3.
  destruct (paste_painted src 24 24 out3 Hwf Hwf3) as (out & Ep & HP); try lia.
  exists out. split; [exact Ep|].
  pose proof HP as (Hwfo & Hwo & Hho & _).
  split; [exact Hwfo|]. split; [lia|]. split; [lia|].
  apply (paste_holds src 24 24 out3 out HP); lia.
Qed.

Lemma solid_frame_spec junk src frameType :
  wf src -> (width src + 90) * (height src + 90) * 3 < 2 ^ 31 ->
  exists out,
    solid_frame junk src frameType = Ok out /\ wf out /\
    width out = width src + 40 /\ height out = height src + 40 /\
    forall x y c, inside src x y c -> pix out (x + 20) (y + 20) c = pix src x y c.
Proof.
  intros Hwf Hsz. pose proof Hwf as (Hw & Hh & _).
  unfold solid_frame. cbv zeta.
  replace (2 * 20) with 40 by reflexivity.
  pose proof (new_frame_wf junk (width src) (height src) 40 Hw Hh ltac:(lia) Hsz) as Hwf0.
  set (out0 := newImage junk (width src + 40) (height src + 40)) in *.
  assert (width out0 = width src + 40) as Hw0 by reflexivity.
  assert (height out0 = height src + 40) as Hh0 by reflexivity.
  run_fill out1.
  destruct (paste_painted src 20 20 out1 Hwf Hwf1) as (out & Ep & HP); try lia.
  exists out. split; [exact Ep|].
  pose proof HP as (Hwfo & Hwo & Hho & _).
  split; [exact Hwfo|]. split; [lia|]. split; [lia|].
  apply (paste_holds src 20 20 out1 out HP); lia.
Qed.

Lemma shadow_frame_spec junk src :
  wf src -> (width src + 90) * (height src + 90) * 3 < 2 ^ 31 ->
  exists out,
    shadow_frame junk src = Ok out /\ wf out /\
    width out = width src + 33 /\ height out = height src + 33 /\
    forall x y c, inside src x y c -> pix out (x + 15) (y + 15) c = pix src x y c.
Proof.
  intros Hwf Hsz. pose proof Hwf as (Hw & Hh & _).
  unfold shadow_frame. cbv zeta.
  replace (width src + 15 + 18) with (width src + 33) by lia.
  replace (height src + 15 + 18) with (height src + 33) by lia.
  pose proof (new_frame_wf junk (width src) (height src) 33 Hw Hh ltac:(lia) Hsz) as Hwf0.
  set (out0 := newImage junk (width src + 33) (height src + 33)) in *.
  assert (width out0 = width src + 33) as Hw0 by reflexivity.
  assert (height out0 = height src + 33) as Hh0 by reflexivity.
  run_fill out1. run_fill out2.
  destruct (paste_painted src 15 15 out2 Hwf Hwf2) as (out & Ep & HP); try lia.
  exists out. split; [exact Ep|].
  pose proof HP as (Hwfo & Hwo & Hho & _).
  split; [exact Hwfo|]. split; [lia|]. split; [lia|].
  apply (paste_holds src 15 15 out2 out HP); lia.
Qed.

Lemma gold_frame_spec junk src :
  wf src -> (width src + 90) * (height src + 90) * 3 < 2 ^ 31 ->
  exists out,
    gold_frame junk src = Ok out /\ wf out /\
    width out = width src + 90 /\ height out = height src + 90 /\
    forall x y c, inside src x y c -> pix out (x + 45) (y + 45) c = pix src x y c.
Proof.
  intros Hwf Hsz. pose proof Hwf as (Hw & Hh & _).
  unfold gold_frame. cbv zeta.
  replace (2 * 45) with 90 by reflexivity. change (45 - 6) with 39.
  pose proof (new_frame_wf junk (width src) (height src) 90 Hw Hh ltac:(lia) Hsz) as Hwf0.
  set (out0 := newImage junk (width src + 90) (height src + 90)) in *.
  assert (width out0 = width src + 90) as Hw0 by reflexivity.
  assert (height out0 = height src + 90) as Hh0 by reflexivity.
  run_fill out1. run_fill out2. run_fill out3.
  destruct (paste_painted src 45 45 out3 Hwf Hwf3) as (out & Ep & HP); try lia.
  exists out. split; [exact Ep|].
  pose proof HP as (Hwfo & Hwo & Hho & _).
  split; [exact Hwfo|]. split; [lia|]. split; [lia|].
  apply (paste_holds src 45 45 out3 out HP); lia.
Qed.

Lemma decorated_frame_spec junk src :
  wf src -> (width src + 90) * (height src + 90) * 3 < 2 ^ 31 ->
  exists out,
    decorated_frame junk src = Ok out /\ wf out /\
    width out = width src + 50 /\ height out = height src + 50 /\
    forall x y c, inside src x y c -> pix out (x + 25) (y + 25) c = pix src x y c.
Proof.
  intros Hwf Hsz. pose proof Hwf as (Hw & Hh & _).
  unfold decorated_frame. cbv zeta.
  replace (2 * 25) with 50 by reflexivity.
  pose proof (new_frame_wf junk (width src) (height src) 50 Hw Hh ltac:(lia) Hsz) as Hwf0.
  set (out0 := newImage junk (width src + 50) (height src + 50)) in *.
  assert (width out0 = width src + 50) as Hw0 by reflexivity.
  assert (height out0 = height src + 50) as Hh0 by reflexivity.
  destruct (paste_painted src 25 25 out0 Hwf Hwf0) as (out1 & Ep & HP); try lia.
  rewrite Ep, bind_ret.
  pose proof HP as (Hwf1 & Hw1 & Hh1 & _).
  match goal with
  | |- context [for_rect ?x0 ?x1 ?y0 ?y1 ?body out1] =>
      destruct (stage_keeps body
                  (fun x y => (x <? 25) || (width src + 50 - 25 <=? x)
                              || (y <? 25) || (height src + 50 - 25 <=? y))
                  x0 x1 y0 y1 out1 Hwf1)
        as (out & E & Hwfo & Hwo & Hho & Hk); try lia
  end.
  - intros x y im Hx Hy Hwfi Hwi Hhi. cbv beta.
    destruct ((x <? 25) || (width src + 50 - 25 <=? x)
              || (y <? 25) || (height src + 50 - 25 <=? y)).
    + repeat match goal with
             | |- context [if ?b then _ else _] => destruct b
             end;
        try (match goal with
             | |- exists im', paint ?col x y im = Ok im' /\ _ =>
                 destruct (paint_writes_at col x y im Hwfi ltac:(lia) ltac:(lia))
                   as (im1 & E1 & W1);
                 exists im1; split; [exact E1|]; split; [exact W1 | discriminate]
             end).
      all: destruct (paint_writes_at [235; 225; 210] x y im Hwfi ltac:(lia) ltac:(lia))
             as (im1 & E1 & W1); rewrite E1, bind_ret.
      * pose proof W1 as (Hwf1' & Hw1' & Hh1' & _).
        destruct (paint_writes_at [180; 140; 80] x y im1 Hwf1' ltac:(lia) ltac:(lia))
          as (im2 & E2 & W2).
        exists im2. split; [exact E2|]. split; [|discriminate].
        eapply writes_at_trans; eassumption.
      * exists im1. split; [reflexivity|]. split; [exact W1 | discriminate].
    + exists im. split; [reflexivity|]. split; [apply writes_at_refl; exact Hwfi|].
      reflexivity.
  - exists out. split; [exact E|]. split; [exact Hwfo|]. split; [lia|]. split; [lia|].
    intros x y c Hin. rewrite Hk.
    + apply (paste_holds src 25 25 out0 out1 HP); try lia. exact Hin.
    + unfold inside in *. lia.
    + destruct Hin as (Hx & Hy & _). zbool; try lia;
        rewrite ?andb_false_r; reflexivity.
Qed.

Lemma updated_none im x y f : wf im -> updated im im x y (fun _ => false) f.
Proof.
  intros Hwf. unfold updated. split; [exact Hwf|]. split; [reflexivity|].
  split; [reflexivity|]. intros x' y' c' _. rewrite andb_false_r. reflexivity.
Qed.

Lemma simple_frame_spec junk src :
  wf src -> (width src + 90) * (height src + 90) * 3 < 2 ^ 31 ->
  exists out,
    simple_frame junk src = Ok out /\ wf out /\
    width out = width src + 20 /\ height out = height src + 20 /\
    forall x y c, inside src x y c ->
      pix out (x + 10) (y + 10) c
        = if simple_band src x y then 255 else pix src x y c.
Proof.
  intros Hwf Hsz. pose proof Hwf as (Hw & Hh & _).
  unfold simple_frame. cbv zeta.
  replace (2 * 10) with 20 by reflexivity. change (10 + 5) with 15.
  change (15 + 5) with 20.
  pose proof (new_frame_wf junk (width src) (height src) 20 Hw Hh ltac:(lia) Hsz) as Hwf0.
  set (out0 := newImage junk (width src + 20) (height src + 20)) in *.
  assert (width out0 = width src + 20) as Hw0 by reflexivity.
  assert (height out0 = height src + 20) as Hh0 by reflexivity.
  run_fill out1.
  destruct (paste_painted src 10 10 out1 Hwf Hwf1) as (out2 & Ep & HP); try lia.
  rewrite Ep, bind_ret.
  pose proof HP as (Hwf2 & Hw2 & Hh2 & _).
  match goal with
  | |- context [for_rect ?x0 ?x1 ?y0 ?y1 ?body out2] =>
      destruct (stage_painted body
                  (fun x y => (x <? 20) || (10 + width src - 5 - 5 <=? x)
                              || (y <? 20) || (10 + height src - 5 - 5 <=? y))
                  (fun _ _ c => at_index white c mod 256)
                  x0 x1 y0 y1 out2 Hwf2)
        as (out & Es & Hwfo & Hwo & Hho & Hpo); try lia
  end.
  - intros x y im Hx Hy Hwfi Hwi Hhi. cbv beta.
    destruct ((x <? 20) || (10 + width src - 5 - 5 <=? x)
              || (y <? 20) || (10 + height src - 5 - 5 <=? y)).
    + apply paint_updated; [exact Hwfi | lia | lia].
    + exists im. split; [reflexivity|]. apply updated_none. exact Hwfi.
  - exists out. split; [exact Es|]. split; [exact Hwfo|]. split; [lia|]. split; [lia|].
    intros x y c Hin. rewrite Hpo by inside_lia.
    rewrite (paste_holds src 10 10 out1 out2 HP) by (try lia; exact Hin).
    destruct Hin as (Hx & Hy & Hc).
    assert (at_index white c mod 256 = 255) as ->.
    { unfold channels in Hc.
      assert (c = 0 \/ c = 1 \/ c = 2) as [-> | [-> | ->]] by lia; reflexivity. }
    match goal with
    | |- (if ?b then _ else _) = _ =>
        assert (b = simple_band src x y) as ->; [|reflexivity]
    end.
    apply Bool.eq_iff_eq_true. unfold simple_band, in_rect.
    cbv beta.
    repeat first [rewrite andb_true_iff | rewrite orb_true_iff
                 | rewrite Z.ltb_lt | rewrite Z.leb_le].
    lia.
Qed.

(** X21. Every frame of [applyFrame] other than the simple one returns a
    buffer grown by the frame on each side that holds the picture
    unchanged at the frame's offset. *)
Theorem applyFrame_keeps_picture f junk img frameType :
  frameType <> "Simple Frame"%string ->
  wf img -> (width img + 90) * (height img + 90) * 3 < 2 ^ 31 ->
  exists f' out,
    applyFrame f junk img frameType = Ok (f', out) /\
    width out = width img + frame_grow frameType /\
    height out = height img + frame_grow frameType /\
    forall x y c, inside img x y c ->
      getPixel out (x + frame_margin frameType) (y + frame_margin frameType) c
        = getPixel img x y c.
Proof.
  intros Hs Hwf Hsz. apply String.eqb_neq in Hs.
  assert (exists out,
    (if String.eqb frameType "Double Border - White" then
       double_border_frame junk img
     else if solid_name frameType then solid_frame junk img frameType
     else if String.eqb frameType "Shadow Frame" then shadow_frame junk img
     else if String.eqb frameType "Gold Decorated Frame" then gold_frame junk img
     else decorated_frame junk img) = Ok out /\ wf out /\
    width out = width img + frame_grow frameType /\
    height out = height img + frame_grow frameType /\
    forall x y c, inside img x y c ->
      pix out (x + frame_margin frameType) (y + frame_margin frameType) c
        = pix img x y c) as (out & E & Hwfo & Hwo & Hho & Hp).
  { unfold frame_grow, frame_margin.
    destruct (String.eqb frameType "Double Border - White");
      [apply double_border_frame_spec; assumption|].
    destruct (solid_name frameType); [apply solid_frame_spec; assumption|].
    destruct (String.eqb frameType "Shadow Frame");
      [apply shadow_frame_spec; assumption|].
    destruct (String.eqb frameType "Gold Decorated Frame");
      [apply gold_frame_spec; assumption|].
    apply decorated_frame_spec; assumption. }
  unfold applyFrame. cbv zeta. rewrite Hs. fold (solid_name frameType).
  rewrite E, bind_ret. eexists _, out. split; [reflexivity|].
  split; [exact Hwo|]. split; [exact Hho|].
  intros x y c Hin.
  destruct (getPixel_pix img x y c Hwf Hin) as (-> & _).
  assert (0 <= frame_margin frameType /\
          2 * frame_margin frameType <= frame_grow frameType) as (Hm & Hg).
  { unfold frame_margin, frame_grow.
    destruct (String.eqb frameType "Double Border - White"); [lia|].
    destruct (solid_name frameType); [lia|].
    destruct (String.eqb frameType "Shadow Frame"); [lia|].
    destruct (String.eqb frameType "Gold Decorated Frame"); lia. }
  destruct (getPixel_pix out (x + frame_margin frameType)
              (y + frame_margin frameType) c Hwfo) as (-> & _); [inside_lia|].
  rewrite (Hp _ _ _ Hin). reflexivity.
Qed.

Lemma applyFrame_keeps_picture_witness :
  exists f' out,
    applyFrame engine (fun _ => 7) quad "Shadow Frame" = Ok (f', out) /\
    width out = 2 + 33 /\ height out = 2 + 33 /\
    forall x y c, inside quad x y c ->
      getPixel out (x + 15) (y + 15) c = getPixel quad x y c.
Proof.
  apply (applyFrame_keeps_picture engine (fun _ => 7) quad "Shadow Frame");
    [discriminate | wf_concrete | vm_compute; reflexivity].
Defined.

(** X22. The simple frame adds ten pixels on each side and paints over
    the picture itself: the band five pixels wide that starts five pixels
    inside the picture's border comes out white; the rest of the picture
    is unchanged. *)
Theorem applyFrame_simple_band f junk img :
  wf img -> (width img + 90) * (height img + 90) * 3 < 2 ^ 31 ->
  exists f' out,
    applyFrame f junk img "Simple Frame" = Ok (f', out) /\
    width out = width img + 20 /\ height out = height img + 20 /\
    forall x y c, inside img x y c ->
      getPixel out (x + 10) (y + 10) c
        = if simple_band img x y then Ok 255 else getPixel img x y c.
Proof.
  intros Hwf Hsz.
  destruct (simple_frame_spec junk img Hwf Hsz) as (out & E & Hwfo & Hwo & Hho & Hp).
  unfold applyFrame. cbv zeta. rewrite String.eqb_refl. rewrite E, bind_ret.
  eexists _, out. split; [reflexivity|]. split; [exact Hwo|]. split; [exact Hho|].
  intros x y c Hin.
  destruct (getPixel_pix img x y c Hwf Hin) as (-> & _).
  destruct (getPixel_pix out (x + 10) (y + 10) c Hwfo) as (-> & _); [inside_lia|].
  rewrite (Hp _ _ _ Hin). destruct (simple_band img x y); reflexivity.
Qed.

Lemma applyFrame_simple_band_witness :
  exists f' out,
    applyFrame engine (fun _ => 7) (solid 12 12 1 2 3) "Simple Frame" = Ok (f', out) /\
    width out = 12 + 20 /\ height out = 12 + 20 /\
    forall x y c, inside (solid 12 12 1 2 3) x y c ->
      getPixel out (x + 10) (y + 10) c
        = if simple_band (solid 12 12 1 2 3) x y then Ok 255
          else getPixel (solid 12 12 1 2 3) x y c.
Proof.
  apply (applyFrame_simple_band engine (fun _ => 7) (solid 12 12 1 2 3)).
  - unfold wf, solid. simpl width. simpl height.
    split; [lia|]. split; [lia|]. split; [vm_compute; reflexivity|].
    split; [vm_compute; reflexivity|].
    apply Forall_forall. intros v Hv. apply list_elem_of_In in Hv.
    vm_compute in Hv. repeat (destruct Hv as [<- | Hv]; [lia|]). destruct Hv.
  - vm_compute. reflexivity.
Defined.

Example simple_frame_paints_over_picture :
  exists f' out,
    applyFrame engine (fun _ => 0) (solid 12 12 1 2 3) "Simple Frame" = Ok (f', out) /\
    getPixel (solid 12 12 1 2 3) 5 5 0 = Ok 1 /\
    getPixel out 15 15 0 = Ok 255.
Proof. eexists _, _. split; [vm_compute; reflexivity|]. split; vm_compute; reflexivity. Qed.

(** ** The two overloads of a filter *)

(** A run to the end of rows that write a local buffer is the plain loop
    over the rows. *)
Lemma cancelable_loop_rows clicks name total interval
    (step : Image -> Z -> Image -> result Image) (n : nat) :
  forall y st out st' out',
    cancelable_loop clicks name total interval (into_local step) n y st out
      = Ok (Completed, st', out') ->
    for_loop n y (fun y out => step (currentImage st) y out) out = Ok out' /\
    currentImage st' = currentImage st.
Proof.
  induction n as [|n IH]; intros y st out st' out'; simpl.
  - intros [= <- <-]. auto.
  - destruct (cancelRequested st); [discriminate|].
    unfold into_local at 1.
    destruct (step (currentImage st) y out) as [o1|]; simpl; [|discriminate].
    intros H. apply IH in H. destruct H as (H & Hc).
    rewrite (proj1 (updateProgress_images _ _ _ _ _)) in H, Hc. auto.
Qed.

(** A pixel step writes the pixel [(x, y)] with values that do not depend
    on the buffer it writes to. *)
Lemma nest_interchange (p : Z -> Z -> Image -> result Image) out0 :
  wf out0 ->
  (forall x y, 0 <= x < width out0 -> 0 <= y < height out0 ->
     exists v, forall out, wf out ->
       width out = width out0 -> height out = height out0 ->
       exists out', p x y out = Ok out' /\
                    updated out out' x y (fun _ => true) v) ->
  exists out,
    for_range 0 (height out0)
      (fun y o => for_range 0 (width out0) (fun x o => p x y o) o) out0 = Ok out /\
    for_range 0 (width out0)
      (fun x o => for_range 0 (height out0) (fun y o => p x y o) o) out0 = Ok out.
Proof.
  intros Hwf Hp. pose proof Hwf as (Hw & Hh & _).
  set (F := fun x y c =>
              pix (match p x y out0 with Ok o => o | Err _ => out0 end) x y c).
  assert (forall x y out, 0 <= x < width out0 -> 0 <= y < height out0 ->
            wf out -> width out = width out0 -> height out = height out0 ->
            exists out', p x y out = Ok out' /\
                         updated out out' x y (fun _ => true) (F x y)) as HF.
  { intros x y out Hx Hy Hwfo Hwo Hho.
    destruct (Hp x y Hx Hy) as (v & Hv).
    destruct (Hv out Hwfo Hwo Hho) as (out' & E & U).
    exists out'. split; [exact E|].
    eapply updated_ext; [exact U | reflexivity|].
    intros c Hc _. unfold F.
    destruct (Hv out0 Hwf eq_refl eq_refl) as (o & E0 & (_ & _ & _ & U0)).
    rewrite E0. rewrite U0 by (unfold inside; auto).
    rewrite !Z.eqb_refl. reflexivity. }
  destruct (stage_painted (fun x y o => p x y o) (fun _ _ => true) F
              0 (width out0) 0 (height out0) out0 Hwf)
    as (out1 & E1 & P1); try lia.
  { intros x y im Hx Hy Hwfi Hwi Hhi. apply HF; assumption. }
  destruct (scatter_painted (fun x y o => p x y o)
              (fun a b => a) (fun a b => b) (fun X Y => X) (fun X Y => Y) F
              0 (width out0) 0 (height out0) out0 Hwf Hw Hh)
    as (out2 & E2 & P2).
  { intros a b _ _. auto. }
  { intros a b im Ha Hb Hwfi Hwi Hhi. apply HF; assumption. }
  assert (out2 = out1) as ->.
  { destruct P1 as (Hwf1 & Hw1 & Hh1 & Hp1), P2 as (Hwf2 & Hw2 & Hh2 & Hp2).
    apply image_ext; [exact Hwf2 | exact Hwf1 | congruence | congruence |].
    intros x y c Hin.
    assert (inside out0 x y c) as Hin0 by inside_lia.
    rewrite (Hp1 _ _ _ Hin0), (Hp2 _ _ _ Hin0).
    destruct Hin0 as (Hx & Hy & _). unfold in_rect. rewrite !Z.eqb_refl.
    zbool; try lia; reflexivity. }
  exists out1. split; [exact E1 | exact E2].
Qed.

Lemma sunlight_pixel_writes src x y :
  wf src -> 0 <= x < width src -> 0 <= y < height src ->
  exists v, forall out, wf out ->
    width out = width src -> height out = height src ->
    exists out', sunlight_pixel src y x out = Ok out' /\
                 updated out out' x y (fun _ => true) v.
Proof.
  intros Hwf Hx Hy.
  exists (rgb (Z.min 255 (scale_d (pix src x y 0) 14 10) mod 256)
              (Z.min 255 (scale_d (pix src x y 1) 14 10) mod 256)
              (pix src x y 2 mod 256)).
  intros out Hwfo Hwo Hho. unfold sunlight_pixel. rewrite for_range_3.
  destruct (getPixel_pix src x y 0 Hwf) as (-> & A0); [inside_lia|].
  destruct (getPixel_pix src x y 1 Hwf) as (-> & A1); [inside_lia|].
  destruct (getPixel_pix src x y 2 Hwf) as (-> & A2); [inside_lia|].
  simpl.
  destruct (set3_updated out x y (Z.min 255 (scale_d (pix src x y 0) 14 10))
              (Z.min 255 (scale_d (pix src x y 1) 14 10)) (pix src x y 2) Hwfo)
    as (out' & E & U); [lia | lia |].
  unfold set3 in E. exists out'. split; [exact E | exact U].
Qed.

Lemma oil_pixel_writes radius intensity src x y :
  wf src ->
  exists v, forall out, wf out ->
    0 <= x < width out -> 0 <= y < height out ->
    exists out', oil_pixel radius (Z.max 1 intensity) src y x out = Ok out' /\
                 updated out out' x y (fun _ => true) v.
Proof.
  intros Hwf. unfold oil_pixel.
  destruct (for_range_inv (fun _ (_ : OilAcc) => True)
              (fun dy acc =>
                 for_range (- radius) (radius + 1)
                   (oil_sample src (Z.max 1 intensity) x y dy) acc)
              (- radius) (Z.max (- radius) (radius + 1)) oil_zero)
    as (acc & Ea & _); [lia | exact I | |].
  { intros dy a _ _.
    destruct (for_range_inv (fun _ (_ : OilAcc) => True)
                (oil_sample src (Z.max 1 intensity) x y dy)
                (- radius) (Z.max (- radius) (radius + 1)) a)
      as (a' & Ea' & _); [lia | exact I | |].
    - intros dx b _ _. unfold oil_sample. cbv zeta.
      destruct (inBounds src (x + dx) (y + dy)) eqn:Eb; [|eexists; split; [reflexivity | exact I]].
      destruct (getPixel_pix src (x + dx) (y + dy) 0 Hwf) as (-> & _);
        [apply inBounds_inside; [exact Eb | unfold channels; lia]|].
      destruct (getPixel_pix src (x + dx) (y + dy) 1 Hwf) as (-> & _);
        [apply inBounds_inside; [exact Eb | unfold channels; lia]|].
      destruct (getPixel_pix src (x + dx) (y + dy) 2 Hwf) as (-> & _);
        [apply inBounds_inside; [exact Eb | unfold channels; lia]|].
      rewrite !bind_ret. rewrite (Z.max_r 1 (Z.max 1 intensity)) by lia.
      rewrite idiv_floored. eexists. split; [reflexivity | exact I].
    - rewrite <- for_range_max in Ea'. exists a'. split; [exact Ea' | exact I]. }
  rewrite <- for_range_max in Ea.
  destruct (for_range_inv (fun _ (_ : Z * Z) => True)
              (fun k m => if fst m <? at_index (colorCount acc) k
                          then Ok (at_index (colorCount acc) k, k) else Ok m)
              0 256 (0, 0)) as (m & Em & _); [lia | exact I | |].
  { intros k m _ _. destruct (fst m <? at_index (colorCount acc) k);
      eexists; split; try reflexivity; exact I. }
  set (denom := Z.max 1 (at_index (colorCount acc) (snd m))).
  exists (rgb (Z.quot (at_index (redSum acc) (snd m)) denom mod 256)
              (Z.quot (at_index (greenSum acc) (snd m)) denom mod 256)
              (Z.quot (at_index (blueSum acc) (snd m)) denom mod 256)).
  intros out Hwfo Hxo Hyo. rewrite Ea, bind_ret.
  unfold oil_max. rewrite Em, bind_ret. cbv zeta. fold denom.
  unfold denom at 1 2 3. rewrite !idiv_floored. fold denom. rewrite !bind_ret.
  destruct (set3_updated out x y (Z.quot (at_index (redSum acc) (snd m)) denom)
              (Z.quot (at_index (greenSum acc) (snd m)) denom)
              (Z.quot (at_index (blueSum acc) (snd m)) denom) Hwfo Hxo Hyo)
    as (out' & E & U).
  unfold set3 in E. exists out'. split; [|exact U].
  rewrite <- E. reflexivity.
Qed.

Lemma run_cancelable_completed {L : Type} (F : Cancelable L) clicks st st' :
  run_cancelable F clicks st = Ok (Completed, st') ->
  exists p s1 l1,
    currentImage p = currentImage st /\
    cancelable_loop clicks (filterName F) (progressTotal F (currentImage st))
      (updateInterval F) (rowBody F)
      (Z.to_nat (rowBound F (currentImage st))) 0 p (locals F (currentImage st))
      = Ok (Completed, s1, l1) /\
    st' = finish F s1 l1.
Proof.
  unfold run_cancelable, run_rows.
  set (p := prologue clicks (progressTotal F (currentImage st)) (startMessage F) st).
  assert (currentImage p = currentImage st) as Hp by apply prologue_images.
  rewrite Hp. intros H. apply bind_Ok in H. destruct H as ([[o s1] l1] & Hl & Hc).
  destruct o; [|discriminate]. injection Hc as <-.
  exists p, s1, l1. auto.
Qed.

Lemma for_rect_rows (body : Z -> Z -> Image -> result Image) w h out :
  for_rect 0 w 0 h body out
  = for_loop (Z.to_nat h) 0 (fun y o => for_range 0 w (fun x o => body x y o) o) out.
Proof. unfold for_rect, for_range at 1. rewrite Z.sub_0_r. reflexivity. Qed.

Lemma for_range_rows {S : Type} (body : Z -> S -> result S) h s :
  for_range 0 h body s = for_loop (Z.to_nat h) 0 body s.
Proof. unfold for_range. rewrite Z.sub_0_r. reflexivity. Qed.

(** X23. Each of the five filters that has an immediate overload beside
    the cancelable one computes the same buffer in both: when the
    cancelable overload runs to its end on a buffer, the immediate
    overload returns on that buffer with the same result, although two of
    them (oil painting, sunlight) go through the pixels in another
    order. *)
Theorem overloads_agree flt imm clicks st st' f :
  immediate_of flt = Some imm ->
  wf (currentImage st) ->
  apply_filter flt clicks st = Ok (Completed, st') ->
  exists f', imm f (currentImage st) = Ok (f', currentImage st').
Proof.
  intros Himm Hwf Hrun. rewrite apply_filter_run in Hrun.
  apply run_cancelable_completed in Hrun.
  destruct Hrun as (p & s1 & l1 & Hp & Hloop & ->).
  pose proof Hwf as (Hw & Hh & Hsz & _).
  destruct flt; simpl in Himm; try discriminate; injection Himm as <-;
    simpl in Hloop; apply cancelable_loop_rows in Hloop;
    destruct Hloop as (Hrows & _); rewrite Hp in Hrows; simpl.
  - unfold applyEmbossImmediate. cbv zeta. rewrite for_rect_rows.
    match goal with
    | |- context [bind ?e _] => replace e with (@Ok Image l1) by (symmetry; exact Hrows)
    end.
    eexists. reflexivity.
  - unfold applyDoubleVisionImmediate. cbv zeta. rewrite for_rect_rows.
    match goal with
    | |- context [bind ?e _] => replace e with (@Ok Image l1) by (symmetry; exact Hrows)
    end.
    eexists. reflexivity.
  - unfold applyOilPainting. cbv zeta.
    pose proof (newImage_wf junk _ _ Hw Hh Hsz) as Hwf0.
    destruct (nest_interchange
                (fun x y o => oil_pixel (Z.max 1 radius) (Z.max 1 (Z.min 255 intensity))
                                (currentImage st) y x o)
                (newImage junk (width (currentImage st)) (height (currentImage st)))
                Hwf0) as (out & Er & Ec).
    { intros x y Hx Hy.
      destruct (oil_pixel_writes (Z.max 1 radius) (Z.min 255 intensity)
                  (currentImage st) x y Hwf) as (v & Hv).
      exists v. intros o Hwfo Hwo Hho. apply Hv; [exact Hwfo | lia | lia]. }
    simpl width in Er, Ec. simpl height in Er, Ec.
    rewrite for_range_rows in Er.
    assert (@Ok Image l1 = Ok out) as Heq by (rewrite <- Er; symmetry; exact Hrows).
    injection Heq as ->.
    rewrite Ec. eexists. reflexivity.
  - unfold applyEnhanceSunlightImmediate. cbv zeta.
    pose proof (newImage_wf junk _ _ Hw Hh Hsz) as Hwf0.
    destruct (nest_interchange
                (fun x y o => sunlight_pixel (currentImage st) y x o)
                (newImage junk (width (currentImage st)) (height (currentImage st)))
                Hwf0) as (out & Er & Ec).
    { intros x y Hx Hy.
      destruct (sunlight_pixel_writes (currentImage st) x y Hwf Hx Hy) as (v & Hv).
      exists v. intros o Hwfo Hwo Hho. apply Hv; assumption. }
    simpl width in Er, Ec. simpl height in Er, Ec.
    rewrite for_range_rows in Er.
    assert (@Ok Image l1 = Ok out) as Heq by (rewrite <- Er; symmetry; exact Hrows).
    injection Heq as ->.
    rewrite Ec. eexists. reflexivity.
  - unfold applyFishEyeImmediate. cbv zeta. rewrite for_rect_rows.
    match goal with
    | |- context [bind ?e _] => replace e with (@Ok Image l1) by (symmetry; exact Hrows)
    end.
    eexists. reflexivity.
Qed.

Lemma overloads_agree_witness :
  exists st' f',
    apply_filter (OilPainting (fun _ => 0) 1 20) quiet (fresh_state quad)
      = Ok (Completed, st') /\
    applyOilPainting engine (fun _ => 0) (currentImage (fresh_state quad)) 1 20
      = Ok (f', currentImage st').
Proof.
  assert (exists st',
            apply_filter (OilPainting (fun _ => 0) 1 20) quiet (fresh_state quad)
              = Ok (Completed, st')) as (st' & E).
  { vm_compute. eexists. reflexivity. }
  assert (wf (currentImage (fresh_state quad))) as Hwf by wf_concrete.
  destruct (overloads_agree (OilPainting (fun _ => 0) 1 20) _ quiet
              (fresh_state quad) st' engine eq_refl Hwf E) as (f' & Hf).
  exists st', f'. split; [exact E | exact Hf].
Defined.

(** ** The main window's filter actions *)

Lemma updateProgress_quiet clicks v t i st :
  (forall n, clicks n = false) ->
  cancelRequested (updateProgress clicks v t i st) = cancelRequested st.
Proof.
  intros Hq. unfold updateProgress, processEvents.
  destruct (progressBar (self st)); [|reflexivity].
  destruct (Z.rem v i =? 0); [|reflexivity].
  rewrite Hq. reflexivity.
Qed.

Lemma cancelable_loop_quiet {L : Type} clicks name total interval
    (row : Z -> State -> L -> result (State * L)) (n : nat) :
  (forall k, clicks k = false) ->
  (forall y st l st' l', row y st l = Ok (st', l') ->
     cancelRequested st' = cancelRequested st) ->
  forall y st l o st' l',
    cancelRequested st = false ->
    cancelable_loop clicks name total interval row n y st l = Ok (o, st', l') ->
    o = Completed.
Proof.
  intros Hq Hrow. induction n as [|n IH]; intros y st l o st' l' Hc; simpl.
  - intros [= <- _ _]. reflexivity.
  - rewrite Hc. destruct (row y st l) as [[s1 l1]|f] eqn:E; simpl; [|discriminate].
    apply IH. rewrite updateProgress_quiet by exact Hq.
    rewrite (Hrow _ _ _ _ _ E). exact Hc.
Qed.

(** X24. Provided no other action of the window starts during the run
    (the rounds of events deliver clicks on Cancel and nothing else, as
    [processEvents] models them), a filter cancelled under
    [runCancelableFilter] leaves the buffer of the window as it was before
    the action, whatever the snapshot buffer and the token held before;
    but the action has already marked the document as changed and pushed
    the filter label on the stack of undo names. The wrapper disables no
    widget, so the proviso is on the user, not on the program: an action
    started from inside a round of events would overwrite
    [preFilterImage], and the statement does not cover such a run. *)
Theorem cancelled_filter_action flt clicks w w' :
  hasImage (Window.members w) = true ->
  Window.runCancelableFilter flt clicks w = Ok (Cancelled, w') ->
  currentImage (Window.filters w') = currentImage (Window.filters w) /\
  psImage (Window.members w') = currentImage (Window.filters w) /\
  hasUnsavedChanges (Window.members w') = true /\
  undoFilterNames (Window.members w')
    = activeFilterValue (Window.members w) :: undoFilterNames (Window.members w).
Proof.
  intros Hh Hrun. unfold Window.runCancelableFilter in Hrun. cbv zeta in Hrun.
  apply bind_Ok in Hrun. destruct Hrun as ([o st'] & Hf & Hr).
  simpl in Hr. injection Hr as -> <-.
  apply cancelled_run_restores in Hf. simpl in Hf.
  cbn [Window.filters Window.members]. rewrite Hf.
  unfold saveStateForUndo, Window.with_image. cbn [hasImage]. rewrite Hh.
  simpl. auto.
Qed.

Lemma cancelled_filter_action_witness :
  exists w',
    Window.runCancelableFilter Grayscale (click_at 0)
      (Window.mkMainWindow
         (mkPhotoSmith quad true initial_history [] [] "None" false false false)
         (mkState engine quad (solid 1 1 0 0 0) true 0))
    = Ok (Cancelled, w') /\
    currentImage (Window.filters w') = quad /\
    hasUnsavedChanges (Window.members w') = true /\
    undoFilterNames (Window.members w') = ["None"%string].
Proof.
  assert (exists w',
            Window.runCancelableFilter Grayscale (click_at 0)
              (Window.mkMainWindow
                 (mkPhotoSmith quad true initial_history [] [] "None" false false false)
                 (mkState engine quad (solid 1 1 0 0 0) true 0))
            = Ok (Cancelled, w')) as (w' & E).
  { vm_compute. eexists. reflexivity. }
  destruct (cancelled_filter_action Grayscale (click_at 0)
              (Window.mkMainWindow
                 (mkPhotoSmith quad true initial_history [] [] "None" false false false)
                 (mkState engine quad (solid 1 1 0 0 0) true 0))
              w' eq_refl E)
    as (H1 & _ & H3 & H4).
  exists w'. split; [exact E|]. split; [exact H1|]. split; [exact H3 | exact H4].
Defined.

(** X25. [runCancelableFilter] clears the token before the call: when no
    click arrives during the action the filter runs to its end, also
    when the token was still set from an earlier cancellation. *)
Theorem filter_action_clears_token flt clicks w o w' :
  (forall n, clicks n = false) ->
  Window.runCancelableFilter flt clicks w = Ok (o, w') ->
  o = Completed.
Proof.
  intros Hq Hrun. unfold Window.runCancelableFilter in Hrun. cbv zeta in Hrun.
  apply bind_Ok in Hrun. destruct Hrun as ([o1 st'] & Hf & Hr).
  simpl in Hr. injection Hr as <- _.
  rewrite apply_filter_run in Hf. unfold run_cancelable, run_rows in Hf.
  apply bind_Ok in Hf. destruct Hf as ([[o2 s1] l1] & Hl & Hc).
  assert (o2 = Completed) as ->.
  { eapply (cancelable_loop_quiet clicks _ _ _ (rowBody (filter_of flt)));
      [exact Hq | | | exact Hl].
    - intros y0 s l s' l' E. destruct (rowBody_control flt _ _ _ _ _ E) as (_ & ? & _).
      assumption.
    - unfold prologue, processEvents. simpl. rewrite Hq. reflexivity. }
  simpl in Hc. injection Hc as <- _. reflexivity.
Qed.

Lemma filter_action_clears_token_witness :
  exists w',
    Window.runCancelableFilter Grayscale quiet
      (Window.mkMainWindow
         (mkPhotoSmith quad true initial_history [] [] "None" false false false)
         (mkState engine quad (solid 1 1 0 0 0) true 0))
    = Ok (Completed, w').
Proof.
  assert (exists o w',
            Window.runCancelableFilter Grayscale quiet
              (Window.mkMainWindow
                 (mkPhotoSmith quad true initial_history [] [] "None" false false false)
                 (mkState engine quad (solid 1 1 0 0 0) true 0))
            = Ok (o, w')) as (o & w' & E).
  { vm_compute. eexists _, _. reflexivity. }
  exists w'.
  rewrite <- (filter_action_clears_token Grayscale quiet
                (Window.mkMainWindow
                   (mkPhotoSmith quad true initial_history [] [] "None" false false false)
                   (mkState engine quad (solid 1 1 0 0 0) true 0))
                o w' (fun _ => eq_refl) E).
  exact E.
Defined.



(** ** Resize to another size *)

Lemma round_pos_nonneg p n d :
  0 <= n -> 0 < d ->
  0 <= Ieee.num (Ieee.round_pos p n d) /\ 0 < Ieee.den (Ieee.round_pos p n d).
Proof.
  intros Hn Hd. unfold Ieee.round_pos.
  destruct (n =? 0); [simpl; lia|]. cbv zeta.
  set (e := Ieee.floor_log2 n d - (p - 1)).
  destruct (Z.leb_spec 0 e) as [He|He].
  - assert (0 < 2 ^ e) as H2 by (apply Z.pow_pos_nonneg; lia).
    assert (0 <= n / (d * 2 ^ e)) as Hm by (apply Z.div_pos; nia).
    destruct (2 * (n mod (d * 2 ^ e)) <? d * 2 ^ e); [simpl; nia|].
    destruct (d * 2 ^ e <? 2 * (n mod (d * 2 ^ e))); [simpl; nia|].
    destruct (Z.even (n / (d * 2 ^ e))); simpl; nia.
  - assert (0 < 2 ^ (- e)) as H2 by (apply Z.pow_pos_nonneg; lia).
    assert (0 <= n * 2 ^ (- e) / d) as Hm by (apply Z.div_pos; nia).
    destruct (2 * ((n * 2 ^ (- e)) mod d) <? d); [simpl; nia|].
    destruct (d <? 2 * ((n * 2 ^ (- e)) mod d)); [simpl; nia|].
    destruct (Z.even (n * 2 ^ (- e) / d)); simpl; nia.
Qed.

Lemma round_nonneg p q :
  0 <= Ieee.num q -> 0 < Ieee.den q ->
  0 <= Ieee.num (Ieee.round p q) /\ 0 < Ieee.den (Ieee.round p q).
Proof.
  intros Hn Hd. unfold Ieee.round.
  destruct (Z.ltb_spec (Ieee.num q) 0); [lia|].
  apply round_pos_nonneg; assumption.
Qed.

(** The ratio of two sizes is a non-negative number. *)
Lemma ratio_nonneg a b :
  0 <= a < 2 ^ 53 -> 1 <= b < 2 ^ 53 ->
  0 <= Ieee.num (Ieee.div 53 (Ieee.of_int 53 a) (Ieee.of_int 53 b)) /\
  0 < Ieee.den (Ieee.div 53 (Ieee.of_int 53 a) (Ieee.of_int 53 b)).
Proof.
  intros Ha Hb.
  destruct (of_int_exact a ltac:(lia)) as (j & Hj & ->).
  destruct (of_int_exact b ltac:(lia)) as (k & Hk & ->).
  unfold Ieee.div. cbn [Ieee.num Ieee.den].
  destruct (Z.eqb_spec (b * k) 0); [nia|].
  destruct (Z.ltb_spec 0 (b * k)); [|nia].
  apply round_nonneg; cbn [Ieee.num Ieee.den]; nia.
Qed.

Lemma scale_nonneg x r :
  0 <= x < 2 ^ 53 -> 0 <= Ieee.num r -> 0 < Ieee.den r -> 0 <= scale x r.
Proof.
  intros Hx Hn Hd. unfold scale.
  destruct (of_int_exact x Hx) as (j & Hj & ->).
  unfold Ieee.mul.
  destruct (round_nonneg 53
              (Ieee.mkFrac (Ieee.num (Ieee.mkFrac (x * j) j) * Ieee.num r)
                           (Ieee.den (Ieee.mkFrac (x * j) j) * Ieee.den r)))
    as (H1 & H2); [cbn [Ieee.num Ieee.den]; nia | cbn [Ieee.num Ieee.den]; nia |].
  unfold Ieee.to_int. apply Z.quot_pos; [exact H1 | exact H2].
Qed.

Lemma resize_pixel_updated src xr yr out x y :
  wf src -> wf out -> 1 <= width src -> 1 <= height src ->
  0 <= x < width out -> 0 <= y < height out ->
  0 <= Ieee.num xr -> 0 < Ieee.den xr -> 0 <= Ieee.num yr -> 0 < Ieee.den yr ->
  exists out',
    resize_pixel src xr yr y x out = Ok out' /\
    updated out out' x y (fun _ => true)
      (fun c => pix src (Z.min (scale x xr) (width src - 1))
                        (Z.min (scale y yr) (height src - 1)) c).
Proof.
  intros Hwf Hwfo Hw Hh Hx Hy Hxn Hxd Hyn Hyd. unfold resize_pixel. cbv zeta.
  assert (width out < 2 ^ 53 /\ height out < 2 ^ 53) as (Bw & Bh).
  { destruct Hwfo as (_ & _ & Hsz & _). unfold channels in Hsz.
    assert (2 ^ 31 < 2 ^ 53) by (apply Z.pow_lt_mono_r; lia). nia. }
  pose proof (scale_nonneg x xr ltac:(lia) Hxn Hxd) as Sx.
  pose proof (scale_nonneg y yr ltac:(lia) Hyn Hyd) as Sy.
  set (sx := Z.min (scale x xr) (width src - 1)).
  set (sy := Z.min (scale y yr) (height src - 1)).
  assert (forall c, 0 <= c < channels -> inside src sx sy c) as Hin.
  { intros c Hc. unfold inside, sx, sy. lia. }
  assert (0 <= 0 < channels /\ 0 <= 1 < channels /\ 0 <= 2 < channels)
    as (C0 & C1 & C2) by (unfold channels; lia).
  destruct (getPixel_pix src sx sy 0 Hwf (Hin 0 C0)) as (-> & A0).
  destruct (getPixel_pix src sx sy 1 Hwf (Hin 1 C1)) as (-> & A1).
  destruct (getPixel_pix src sx sy 2 Hwf (Hin 2 C2)) as (-> & A2).
  simpl.
  destruct (set3_updated out x y (pix src sx sy 0) (pix src sx sy 1) (pix src sx sy 2) Hwfo)
    as (out' & E & U); [lia | lia |].
  exists out'. split; [exact E|].
  eapply updated_ext; [exact U | reflexivity |].
  intros c Hc _. unfold channels in Hc.
  assert (c = 0 \/ c = 1 \/ c = 2) as [-> | [-> | ->]] by lia; simpl;
    apply Z.mod_small; lia.
Qed.

(** X27. Resizing a non-empty buffer to any size of at least one pixel
    each way returns a buffer of that size in which every pixel is a
    pixel of the source, the one at the scaled coordinates clamped to the
    last column and row: the filter never reads outside the source and
    keeps nothing of the new buffer's first content. *)
Theorem applyResize_nearest f junk img w h :
  wf img -> 1 <= width img -> 1 <= height img ->
  1 <= w -> 1 <= h -> w * h * channels < 2 ^ 31 ->
  exists f' out,
    applyResize f junk img w h = Ok (f', out) /\
    width out = w /\ height out = h /\
    forall x y c, 0 <= x < w -> 0 <= y < h -> 0 <= c < channels ->
      exists sx sy,
        sx = Z.min (scale x (Ieee.div 53 (Ieee.of_int 53 (width img))
                                      (Ieee.of_int 53 w)))
                   (width img - 1) /\
        sy = Z.min (scale y (Ieee.div 53 (Ieee.of_int 53 (height img))
                                      (Ieee.of_int 53 h)))
                   (height img - 1) /\
        inside img sx sy c /\
        getPixel out x y c = getPixel img sx sy c.
Proof.
  intros Hwf Hw1 Hh1 Hw Hh Hsz. unfold applyResize. cbv zeta.
  pose proof (newImage_wf junk w h ltac:(lia) ltac:(lia) Hsz) as Hwfn.
  assert (2 ^ 31 < 2 ^ 53) as Hpow by (apply Z.pow_lt_mono_r; lia).
  assert (width img < 2 ^ 53 /\ height img < 2 ^ 53 /\ w < 2 ^ 53 /\ h < 2 ^ 53)
    as (B1 & B2 & B3 & B4).
  { destruct Hwf as (_ & _ & Hs & _). unfold channels in *. nia. }
  destruct (ratio_nonneg (width img) w ltac:(lia) ltac:(lia)) as (Xn & Xd).
  destruct (ratio_nonneg (height img) h ltac:(lia) ltac:(lia)) as (Yn & Yd).
  set (xr := Ieee.div 53 (Ieee.of_int 53 (width img)) (Ieee.of_int 53 w)) in *.
  set (yr := Ieee.div 53 (Ieee.of_int 53 (height img)) (Ieee.of_int 53 h)) in *.
  destruct (rect_painted (resize_pixel img xr yr) (newImage junk w h)
              (fun x y c => pix img (Z.min (scale x xr) (width img - 1))
                                    (Z.min (scale y yr) (height img - 1)) c)
              0 w 0 h Hwfn)
    as (out & E & Hwfo & Hwo & Hho & Hp); simpl; try lia.
  { intros x y im Hx Hy Hwfi Hwi Hhi _. simpl in *.
    apply resize_pixel_updated; try assumption; lia. }
  rewrite E. simpl. eexists _, out. split; [reflexivity|].
  simpl in Hwo, Hho. split; [exact Hwo|]. split; [exact Hho|].
  intros x y c Hx Hy Hc.
  exists (Z.min (scale x xr) (width img - 1)), (Z.min (scale y yr) (height img - 1)).
  split; [reflexivity|]. split; [reflexivity|].
  assert (0 <= scale x xr) as Sx by (apply scale_nonneg; [lia | exact Xn | exact Xd]).
  assert (0 <= scale y yr) as Sy by (apply scale_nonneg; [lia | exact Yn | exact Yd]).
  assert (inside img (Z.min (scale x xr) (width img - 1))
                     (Z.min (scale y yr) (height img - 1)) c) as Hin
    by (unfold inside; lia).
  split; [exact Hin|].
  destruct (getPixel_pix img _ _ c Hwf Hin) as (-> & _).
  destruct (getPixel_pix out x y c Hwfo) as (-> & _); [unfold inside; lia|].
  rewrite Hp by (unfold inside; simpl; lia).
  unfold rows_before. f_equal. zbool; try lia; reflexivity.
Qed.

Lemma applyResize_nearest_witness :
  exists f' out,
    applyResize engine (fun _ => 7) quad 3 1 = Ok (f', out) /\
    width out = 3 /\ height out = 1 /\
    forall x y c, 0 <= x < 3 -> 0 <= y < 1 -> 0 <= c < channels ->
      exists sx sy,
        sx = Z.min (scale x (Ieee.div 53 (Ieee.of_int 53 (width quad))
                                      (Ieee.of_int 53 3)))
                   (width quad - 1) /\
        sy = Z.min (scale y (Ieee.div 53 (Ieee.of_int 53 (height quad))
                                      (Ieee.of_int 53 1)))
                   (height quad - 1) /\
        inside quad sx sy c /\
        getPixel out x y c = getPixel quad sx sy c.
Proof.
  apply (applyResize_nearest engine (fun _ => 7) quad 3 1);
    [wf_concrete | simpl; lia | simpl; lia | lia | lia | vm_compute; reflexivity].
Defined.

(** ** Purple and sunlight *)

(** The [double] products of a sample with 1.3, 0.5 and 1.4, truncated,
    against integer arithmetic, for every sample. *)
Lemma scale_d_table :
  forallb
    (fun v =>
       (scale_d v 13 10 =? 13 * v / 10) && (scale_d v 5 10 =? v / 2)
       && (scale_d v 14 10 =? 14 * v / 10 - (if short_by_one v then 1 else 0)))
    (map Z.of_nat (seq 0 256)) = true.
Proof. vm_compute. reflexivity. Qed.

Lemma scale_d_values v :
  0 <= v < 256 ->
  scale_d v 13 10 = 13 * v / 10 /\ scale_d v 5 10 = v / 2 /\
  scale_d v 14 10 = 14 * v / 10 - (if short_by_one v then 1 else 0).
Proof.
  intros Hv. pose proof scale_d_table as H.
  rewrite forallb_forall in H. specialize (H v).
  assert (In v (map Z.of_nat (seq 0 256))) as Hin.
  { apply in_map_iff. exists (Z.to_nat v). split; [lia|]. apply in_seq. lia. }
  apply H in Hin. apply andb_true_iff in Hin. destruct Hin as (H12 & H3).
  apply andb_true_iff in H12. destruct H12 as (H1 & H2).
  apply Z.eqb_eq in H1, H2, H3. auto.
Qed.

Lemma purple_pixel_updated img0 im x y :
  wf im -> width im = width img0 -> height im = height img0 ->
  0 <= x < width img0 -> 0 <= y < height img0 ->
  (forall c, 0 <= c < channels -> pix im x y c = pix img0 x y c) ->
  exists im', purple_pixel y x im = Ok im' /\
    updated im im' x y (fun _ => true)
      (rgb (Z.min 255 (13 * pix img0 x y 0 / 10)) (pix img0 x y 1 / 2)
           (Z.min 255 (13 * pix img0 x y 2 / 10))).
Proof.
  intros Hwf Hw Hh Hx Hy Hsame. unfold purple_pixel.
  assert (forall c, 0 <= c < channels -> inside im x y c) as Hin.
  { intros c Hc. unfold inside. rewrite Hw, Hh. auto. }
  destruct (getPixel_pix im x y 0 Hwf) as (-> & B0); [apply Hin; unfold channels; lia|].
  destruct (getPixel_pix im x y 1 Hwf) as (-> & B1); [apply Hin; unfold channels; lia|].
  destruct (getPixel_pix im x y 2 Hwf) as (-> & B2); [apply Hin; unfold channels; lia|].
  simpl. rewrite !Hsame in * by (unfold channels; lia).
  destruct (scale_d_values _ B0) as (-> & _ & _).
  destruct (scale_d_values _ B1) as (_ & -> & _).
  destruct (scale_d_values _ B2) as (-> & _ & _).
  assert (0 <= 13 * pix img0 x y 0 / 10) by (apply Z.div_pos; lia).
  assert (0 <= 13 * pix img0 x y 2 / 10) by (apply Z.div_pos; lia).
  assert (0 <= pix img0 x y 1 / 2 < 256)
    by (split; [apply Z.div_pos; lia | apply Z.div_lt_upper_bound; lia]).
  rewrite (Z.max_r 0 (pix img0 x y 1 / 2)) by lia.
  destruct (set3_updated im x y (Z.min 255 (13 * pix img0 x y 0 / 10))
              (pix img0 x y 1 / 2) (Z.min 255 (13 * pix img0 x y 2 / 10)) Hwf)
    as (im' & E & U); [lia | lia |].
  exists im'. split; [exact E|].
  rewrite !byte_mod in U by lia. exact U.
Qed.


Lemma sunlight_pixel_updated src out x y :
  wf src -> wf out -> width out = width src -> height out = height src ->
  0 <= x < width src -> 0 <= y < height src ->
  exists out', sunlight_pixel src y x out = Ok out' /\
    updated out out' x y (fun _ => true)
      (rgb (sunlight_boost (pix src x y 0)) (sunlight_boost (pix src x y 1))
           (pix src x y 2)).
Proof.
  intros Hwf Hwfo Hwo Hho Hx Hy. unfold sunlight_pixel. rewrite for_range_3.
  destruct (getPixel_pix src x y 0 Hwf) as (-> & A0); [inside_lia|].
  destruct (getPixel_pix src x y 1 Hwf) as (-> & A1); [inside_lia|].
  destruct (getPixel_pix src x y 2 Hwf) as (-> & A2); [inside_lia|].
  simpl.
  destruct (scale_d_values _ A0) as (_ & _ & ->).
  destruct (scale_d_values _ A1) as (_ & _ & ->).
  fold (sunlight_boost (pix src x y 0)). fold (sunlight_boost (pix src x y 1)).
  destruct (set3_updated out x y (sunlight_boost (pix src x y 0))
              (sunlight_boost (pix src x y 1)) (pix src x y 2) Hwfo)
    as (out' & E & U); [lia | lia |].
  unfold set3 in E. exists out'. split; [exact E|].
  assert (forall v, 0 <= v < 256 -> 0 <= sunlight_boost v < 256) as Hb.
  { intros v Hv. unfold sunlight_boost.
    assert (0 <= 14 * v / 10 - (if short_by_one v then 1 else 0)); [|lia].
    destruct (short_by_one v) eqn:Es.
    - assert (45 <= v).
      { unfold short_by_one in Es. simpl in Es.
        repeat (apply orb_true_iff in Es; destruct Es as [Es|Es];
                [apply Z.eqb_eq in Es; lia|]).
        discriminate. }
      assert (1 <= 14 * v / 10) by (apply Z.div_le_lower_bound; lia). lia.
    - assert (0 <= 14 * v / 10) by (apply Z.div_pos; lia). lia. }
  rewrite !byte_mod in U by (try apply Hb; assumption). exact U.
Qed.


Example sunlight_sample_45 :
  exists st',
    applyEnhanceSunlight quiet (fun _ => 0) (fresh_state (solid 1 1 45 44 3))
      = Ok (Completed, st') /\
    currentImage st' = solid 1 1 62 61 3.
Proof. eexists. split; vm_compute; reflexivity. Qed.

(** ** Blur of a single colour *)

Lemma sum_from_scale (n : nat) v f :
  forall i, sum_from n i (fun j => v * f j) = v * sum_from n i f.
Proof.
  induction n as [|n IH]; intros i; simpl; [lia|]. rewrite IH. lia.
Qed.

Lemma window_sum_uniform src r x y c v :
  (forall x' y', inside src x' y' c -> pix src x' y' c = v) ->
  0 <= c < channels ->
  window_sum src r x y c = v * window_count src r x y.
Proof.
  intros Hu Hc. unfold window_sum, window_count, window_total.
  rewrite <- sum_from_scale. apply sum_from_ext. intros i _.
  rewrite <- sum_from_scale. apply sum_from_ext. intros j _.
  destruct (inBounds src (x + j) (y + i)) eqn:E; [|lia].
  rewrite Hu by (apply inBounds_inside; assumption). lia.
Qed.

(** X30. A buffer of a single colour is a fixed point of [applyBlur] at
    every strength: a run to the end returns the buffer it was given. *)
Theorem applyBlur_single_colour clicks junk strength st st' col :
  wf (currentImage st) ->
  (forall x y c, inside (currentImage st) x y c ->
     pix (currentImage st) x y c = col c) ->
  applyBlur clicks junk strength st = Ok (Completed, st') ->
  currentImage st' = currentImage st.
Proof.
  intros Hwf Hu Hrun.
  unfold applyBlur, blur_filter in Hrun.
  cbv beta iota zeta delta [run_cancelable run_rows conclude filterName
    startMessage progressTotal rowBound updateInterval locals rowBody finish] in Hrun.
  set (msg := "Applying Blur filter... (Click Cancel to stop)"%string) in Hrun.
  set (p := prologue clicks (height (currentImage st)) msg st) in Hrun.
  assert (currentImage p = currentImage st) as Hp by apply prologue_images.
  rewrite Hp in Hrun. set (src := currentImage st) in *.
  pose proof Hwf as (Hw0 & Hh0 & Hsz & _).
  pose proof (newImage_wf junk _ _ Hw0 Hh0 Hsz) as Hwfn.
  assert (0 <= blurSize_of strength) as Hr0 by (unfold blurSize_of; lia).
  destruct (into_local_rows clicks "Blur" (height src) 10
              (blur_pixel (blurSize_of strength))
              (fun x y c => window_sum src (blurSize_of strength) x y c
                            / window_count src (blurSize_of strength) x y)
              src (newImage junk (width src) (height src)) p Hp Hwf Hwfn
              eq_refl eq_refl) as (o & s1 & out' & E & Ho).
  { intros x y o Hx Hy Hwfo Hwo Hho. apply blur_pixel_updated; assumption. }
  rewrite E in Hrun. simpl in Hrun. destruct o; [|discriminate].
  injection Hrun as <-. simpl.
  destruct (Ho eq_refl) as (Hwf' & Hw' & Hh' & Hpix). simpl in Hw', Hh'.
  apply image_ext; [exact Hwf' | exact Hwf | exact Hw' | exact Hh' |].
  intros x y c Hin.
  assert (inside src x y c) as Hin0 by inside_lia.
  rewrite Hpix by (unfold inside, channels in *; simpl; lia).
  destruct Hin0 as (Hx & Hy & Hc).
  rewrite (window_sum_uniform src _ x y c (col c)).
  - rewrite Z.div_mul; [symmetry; apply Hu; unfold inside; auto|].
    destruct (window_bounds src (blurSize_of strength) x y c Hwf Hr0 Hx Hy Hc) as (H1 & _).
    lia.
  - intros x' y' Hi. apply Hu. exact Hi.
  - exact Hc.
Qed.

Lemma applyBlur_single_colour_witness :
  exists st',
    applyBlur quiet (fun _ => 7) 30 (fresh_state (solid 2 2 10 20 30))
      = Ok (Completed, st') /\
    currentImage st' = currentImage (fresh_state (solid 2 2 10 20 30)).
Proof.
  assert (exists st',
            applyBlur quiet (fun _ => 7) 30 (fresh_state (solid 2 2 10 20 30))
              = Ok (Completed, st')) as (st' & E).
  { vm_compute. eexists. reflexivity. }
  exists st'. split; [exact E|].
  apply (applyBlur_single_colour quiet (fun _ => 7) 30
           (fresh_state (solid 2 2 10 20 30)) st' (rgb 10 20 30));
    [wf_concrete | | exact E].
  intros x y c (Hx & Hy & Hc). simpl in Hx, Hy. unfold channels in Hc.
  assert (x = 0 \/ x = 1) as [-> | ->] by lia;
    assert (y = 0 \/ y = 1) as [-> | ->] by lia;
    assert (c = 0 \/ c = 1 \/ c = 2) as [-> | [-> | ->]] by lia; reflexivity.
Defined.

(* ===================================================================== *)
(** * Runs that reach their end *)
(* ===================================================================== *)

(** With no click on Cancel the event round before the loop leaves the
    token as it was. *)
Lemma prologue_quiet clicks t msg st :
  (forall n, clicks n = false) ->
  cancelRequested (prologue clicks t msg st) = cancelRequested st.
Proof.
  intros Hq. unfold prologue, processEvents. simpl. rewrite Hq. reflexivity.
Qed.

Lemma in_place_quiet clicks name total interval step (n : nat) y st o st' l' :
  (forall k, clicks k = false) -> cancelRequested st = false ->
  cancelable_loop clicks name total interval (in_place step) n y st tt
    = Ok (o, st', l') ->
  o = Completed.
Proof.
  intros Hq Hc H.
  eapply (cancelable_loop_quiet clicks _ _ _ (in_place step)); [exact Hq | | exact Hc | exact H].
  intros y0 s l s' l0 E. destruct (in_place_control _ _ _ _ _ _ E) as (_ & Ht & _).
  exact Ht.
Qed.

Lemma into_local_quiet clicks name total interval step (n : nat) y st out o st' out' :
  (forall k, clicks k = false) -> cancelRequested st = false ->
  cancelable_loop clicks name total interval (into_local step) n y st out
    = Ok (o, st', out') ->
  o = Completed.
Proof.
  intros Hq Hc H.
  eapply (cancelable_loop_quiet clicks _ _ _ (into_local step)); [exact Hq | | exact Hc | exact H].
  intros y0 s l s' l0 E. destruct (into_local_control _ _ _ _ _ _ E) as (_ & Ht & _).
  exact Ht.
Qed.

(** Any cancelable filter started with the token clear runs to its end
    when no click on Cancel arrives. *)
Lemma quiet_outcome flt clicks st o st' :
  cancelRequested st = false -> (forall n, clicks n = false) ->
  apply_filter flt clicks st = Ok (o, st') -> o = Completed.
Proof.
  intros Hc Hq Hf.
  rewrite apply_filter_run in Hf. unfold run_cancelable, run_rows in Hf.
  apply bind_Ok in Hf. destruct Hf as ([[o2 s1] l1] & Hl & Hcc).
  assert (o2 = Completed) as ->.
  { eapply (cancelable_loop_quiet clicks _ _ _ (rowBody (filter_of flt)));
      [exact Hq | | | exact Hl].
    - intros y0 s l s' l' E. destruct (rowBody_control flt _ _ _ _ _ E) as (_ & ? & _).
      assumption.
    - rewrite prologue_quiet by exact Hq. exact Hc. }
  simpl in Hcc. injection Hcc as <- _. reflexivity.
Qed.

(** C2. On a well-formed buffer [applyGrayscale] always returns; started
    with the token clear it runs to its end when no click on Cancel
    arrives; and after a run to the end the three channels of every pixel
    hold [(R + G + B) / 3], the integer quotient of the sum of the pixel's
    channels before the call. *)
Theorem applyGrayscale_average clicks st :
  wf (currentImage st) ->
  exists o st',
    applyGrayscale clicks st = Ok (o, st') /\
    (cancelRequested st = false -> (forall n, clicks n = false) ->
     o = Completed) /\
    (o = Completed ->
     width (currentImage st') = width (currentImage st) /\
     height (currentImage st') = height (currentImage st) /\
     forall x y r g b,
       getPixel (currentImage st) x y 0 = Ok r ->
       getPixel (currentImage st) x y 1 = Ok g ->
       getPixel (currentImage st) x y 2 = Ok b ->
       forall c, 0 <= c < channels ->
         getPixel (currentImage st') x y c = Ok ((r + g + b) / 3)).
Proof.
  intros Hwf.
  destruct (applyGrayscale_painted clicks st Hwf) as (o & st' & E & Ho).
  exists o, st'. split; [exact E|]. split.
  { intros Hc Hq. exact (quiet_outcome Grayscale clicks st o st' Hc Hq E). }
  intros Hc.
  destruct (Ho Hc) as (Hwf' & Hw' & Hh' & Hpix).
  split; [exact Hw'|]. split; [exact Hh'|].
  intros x y r g b Hr Hg Hb c Hcc.
  apply getPixel_Ok_inside in Hr, Hg, Hb.
  destruct Hr as ((Hx & Hy & _) & Hr), Hg as (_ & Hg), Hb as (_ & Hb).
  destruct (getPixel_pix (currentImage st') x y c Hwf') as (-> & _).
  { unfold inside. rewrite Hw', Hh'. auto. }
  rewrite Hpix by (unfold inside; auto). unfold gray_of.
  rewrite Hr, Hg, Hb.
  destruct (getPixel_pix (currentImage st) x y 0 Hwf) as (_ & B0);
    [unfold inside, channels; lia|].
  destruct (getPixel_pix (currentImage st) x y 1 Hwf) as (_ & B1);
    [unfold inside, channels; lia|].
  destruct (getPixel_pix (currentImage st) x y 2 Hwf) as (_ & B2);
    [unfold inside, channels; lia|].
  rewrite Z.quot_div_nonneg by lia. reflexivity.
Qed.

Lemma applyGrayscale_average_witness :
  exists st',
    applyGrayscale quiet (fresh_state quad) = Ok (Completed, st') /\
    width (currentImage st') = 2 /\ height (currentImage st') = 2 /\
    (forall c, 0 <= c < channels -> getPixel (currentImage st') 0 0 c = Ok 20) /\
    (forall c, 0 <= c < channels -> getPixel (currentImage st') 1 0 c = Ok 50) /\
    (forall c, 0 <= c < channels -> getPixel (currentImage st') 0 1 c = Ok 80) /\
    (forall c, 0 <= c < channels -> getPixel (currentImage st') 1 1 c = Ok 221).
Proof.
  destruct (applyGrayscale_average quiet (fresh_state quad) ltac:(wf_concrete))
    as (o & st' & E & Hc & Hf).
  pose proof (Hc eq_refl (fun _ => eq_refl)) as Ho. subst o.
  destruct (Hf eq_refl) as (Hw & Hh & Hpix).
  exists st'. split; [exact E|]. split; [exact Hw|]. split; [exact Hh|].
  split; [|split; [|split]]; intros c Hcc.
  - exact (Hpix 0 0 10 20 30 eq_refl eq_refl eq_refl c Hcc).
  - exact (Hpix 1 0 40 50 60 eq_refl eq_refl eq_refl c Hcc).
  - exact (Hpix 0 1 70 80 90 eq_refl eq_refl eq_refl c Hcc).
  - exact (Hpix 1 1 200 210 255 eq_refl eq_refl eq_refl c Hcc).
Defined.
(** C5. For a strength in [0 .. 100] the radius is
    [max(1, floor(strength*24/100) + 1)], which is 1 at strength 0; a run
    of [applyBlur] on a well-formed buffer returns; started with the token
    clear it reaches its end when no click on Cancel arrives; and when it
    reaches its end every sample is the sum of the in-bounds samples of
    the [(2r+1) x (2r+1)] window around it divided (integer quotient) by
    the number of in-bounds samples. *)
Theorem applyBlur_box clicks junk strength st :
  wf (currentImage st) -> 0 <= strength <= 100 ->
  blurSize_of strength = blur_radius strength /\
  blurSize_of 0 = 1 /\
  exists o st',
    applyBlur clicks junk strength st = Ok (o, st') /\
    (cancelRequested st = false -> (forall n, clicks n = false) ->
     o = Completed) /\
    (o = Completed ->
     width (currentImage st') = width (currentImage st) /\
     height (currentImage st') = height (currentImage st) /\
     forall x y c, inside (currentImage st) x y c ->
       getPixel (currentImage st') x y c =
         Ok (window_sum (currentImage st) (blur_radius strength) x y c
             / window_count (currentImage st) (blur_radius strength) x y)).
Proof.
  intros Hwf Hs.
  assert (blurSize_of strength = blur_radius strength) as Hr.
  { unfold blurSize_of, blur_radius.
    rewrite (Z.min_r 100 strength), (Z.max_r 0 strength) by lia.
    rewrite Z.quot_div_nonneg by lia. reflexivity. }
  split; [exact Hr|]. split; [reflexivity|].
  unfold applyBlur, blur_filter.
  cbv beta iota zeta delta [run_cancelable run_rows conclude filterName startMessage progressTotal
    rowBound updateInterval locals rowBody finish].
  rewrite Hr.
  set (msg := "Applying Blur filter... (Click Cancel to stop)"%string).
  set (p := prologue clicks (height (currentImage st)) msg st).
  assert (currentImage p = currentImage st) as Hp by apply prologue_images.
  rewrite Hp. set (src := currentImage st) in *.
  pose proof Hwf as (Hw0 & Hh0 & Hsz & _).
  pose proof (newImage_wf junk _ _ Hw0 Hh0 Hsz) as Hwfn.
  assert (0 <= blur_radius strength) as Hr0 by (unfold blur_radius; lia).
  destruct (into_local_rows clicks "Blur" (height src) 10
              (blur_pixel (blur_radius strength))
              (fun x y c => window_sum src (blur_radius strength) x y c
                            / window_count src (blur_radius strength) x y)
              src (newImage junk (width src) (height src)) p Hp Hwf Hwfn
              eq_refl eq_refl) as (o & st' & out' & E & Ho).
  { intros x y o Hx Hy Hwfo Hwo Hho. apply blur_pixel_updated; assumption. }
  rewrite E. simpl. destruct o.
  - eexists Completed, _. split; [reflexivity|].
    split; [intros _ _; reflexivity|]. intros _.
    destruct (Ho eq_refl) as (Hwf' & Hw' & Hh' & Hpix). simpl in *.
    split; [exact Hw'|]. split; [exact Hh'|].
    intros x y c Hin.
    destruct (getPixel_pix out' x y c Hwf') as (-> & _).
    { unfold inside. rewrite Hw', Hh'. exact Hin. }
    rewrite Hpix by exact Hin. reflexivity.
  - eexists Cancelled, _. split; [reflexivity|]. split; [|discriminate].
    intros Hc Hq. eapply into_local_quiet; [exact Hq | | exact E].
    unfold p. rewrite prologue_quiet by exact Hq. exact Hc.
Qed.

Lemma applyBlur_box_witness :
  blurSize_of 0 = 1 /\
  exists st',
    applyBlur quiet (fun _ => 7) 0 (fresh_state row4) = Ok (Completed, st') /\
    getPixel row4 0 0 0 = Ok 0 /\
    getPixel (currentImage st') 0 0 0 = Ok 45 /\
    getPixel (currentImage st') 1 0 0 = Ok 90 /\
    getPixel (currentImage st') 2 0 0 = Ok 170 /\
    getPixel (currentImage st') 3 0 0 = Ok 210 /\
    window_sum row4 2 0 0 0 / window_count row4 2 0 0 = 90.
Proof.
  destruct (applyBlur_box quiet (fun _ => 7) 0 (fresh_state row4)
              ltac:(wf_concrete) ltac:(lia))
    as (_ & H0 & o & st' & E & Hc & Hf).
  pose proof (Hc eq_refl (fun _ => eq_refl)) as Ho. subst o.
  destruct (Hf eq_refl) as (_ & _ & Hpix).
  assert (forall x, 0 <= x < 4 -> inside row4 x 0 0) as Hin
    by (intros x Hx; unfold inside, channels; simpl; lia).
  split; [exact H0|]. exists st'. split; [exact E|]. split; [reflexivity|].
  split; [exact (Hpix 0 0 0 (Hin 0 ltac:(lia)))|].
  split; [exact (Hpix 1 0 0 (Hin 1 ltac:(lia)))|].
  split; [exact (Hpix 2 0 0 (Hin 2 ltac:(lia)))|].
  split; [exact (Hpix 3 0 0 (Hin 3 ltac:(lia)))|].
  reflexivity.
Defined.

(** X1. On a well-formed buffer [applyBlackAndWhite] always returns;
    started with the token clear it runs to its end when no click on
    Cancel arrives; and after a run to the end every sample of a pixel is
    255 when [(R + G + B) / 3] exceeds 127 and 0 otherwise. *)
Theorem applyBlackAndWhite_threshold clicks st :
  wf (currentImage st) ->
  exists o st',
    applyBlackAndWhite clicks st = Ok (o, st') /\
    (cancelRequested st = false -> (forall n, clicks n = false) ->
     o = Completed) /\
    (o = Completed ->
     width (currentImage st') = width (currentImage st) /\
     height (currentImage st') = height (currentImage st) /\
     forall x y r g b,
       getPixel (currentImage st) x y 0 = Ok r ->
       getPixel (currentImage st) x y 1 = Ok g ->
       getPixel (currentImage st) x y 2 = Ok b ->
       forall c, 0 <= c < channels ->
         getPixel (currentImage st') x y c
           = Ok (if 127 <? (r + g + b) / 3 then 255 else 0)).
Proof.
  intros Hwf.
  destruct (applyBlackAndWhite_painted clicks st Hwf) as (o & st' & E & Ho).
  exists o, st'. split; [exact E|]. split.
  { intros Hc Hq. exact (quiet_outcome BlackAndWhite clicks st o st' Hc Hq E). }
  intros Hc.
  destruct (Ho Hc) as (Hwf' & Hw' & Hh' & Hpix).
  split; [exact Hw'|]. split; [exact Hh'|].
  intros x y r g b Hr Hg Hb c Hcc.
  apply getPixel_Ok_inside in Hr, Hg, Hb.
  destruct Hr as ((Hx & Hy & _) & Hr), Hg as (_ & Hg), Hb as (_ & Hb).
  destruct (getPixel_pix (currentImage st') x y c Hwf') as (-> & _).
  { unfold inside. rewrite Hw', Hh'. auto. }
  rewrite Hpix by (unfold inside; auto). unfold bw_of, gray_of.
  rewrite Hr, Hg, Hb.
  destruct (getPixel_pix (currentImage st) x y 0 Hwf) as (_ & B0);
    [unfold inside, channels; lia|].
  destruct (getPixel_pix (currentImage st) x y 1 Hwf) as (_ & B1);
    [unfold inside, channels; lia|].
  destruct (getPixel_pix (currentImage st) x y 2 Hwf) as (_ & B2);
    [unfold inside, channels; lia|].
  rewrite Z.quot_div_nonneg by lia. reflexivity.
Qed.

Lemma applyBlackAndWhite_threshold_witness :
  exists st',
    applyBlackAndWhite quiet (fresh_state quad) = Ok (Completed, st') /\
    width (currentImage st') = 2 /\ height (currentImage st') = 2 /\
    (forall c, 0 <= c < channels -> getPixel (currentImage st') 0 0 c = Ok 0) /\
    (forall c, 0 <= c < channels -> getPixel (currentImage st') 0 1 c = Ok 0) /\
    (forall c, 0 <= c < channels -> getPixel (currentImage st') 1 1 c = Ok 255).
Proof.
  destruct (applyBlackAndWhite_threshold quiet (fresh_state quad) ltac:(wf_concrete))
    as (o & st' & E & Hc & Hf).
  pose proof (Hc eq_refl (fun _ => eq_refl)) as Ho. subst o.
  destruct (Hf eq_refl) as (Hw & Hh & Hpix).
  exists st'. split; [exact E|]. split; [exact Hw|]. split; [exact Hh|].
  split; [|split]; intros c Hcc.
  - exact (Hpix 0 0 10 20 30 eq_refl eq_refl eq_refl c Hcc).
  - exact (Hpix 0 1 70 80 90 eq_refl eq_refl eq_refl c Hcc).
  - exact (Hpix 1 1 200 210 255 eq_refl eq_refl eq_refl c Hcc).
Defined.

(** X16. On a well-formed buffer the cancelable [applyEmboss] always
    returns; started with the token clear it runs to its end when no
    click on Cancel arrives; and it never writes the last row and the
    last column of its result: after a run to the end they hold what the
    constructor left in the new buffer, and every other pixel holds the
    emboss value on its three channels. *)
Theorem applyEmboss_border clicks junk st :
  wf (currentImage st) ->
  exists o st',
    applyEmboss clicks junk st = Ok (o, st') /\
    (cancelRequested st = false -> (forall n, clicks n = false) ->
     o = Completed) /\
    (o = Completed ->
     width (currentImage st') = width (currentImage st) /\
     height (currentImage st') = height (currentImage st) /\
     forall x y c, inside (currentImage st) x y c ->
       getPixel (currentImage st') x y c =
         Ok (if (x <? width (currentImage st) - 1)
                && (y <? height (currentImage st) - 1)
             then emboss_of (currentImage st) x y
             else pix (newImage junk (width (currentImage st))
                                (height (currentImage st))) x y c)).
Proof.
  intros Hwf.
  unfold applyEmboss, emboss_filter.
  cbv beta iota zeta delta [run_cancelable run_rows conclude filterName
    startMessage progressTotal rowBound updateInterval locals rowBody finish].
  set (msg := "Applying Emboss... (Click Cancel to stop)"%string).
  set (p := prologue clicks (height (currentImage st)) msg st).
  assert (currentImage p = currentImage st) as Hp by apply prologue_images.
  rewrite Hp. set (src := currentImage st) in *.
  pose proof Hwf as (Hw0 & Hh0 & Hsz & _).
  pose proof (newImage_wf junk _ _ Hw0 Hh0 Hsz) as Hwfn.
  destruct (into_local_window clicks "Emboss" (height src) 20
              emboss_pixel (fun s => width s - 1)
              (fun x y _ => emboss_of src x y)
              src (newImage junk (width src) (height src)) p (height src - 1)
              Hp Hwfn) as (o & st' & out' & E & Ho).
  { simpl. lia. } { simpl. lia. }
  { intros x y o Hx Hy Hwfo Hwo Hho. apply emboss_pixel_updated; assumption. }
  rewrite E. simpl. destruct o.
  - eexists Completed, _. split; [reflexivity|].
    split; [intros _ _; reflexivity|]. intros _.
    destruct (Ho eq_refl) as (Hwf' & Hw' & Hh' & Hpix). simpl in *.
    split; [exact Hw'|]. split; [exact Hh'|].
    intros x y c Hin.
    destruct (getPixel_pix out' x y c Hwf') as (-> & _).
    { unfold inside. rewrite Hw', Hh'. exact Hin. }
    rewrite Hpix by exact Hin. f_equal. destruct Hin as (Hx & Hy & _).
    unfold rows_before. zbool; try lia; reflexivity.
  - eexists Cancelled, _. split; [reflexivity|]. split; [|discriminate].
    intros Hc Hq. eapply into_local_quiet; [exact Hq | | exact E].
    unfold p. rewrite prologue_quiet by exact Hq. exact Hc.
Qed.

Lemma applyEmboss_border_witness :
  exists st',
    applyEmboss quiet (fun _ => 7) (fresh_state (solid 2 2 100 150 200))
      = Ok (Completed, st') /\
    width (currentImage st') = 2 /\ height (currentImage st') = 2 /\
    (forall c, 0 <= c < channels -> getPixel (currentImage st') 0 0 c = Ok 128) /\
    (forall c, 0 <= c < channels -> getPixel (currentImage st') 1 0 c = Ok 7) /\
    (forall c, 0 <= c < channels -> getPixel (currentImage st') 0 1 c = Ok 7) /\
    (forall c, 0 <= c < channels -> getPixel (currentImage st') 1 1 c = Ok 7).
Proof.
  destruct (applyEmboss_border quiet (fun _ => 7)
              (fresh_state (solid 2 2 100 150 200)) ltac:(wf_concrete))
    as (o & st' & E & Hc & Hf).
  pose proof (Hc eq_refl (fun _ => eq_refl)) as Ho. subst o.
  destruct (Hf eq_refl) as (Hw & Hh & Hpix).
  assert (forall x y c, 0 <= x < 2 -> 0 <= y < 2 -> 0 <= c < channels ->
            inside (solid 2 2 100 150 200) x y c) as Hin
    by (intros x y c Hx Hy Hcc; unfold inside; simpl; lia).
  exists st'. split; [exact E|]. split; [exact Hw|]. split; [exact Hh|].
  split; [|split; [|split]]; intros c Hcc.
  - exact (Hpix 0 0 c (Hin 0 0 c ltac:(lia) ltac:(lia) Hcc)).
  - rewrite (Hpix 1 0 c (Hin 1 0 c ltac:(lia) ltac:(lia) Hcc)).
    unfold channels in Hcc.
    assert (c = 0 \/ c = 1 \/ c = 2) as [-> | [-> | ->]] by lia; reflexivity.
  - rewrite (Hpix 0 1 c (Hin 0 1 c ltac:(lia) ltac:(lia) Hcc)).
    unfold channels in Hcc.
    assert (c = 0 \/ c = 1 \/ c = 2) as [-> | [-> | ->]] by lia; reflexivity.
  - rewrite (Hpix 1 1 c (Hin 1 1 c ltac:(lia) ltac:(lia) Hcc)).
    unfold channels in Hcc.
    assert (c = 0 \/ c = 1 \/ c = 2) as [-> | [-> | ->]] by lia; reflexivity.
Defined.

(** X20. On a well-formed buffer [applyInfrared] always returns; started
    with the token clear it runs to its end when no click on Cancel
    arrives; and after a run to the end the red sample of every pixel is
    255 and its green and blue samples are [(765 - (R + G + B)) / 3] of
    the pixel before the call: the [float] computation never departs from
    this integer quotient. *)
Theorem applyInfrared_channels clicks st :
  wf (currentImage st) ->
  exists o st',
    applyInfrared clicks st = Ok (o, st') /\
    (cancelRequested st = false -> (forall n, clicks n = false) ->
     o = Completed) /\
    (o = Completed ->
     width (currentImage st') = width (currentImage st) /\
     height (currentImage st') = height (currentImage st) /\
     forall x y r g b,
       getPixel (currentImage st) x y 0 = Ok r ->
       getPixel (currentImage st) x y 1 = Ok g ->
       getPixel (currentImage st) x y 2 = Ok b ->
       getPixel (currentImage st') x y 0 = Ok 255 /\
       getPixel (currentImage st') x y 1 = Ok ((765 - (r + g + b)) / 3) /\
       getPixel (currentImage st') x y 2 = Ok ((765 - (r + g + b)) / 3)).
Proof.
  intros Hwf. unfold applyInfrared, infrared_filter.
  cbv beta iota zeta delta [run_cancelable run_rows conclude filterName
    startMessage progressTotal rowBound updateInterval locals rowBody finish].
  set (msg := "Applying Infrared filter... (Click Cancel to stop)"%string).
  set (p := prologue clicks (width (currentImage st)) msg st).
  assert (currentImage p = currentImage st) as Hp by apply prologue_images.
  rewrite Hp.
  destruct (in_place_columns clicks "Infrared" (width (currentImage st)) 50
              infrared_pixel
              (fun x y =>
                 rgb 255
                   ((765 - (pix (currentImage st) x y 0 + pix (currentImage st) x y 1
                            + pix (currentImage st) x y 2)) / 3)
                   ((765 - (pix (currentImage st) x y 0 + pix (currentImage st) x y 1
                            + pix (currentImage st) x y 2)) / 3))
              (currentImage st) p Hwf Hp) as (o & st' & E & Ho).
  { intros x y im Hx Hy Hwfi Hw Hh Hs.
    apply (infrared_pixel_updated (currentImage st)); assumption. }
  rewrite E. simpl. destruct o.
  - eexists Completed, _. split; [reflexivity|].
    split; [intros _ _; reflexivity|]. intros _.
    destruct (Ho eq_refl) as (Hwf' & Hw' & Hh' & Hpix). simpl.
    split; [exact Hw'|]. split; [exact Hh'|].
    intros x y r g b Hr Hg Hb.
    apply getPixel_Ok_inside in Hr, Hg, Hb.
    destruct Hr as ((Hx & Hy & _) & Hr), Hg as (_ & Hg), Hb as (_ & Hb).
    destruct (getPixel_pix (currentImage st') x y 0 Hwf') as (-> & _); [inside_lia|].
    destruct (getPixel_pix (currentImage st') x y 1 Hwf') as (-> & _); [inside_lia|].
    destruct (getPixel_pix (currentImage st') x y 2 Hwf') as (-> & _); [inside_lia|].
    rewrite !Hpix by inside_lia. rewrite Hr, Hg, Hb. auto.
  - eexists Cancelled, _. split; [reflexivity|]. split; [|discriminate].
    intros Hc Hq. eapply in_place_quiet; [exact Hq | | exact E].
    unfold p. rewrite prologue_quiet by exact Hq. exact Hc.
Qed.

Lemma applyInfrared_channels_witness :
  exists st',
    applyInfrared quiet (fresh_state quad) = Ok (Completed, st') /\
    width (currentImage st') = 2 /\ height (currentImage st') = 2 /\
    getPixel (currentImage st') 0 0 0 = Ok 255 /\
    getPixel (currentImage st') 0 0 1 = Ok 235 /\
    getPixel (currentImage st') 0 0 2 = Ok 235 /\
    getPixel (currentImage st') 1 1 0 = Ok 255 /\
    getPixel (currentImage st') 1 1 1 = Ok 33 /\
    getPixel (currentImage st') 1 1 2 = Ok 33.
Proof.
  destruct (applyInfrared_channels quiet (fresh_state quad) ltac:(wf_concrete))
    as (o & st' & E & Hc & Hf).
  pose proof (Hc eq_refl (fun _ => eq_refl)) as Ho. subst o.
  destruct (Hf eq_refl) as (Hw & Hh & Hpix).
  destruct (Hpix 0 0 10 20 30 eq_refl eq_refl eq_refl) as (A0 & A1 & A2).
  destruct (Hpix 1 1 200 210 255 eq_refl eq_refl eq_refl) as (B0 & B1 & B2).
  exists st'. split; [exact E|]. split; [exact Hw|]. split; [exact Hh|].
  split; [exact A0|]. split; [exact A1|]. split; [exact A2|].
  split; [exact B0|]. split; [exact B1 | exact B2].
Defined.

(** X28. On a well-formed buffer [applyPurpleFilter] always returns;
    started with the token clear it runs to its end when no click on
    Cancel arrives; and after a run to the end the samples of every pixel
    are [min (255, 13 R / 10)], [G / 2] and [min (255, 13 B / 10)] of the
    pixel before the call: the [double] products agree with the integer
    quotients on every sample. *)
Theorem applyPurpleFilter_channels clicks st :
  wf (currentImage st) ->
  exists o st',
    applyPurpleFilter clicks st = Ok (o, st') /\
    (cancelRequested st = false -> (forall n, clicks n = false) ->
     o = Completed) /\
    (o = Completed ->
     width (currentImage st') = width (currentImage st) /\
     height (currentImage st') = height (currentImage st) /\
     forall x y r g b,
       getPixel (currentImage st) x y 0 = Ok r ->
       getPixel (currentImage st) x y 1 = Ok g ->
       getPixel (currentImage st) x y 2 = Ok b ->
       getPixel (currentImage st') x y 0 = Ok (Z.min 255 (13 * r / 10)) /\
       getPixel (currentImage st') x y 1 = Ok (g / 2) /\
       getPixel (currentImage st') x y 2 = Ok (Z.min 255 (13 * b / 10))).
Proof.
  intros Hwf. unfold applyPurpleFilter, purple_filter.
  cbv beta iota zeta delta [run_cancelable run_rows conclude filterName
    startMessage progressTotal rowBound updateInterval locals rowBody finish].
  set (msg := "Applying Purple filter... (Click Cancel to stop)"%string).
  set (p := prologue clicks (height (currentImage st)) msg st).
  assert (currentImage p = currentImage st) as Hp by apply prologue_images.
  rewrite Hp.
  destruct (in_place_rows clicks "Purple" (height (currentImage st)) 50
              purple_pixel
              (fun x y =>
                 rgb (Z.min 255 (13 * pix (currentImage st) x y 0 / 10))
                     (pix (currentImage st) x y 1 / 2)
                     (Z.min 255 (13 * pix (currentImage st) x y 2 / 10)))
              (currentImage st) p Hwf Hp) as (o & st' & E & Ho).
  { intros x y im Hx Hy Hwfi Hw Hh Hs.
    apply (purple_pixel_updated (currentImage st)); assumption. }
  rewrite E. simpl. destruct o.
  - eexists Completed, _. split; [reflexivity|].
    split; [intros _ _; reflexivity|]. intros _.
    destruct (Ho eq_refl) as (Hwf' & Hw' & Hh' & Hpix). simpl.
    split; [exact Hw'|]. split; [exact Hh'|].
    intros x y r g b Hr Hg Hb.
    apply getPixel_Ok_inside in Hr, Hg, Hb.
    destruct Hr as ((Hx & Hy & _) & Hr), Hg as (_ & Hg), Hb as (_ & Hb).
    destruct (getPixel_pix (currentImage st') x y 0 Hwf') as (-> & _); [inside_lia|].
    destruct (getPixel_pix (currentImage st') x y 1 Hwf') as (-> & _); [inside_lia|].
    destruct (getPixel_pix (currentImage st') x y 2 Hwf') as (-> & _); [inside_lia|].
    rewrite !Hpix by inside_lia. rewrite Hr, Hg, Hb. auto.
  - eexists Cancelled, _. split; [reflexivity|]. split; [|discriminate].
    intros Hc Hq. eapply in_place_quiet; [exact Hq | | exact E].
    unfold p. rewrite prologue_quiet by exact Hq. exact Hc.
Qed.

Lemma applyPurpleFilter_channels_witness :
  exists st',
    applyPurpleFilter quiet (fresh_state quad) = Ok (Completed, st') /\
    width (currentImage st') = 2 /\ height (currentImage st') = 2 /\
    getPixel (currentImage st') 0 0 0 = Ok 13 /\
    getPixel (currentImage st') 0 0 1 = Ok 10 /\
    getPixel (currentImage st') 0 0 2 = Ok 39 /\
    getPixel (currentImage st') 1 1 0 = Ok 255 /\
    getPixel (currentImage st') 1 1 1 = Ok 105 /\
    getPixel (currentImage st') 1 1 2 = Ok 255.
Proof.
  destruct (applyPurpleFilter_channels quiet (fresh_state quad) ltac:(wf_concrete))
    as (o & st' & E & Hc & Hf).
  pose proof (Hc eq_refl (fun _ => eq_refl)) as Ho. subst o.
  destruct (Hf eq_refl) as (Hw & Hh & Hpix).
  destruct (Hpix 0 0 10 20 30 eq_refl eq_refl eq_refl) as (A0 & A1 & A2).
  destruct (Hpix 1 1 200 210 255 eq_refl eq_refl eq_refl) as (B0 & B1 & B2).
  exists st'. split; [exact E|]. split; [exact Hw|]. split; [exact Hh|].
  split; [exact A0|]. split; [exact A1|]. split; [exact A2|].
  split; [exact B0|]. split; [exact B1 | exact B2].
Defined.

(** X29. On a well-formed buffer the cancelable [applyEnhanceSunlight]
    always returns; started with the token clear it runs to its end when
    no click on Cancel arrives; and after a run to the end the red and
    green samples [v] of every pixel are [min (255, 14 v / 10)], one less
    at the seven samples 45, 85, 90, 165, 170, 175 and 180 where the
    [double] product [v * 1.4] falls just below the integer; the blue
    sample is unchanged. *)
Theorem applyEnhanceSunlight_boost clicks junk st :
  wf (currentImage st) ->
  exists o st',
    applyEnhanceSunlight clicks junk st = Ok (o, st') /\
    (cancelRequested st = false -> (forall n, clicks n = false) ->
     o = Completed) /\
    (o = Completed ->
     width (currentImage st') = width (currentImage st) /\
     height (currentImage st') = height (currentImage st) /\
     forall x y r g b,
       getPixel (currentImage st) x y 0 = Ok r ->
       getPixel (currentImage st) x y 1 = Ok g ->
       getPixel (currentImage st) x y 2 = Ok b ->
       getPixel (currentImage st') x y 0 = Ok (sunlight_boost r) /\
       getPixel (currentImage st') x y 1 = Ok (sunlight_boost g) /\
       getPixel (currentImage st') x y 2 = Ok b).
Proof.
  intros Hwf. unfold applyEnhanceSunlight, sunlight_filter.
  cbv beta iota zeta delta [run_cancelable run_rows conclude filterName
    startMessage progressTotal rowBound updateInterval locals rowBody finish].
  set (msg := "Enhancing Sunlight... (Click Cancel to stop)"%string).
  set (p := prologue clicks (height (currentImage st)) msg st).
  assert (currentImage p = currentImage st) as Hp by apply prologue_images.
  rewrite Hp. set (src := currentImage st) in *.
  pose proof Hwf as (Hw0 & Hh0 & Hsz & _).
  pose proof (newImage_wf junk _ _ Hw0 Hh0 Hsz) as Hwfn.
  destruct (into_local_rows clicks "Enhance Sunlight" (height src) 20
              sunlight_pixel
              (fun x y => rgb (sunlight_boost (pix src x y 0))
                              (sunlight_boost (pix src x y 1)) (pix src x y 2))
              src (newImage junk (width src) (height src)) p Hp Hwf Hwfn
              eq_refl eq_refl) as (o & st' & out' & E & Ho).
  { intros x y o Hx Hy Hwfo Hwo Hho. apply sunlight_pixel_updated; assumption. }
  rewrite E. simpl. destruct o.
  - eexists Completed, _. split; [reflexivity|].
    split; [intros _ _; reflexivity|]. intros _.
    destruct (Ho eq_refl) as (Hwf' & Hw' & Hh' & Hpix). simpl in *.
    split; [exact Hw'|]. split; [exact Hh'|].
    intros x y r g b Hr Hg Hb.
    apply getPixel_Ok_inside in Hr, Hg, Hb.
    destruct Hr as ((Hx & Hy & _) & Hr), Hg as (_ & Hg), Hb as (_ & Hb).
    destruct (getPixel_pix out' x y 0 Hwf') as (-> & _); [inside_lia|].
    destruct (getPixel_pix out' x y 1 Hwf') as (-> & _); [inside_lia|].
    destruct (getPixel_pix out' x y 2 Hwf') as (-> & _); [inside_lia|].
    rewrite !Hpix by (unfold inside, channels; simpl; lia). rewrite Hr, Hg, Hb. auto.
  - eexists Cancelled, _. split; [reflexivity|]. split; [|discriminate].
    intros Hc Hq. eapply into_local_quiet; [exact Hq | | exact E].
    unfold p. rewrite prologue_quiet by exact Hq. exact Hc.
Qed.

Lemma applyEnhanceSunlight_boost_witness :
  exists st',
    applyEnhanceSunlight quiet (fun _ => 7) (fresh_state (solid 1 1 45 44 3))
      = Ok (Completed, st') /\
    width (currentImage st') = 1 /\ height (currentImage st') = 1 /\
    getPixel (currentImage st') 0 0 0 = Ok 62 /\
    getPixel (currentImage st') 0 0 1 = Ok 61 /\
    getPixel (currentImage st') 0 0 2 = Ok 3.
Proof.
  destruct (applyEnhanceSunlight_boost quiet (fun _ => 7)
              (fresh_state (solid 1 1 45 44 3)) ltac:(wf_concrete))
    as (o & st' & E & Hc & Hf).
  pose proof (Hc eq_refl (fun _ => eq_refl)) as Ho. subst o.
  destruct (Hf eq_refl) as (Hw & Hh & Hpix).
  destruct (Hpix 0 0 45 44 3 eq_refl eq_refl eq_refl) as (A0 & A1 & A2).
  exists st'. split; [exact E|]. split; [exact Hw|]. split; [exact Hh|].
  split; [exact A0|]. split; [exact A1 | exact A2].
Defined.
